(** * Podcast generator: script parsing, key rotation, retries, ledger and
      timeline assembly

    A shallow embedding of [podcast_generator_v2.py], and of the effect
    fitting and the chunk loop of [podcast_generator.py], together with the
    properties stated about them.

    Conventions of the model.
    - Python [str] is [string]; a character is a code point below 256.
    - Python [int] is [Z]; list positions and counts are [nat].
    - A pydub [AudioSegment] is the list of its sample frames, at 11025
      frames a second; [len(seg)] is their number in milliseconds, rounded
      as pydub rounds it, and a slice is cut at the frame that pydub
      computes.  What the audio library does to one frame (mixing, gain)
      is a parameter of the model.
    - State that the code mutates (rotation cursor, ledger, effect cache,
      outbound requests, sleeps, exported files) lives in one record
      threaded through a state monad; the network, the clock and the file
      system answer through an environment.
    - A request, the decoding of a response, a sleep, a division and an
      export can fail as they do in Python.  Writing the credits log and
      the temporary audio files succeeds, and nothing is said of the
      logger. *)

From Stdlib Require Import ZArith Lia Ascii String.
From stdpp Require Import gmap strings list pretty.

Local Open Scope string_scope.
Local Open Scope list_scope.

(** ** Python string primitives *)

Module PyStr.

(** [str.isspace] on one code point below 256. *)
Definition is_space (c : ascii) : bool :=
  let n := N_of_ascii c in
  ((9 <=? n) && (n <=? 13) || (28 <=? n) && (n <=? 32)
   || (n =? 133) || (n =? 160))%N.

Fixpoint lstrip (s : string) : string :=
  match s with
  | EmptyString => EmptyString
  | String c r => if is_space c then lstrip r else s
  end.

Definition rstrip (s : string) : string :=
  String.rev (lstrip (String.rev s)).

(** [s.strip()] *)
Definition strip (s : string) : string := rstrip (lstrip s).

(** [c.lower()] for a code point below 256: A-Z and the Latin-1 capitals. *)
Definition lower_char (c : ascii) : ascii :=
  let n := N_of_ascii c in
  if ((65 <=? n) && (n <=? 90)
      || (192 <=? n) && (n <=? 222) && negb (n =? 215))%N
  then ascii_of_N (n + 32) else c.

Fixpoint lower (s : string) : string :=
  match s with
  | EmptyString => EmptyString
  | String c r => String (lower_char c) (lower r)
  end.

(** [sep.join(l)] *)
Definition join (sep : string) (l : list string) : string :=
  String.concat sep l.

(** [s[:n]] for [n >= 0]. *)
Fixpoint take (n : nat) (s : string) : string :=
  match n, s with
  | S n', String c r => String c (take n' r)
  | _, _ => EmptyString
  end.

Fixpoint strip_prefix (p s : string) : option string :=
  match p, s with
  | EmptyString, _ => Some s
  | String a p', String b s' =>
      if Ascii.eqb a b then strip_prefix p' s' else None
  | String _ _, EmptyString => None
  end.

(** [s.startswith(p)] *)
Definition startswith (s p : string) : bool :=
  match strip_prefix p s with
  | Some _ => true
  | None => false
  end.

(** [s.endswith(p)] *)
Definition endswith (s p : string) : bool :=
  startswith (String.rev s) (String.rev p).

Definition LF : ascii := ascii_of_N 10.
Definition CR : ascii := ascii_of_N 13.

(** Text mode with universal newlines: CR LF and a lone CR are read as LF. *)
Fixpoint universal_newlines (s : string) : string :=
  match s with
  | EmptyString => EmptyString
  | String c r =>
      if Ascii.eqb c CR then
        match r with
        | String d r' =>
            if Ascii.eqb d LF then String LF (universal_newlines r')
            else String LF (universal_newlines r)
        | EmptyString => String LF EmptyString
        end
      else String c (universal_newlines r)
  end.

(** Lines of a text, each with its terminating LF when it has one. *)
Fixpoint split_lines (s : string) : list string :=
  match s with
  | EmptyString => []
  | String c r =>
      if Ascii.eqb c LF then String c EmptyString :: split_lines r
      else match split_lines r with
           | [] => [String c EmptyString]
           | l :: ls => String c l :: ls
           end
  end.

(** [f.readlines()] on the decoded content of a text file. *)
Definition readlines (content : string) : list string :=
  split_lines (universal_newlines content).

End PyStr.

(** ** ScriptParser *)

Inductive Chunk : Type :=
| Dialogue (speaker text : string)
| Sfx (effect : string).

Module ScriptParser.

Definition RBRACKET : ascii := ascii_of_N 93.

(** Splits at the first "]": the text before it and the text after it. *)
Fixpoint until_rbracket (s : string) : option (string * string) :=
  match s with
  | EmptyString => None
  | String c r =>
      if Ascii.eqb c RBRACKET then Some (EmptyString, r)
      else match until_rbracket r with
           | Some (body, rest) => Some (String c body, rest)
           | None => None
           end
  end.

Fixpoint last_char (s : string) : option ascii :=
  match s with
  | EmptyString => None
  | String c EmptyString => Some c
  | String _ r => last_char r
  end.

(** What [\s*([^\]]+)] captures on the text in front of the first "]":
    the greedy [\s*] takes the leading white space and the group the rest;
    when nothing is left, [\s*] gives one character back. *)
Definition capture (body : string) : option string :=
  match PyStr.lstrip body with
  | EmptyString =>
      match last_char body with
      | Some c => Some (String c EmptyString)
      | None => None
      end
  | g => Some g
  end.

(** [re.match(r'\[KEYWORD:\s*([^\]]+)\]', line)], returning [group(1)]. *)
Definition tag_match (keyword line : string) : option string :=
  match PyStr.strip_prefix ("[" +:+ keyword +:+ ":") line with
  | Some rest =>
      match until_rbracket rest with
      | Some (body, _) => capture body
      | None => None
      end
  | None => None
  end.

Definition speaker_match : string -> option string := tag_match "SPEAKER".
Definition sfx_match : string -> option string := tag_match "SFX".

(** The local variables of [parse] while it walks the lines. *)
Record ParseState : Type := mkParseState {
  chunks : list Chunk;
  current_speaker : string;
  buffer : list string
}.

(** [if buffer: chunks.append({dialogue ...}); buffer = []] *)
Definition flush (st : ParseState) : ParseState :=
  match buffer st with
  | [] => st
  | _ :: _ =>
      mkParseState
        (chunks st ++ [Dialogue (current_speaker st) (PyStr.join " " (buffer st))])
        (current_speaker st) []
  end.

(** One iteration of [for line in lines]. *)
Definition parse_line (st : ParseState) (raw : string) : ParseState :=
  let line := PyStr.strip raw in
  match line with
  | EmptyString => st
  | _ =>
      match speaker_match line with
      | Some name =>
          let st' := flush st in
          mkParseState (chunks st') (PyStr.strip name) (buffer st')
      | None =>
          match sfx_match line with
          | Some name =>
              let st' := flush st in
              mkParseState (chunks st' ++ [Sfx (PyStr.strip name)])
                           (current_speaker st') (buffer st')
          | None =>
              mkParseState (chunks st) (current_speaker st) (buffer st ++ [line])
          end
      end
  end.

Definition initial : ParseState := mkParseState [] "Default" [].

Definition parse_lines (lines : list string) : list Chunk :=
  chunks (flush (fold_left parse_line lines initial)).

(** [ScriptParser.parse] on a script file with the given content. *)
Definition parse (content : string) : list Chunk :=
  parse_lines (PyStr.readlines content).

End ScriptParser.

(** ** Python results *)

Inductive Exn : Type :=
| ZeroDivisionError
| IndexError
| TypeError
| KeyError
| ValueError
| RequestException
| CouldntDecodeError.

(** A call returns a value or raises. *)
Inductive PyResult (A : Type) : Type :=
| Returns (a : A)
| Raises (e : Exn).
Arguments Returns {A} a.
Arguments Raises {A} e.

(** ** The audio library at its boundary *)

(** What pydub does to one sample frame of audio.  Segments are taken in
    one format, that of [AudioSegment.silent]: 11025 frames a second, one
    channel, 16 bits.  pydub joins and mixes segments of one format as they
    are; it first converts segments of different formats to a common one
    ([_sync]), which this model does not follow. *)
Class AudioLib : Type := {
  frame : Type;
  (** one frame of silence, [b"\0\0"] *)
  silent_frame : frame;
  (** [audioop.add] on the frames of two segments *)
  mix : frame -> frame -> frame;
  (** [apply_gain(dB)] on one frame *)
  apply_gain : Z -> frame -> frame;
  (** [pydub.effects.normalize] *)
  normalize : list frame -> list frame
}.

Module AudioSegment.
Section Ops.
Context `{AudioLib}.
Local Open Scope Z_scope.

(** The frames of a segment, in order. *)
Definition t : Type := list frame.

(** [frame_rate] of a segment made by [AudioSegment.silent] *)
Definition frame_rate : Z := 11025.

(** [seg.frame_count()] *)
Definition frame_count (seg : t) : Z := Z.of_nat (length seg).

(** Python's [round] on the quotient of [n] by [d > 0]: the nearest
    integer, and of two nearest ones the even one. *)
Definition py_round (n d : Z) : Z :=
  let q := n / d in
  let r := n mod d in
  if 2 * r <? d then q
  else if d <? 2 * r then q + 1
  else if Z.even q then q else q + 1.

(** [len(seg)], in milliseconds:
    [round(1000 * (self.frame_count() / self.frame_rate))] *)
Definition len (seg : t) : Z := py_round (1000 * frame_count seg) frame_rate.

(** [AudioSegment.silent(duration=d)]:
    [int(frame_rate * (duration / 1000.0))] frames of silence.  The number
    is computed exactly here; pydub computes it in double precision. *)
Definition silent (d : Z) : t :=
  replicate (Z.to_nat (Z.quot (frame_rate * d) 1000)) silent_frame.

(** [seg._parse_position(val)]: the frame at [val] milliseconds, counted
    from the end when [val] is negative. *)
Definition parse_position (seg : t) (val : Z) : Z :=
  let val := if val <? 0 then len seg - Z.abs val else val in
  Z.quot (val * frame_rate) 1000.

(** [l[i:j]] on a Python sequence: a negative index counts from the end
    and an index outside the sequence is moved to its nearer end. *)
Definition py_slice {A : Type} (l : list A) (i j : Z) : list A :=
  let n := Z.of_nat (length l) in
  let clip k := if k <? 0 then Z.max 0 (n + k) else Z.min k n in
  take (Z.to_nat (clip j - clip i)) (drop (Z.to_nat (clip i)) l).

(** The frames that [seg[start:stop]] lacks, which [__getitem__] fills
    with silence. *)
Definition missing_frames (seg : t) (start stop : Z) : Z :=
  let start := Z.min start (len seg) in
  let stop := Z.min stop (len seg) in
  let i := parse_position seg start in
  let j := parse_position seg stop in
  (j - i) - Z.of_nat (length (py_slice seg i j)).

(** [seg[start:stop]], [AudioSegment.__getitem__] on a slice: both ends
    are cut to [len(seg)] and turned into frames, and frames that are
    missing at the end are filled in with copies of the first frame
    muted.  pydub raises [TooManyMissingFrames] when more than two
    milliseconds are missing, which does not happen from a [start] that is
    not negative ([missing_frames_small]). *)
Definition getslice (seg : t) (start stop : Z) : t :=
  let start' := Z.min start (len seg) in
  let stop' := Z.min stop (len seg) in
  let data := py_slice seg (parse_position seg start')
                           (parse_position seg stop') in
  match data with
  | [] => []
  | _ :: _ =>
      data ++ replicate (Z.to_nat (missing_frames seg start stop)) silent_frame
  end.

(** [seg[:stop]] *)
Definition slice_to (seg : t) (stop : Z) : t := getslice seg 0 stop.

(** [seg[start:]] *)
Definition slice_from (seg : t) (start : Z) : t := getslice seg start (len seg).

(** [n] copies of [seg] in a row *)
Fixpoint repeat_nat (seg : t) (n : nat) : t :=
  match n with
  | O => []
  | S n' => seg ++ repeat_nat seg n'
  end.

(** [seg * n]; nothing is left when [n] is not positive. *)
Definition mul (seg : t) (n : Z) : t := repeat_nat seg (Z.to_nat n).

(** [seg - dB] *)
Definition sub_gain (seg : t) (dB : Z) : t := map (apply_gain (- dB)) seg.

(** The loop of [overlay] run once: the frames of [seg2] are mixed onto
    the first frames of [seg1], as far as [seg1] goes. *)
Fixpoint mix_onto (seg1 seg2 : t) : t :=
  match seg1, seg2 with
  | [], _ => []
  | _ :: _, [] => seg1
  | a :: seg1', b :: seg2' => mix a b :: mix_onto seg1' seg2'
  end.

(** [seg1.overlay(seg2)], at position 0 and once: [seg2] is mixed onto
    the start of [seg1[0:]]. *)
Definition overlay (seg1 seg2 : t) : t := mix_onto (slice_from seg1 0) seg2.

(** [if seg:] an [AudioSegment] is true when its length is not 0. *)
Definition truthy (seg : t) : bool := negb (len seg =? 0)%Z.

End Ops.
End AudioSegment.

Abbreviation len := AudioSegment.len.
Abbreviation silent := AudioSegment.silent.

(** The frame at which a cut at [ms] milliseconds falls,
    [int(ms * (frame_rate / 1000.0))] for [ms] that is not negative. *)
Definition frame_at (ms : Z) : Z := (ms * AudioSegment.frame_rate / 1000)%Z.

(** ** Duration fitting *)

Section Fitting.
Context `{AudioLib}.
Local Open Scope Z_scope.

(** [SoundEffectsGenerator.generate_sfx], "Adjust duration if needed". *)
Definition fit (sfx : AudioSegment.t) (duration_ms : Z) : PyResult AudioSegment.t :=
  if len sfx >? duration_ms then
    Returns (AudioSegment.slice_to sfx duration_ms)
  else if len sfx <? duration_ms then
    if len sfx =? 0 then Raises ZeroDivisionError
    else
      let repetitions := duration_ms / len sfx + 1 in
      let sfx := AudioSegment.mul sfx repetitions in
      Returns (AudioSegment.slice_to sfx duration_ms)
  else Returns sfx.

(** [SoundEffectsManager.get_sfx_clip] of [podcast_generator.py], from
    "Adjust volume and duration" on, for a clip already loaded. *)
Definition get_sfx_clip_adjust (clip : AudioSegment.t) (duration_ms : Z)
  : PyResult AudioSegment.t :=
  let clip := AudioSegment.sub_gain clip 10 in
  let clip :=
    if negb (duration_ms =? 0) && (len clip >? duration_ms)
    then AudioSegment.slice_to clip duration_ms else clip in
  if negb (duration_ms =? 0) && (len clip <? duration_ms) then
    if len clip =? 0 then Raises ZeroDivisionError
    else
      let repetitions := duration_ms / len clip + 1 in
      let clip := AudioSegment.mul clip repetitions in
      Returns (AudioSegment.slice_to clip duration_ms)
  else Returns clip.

End Fitting.

(** ** Configuration, environment and mutable state *)

(** The settings the classes read from [ConfigManager] at construction,
    with the key list of [ApiKeyManager]. *)
Record Config : Type := mkConfig {
  api_keys : list string;
  retry_failed_calls : bool;
  max_retries : Z;
  retry_delay : Z;
  voice_mapping : gmap string string;
  voice_model : string;
  sfx_prompts : gmap string string;
  default_duration : Z;
  volume_reduction : Z;
  sfx_overlap : bool;
  sfx_model : string;
  silence_between_chunks : Z;
  intro_silence : Z;
  normalize_audio : bool
}.

(** One record of ["calls"] in the credits log. *)
Record UsageRecord : Type := mkUsageRecord {
  timestamp : string;
  operation_type : string;
  character_count : Z;
  credits_used : Z
}.

(** The value stored under one key id in the credits log. *)
Record LedgerEntry : Type := mkLedgerEntry {
  total_credits_used : Z;
  calls : list UsageRecord
}.

(** An outbound request: where it goes, the key it carries, its body. *)
Record Request : Type := mkRequest {
  url : string;
  xi_api_key : string;
  text : string;
  model_id : string
}.

Section State.
Context `{AudioLib}.

(** A response; its content stands for what [AudioSegment.from_mp3] decodes
    from the bytes, [None] when decoding raises. *)
Record Response : Type := mkResponse {
  status_code : Z;
  content : option AudioSegment.t
}.

(** What [requests.post] does: it returns a response or raises. *)
Inductive HttpOutcome : Type :=
| Answered (r : Response)
| Failed.

(** The collaborators outside the program. *)
Record Env : Type := mkEnv {
  (** the answer to the n-th outbound request of the process *)
  http : nat -> Request -> HttpOutcome;
  (** [datetime.now().isoformat()] once n requests have been sent *)
  now : nat -> string;
  (** whether [podcast.export] to this path succeeds *)
  export_ok : string -> AudioSegment.t -> bool
}.

(** Everything the program mutates. *)
Record World : Type := mkWorld {
  current_index : nat;
  credits_log : gmap string LedgerEntry;
  (** content of the credits log file, once written *)
  credits_file : option (gmap string LedgerEntry);
  sfx_cache : gmap string AudioSegment.t;
  (** outbound requests issued so far, oldest first *)
  requests : list Request;
  (** arguments of [time.sleep] so far *)
  sleeps : list Z;
  (** files written by [export], oldest first *)
  exported : list (string * AudioSegment.t)
}.

Definition set_current_index (i : nat) (w : World) : World :=
  mkWorld i (credits_log w) (credits_file w) (sfx_cache w) (requests w)
          (sleeps w) (exported w).

Definition set_credits_log (l : gmap string LedgerEntry) (w : World) : World :=
  mkWorld (current_index w) l (credits_file w) (sfx_cache w) (requests w)
          (sleeps w) (exported w).

Definition set_credits_file (f : option (gmap string LedgerEntry)) (w : World)
  : World :=
  mkWorld (current_index w) (credits_log w) f (sfx_cache w) (requests w)
          (sleeps w) (exported w).

Definition set_sfx_cache (c : gmap string AudioSegment.t) (w : World) : World :=
  mkWorld (current_index w) (credits_log w) (credits_file w) c (requests w)
          (sleeps w) (exported w).

Definition set_requests (r : list Request) (w : World) : World :=
  mkWorld (current_index w) (credits_log w) (credits_file w) (sfx_cache w) r
          (sleeps w) (exported w).

Definition set_sleeps (s : list Z) (w : World) : World :=
  mkWorld (current_index w) (credits_log w) (credits_file w) (sfx_cache w)
          (requests w) s (exported w).

Definition set_exported (e : list (string * AudioSegment.t)) (w : World) : World :=
  mkWorld (current_index w) (credits_log w) (credits_file w) (sfx_cache w)
          (requests w) (sleeps w) e.

(** ** A state monad with a loop budget

    [None] means that a loop of the model ran out of its budget, which the
    termination lemmas below exclude. *)
Definition M (A : Type) : Type := World -> option (A * World).

Definition ret {A} (a : A) : M A := fun w => Some (a, w).

Definition bind {A B} (m : M A) (k : A -> M B) : M B :=
  fun w => match m w with
           | Some (a, w') => k a w'
           | None => None
           end.

(** A step that always terminates. *)
Definition lift {A} (f : World -> A * World) : M A := fun w => Some (f w).

End State.

Declare Scope monad_scope.
Delimit Scope monad_scope with monad.
Notation "x <- m ;; k" := (bind m (fun x => k))
  (at level 100, m at next level, right associativity) : monad_scope.

Definition ELEVENLABS_SPEECH_API_URL : string :=
  "https://api.elevenlabs.io/v1/text-to-speech".

Section Program.
Context `{AudioLib}.
Variable env : Env.
Variable cfg : Config.
Local Open Scope Z_scope.
Local Open Scope monad_scope.

(** ** ApiKeyManager *)

(** [ApiKeyManager.get_next_api_key]; indexing an empty list raises. *)
Definition get_next_api_key (w : World) : PyResult string * World :=
  match api_keys cfg !! current_index w with
  | Some api_key =>
      (Returns api_key,
       set_current_index ((current_index w + 1) mod length (api_keys cfg))%nat w)
  | None => (Raises IndexError, w)
  end.

(** [api_key[:8] + '...'] *)
Definition key_id_of (api_key : string) : string :=
  PyStr.take 8 api_key +:+ "...".

(** The update of the in-memory log made by [log_credit_usage]. *)
Definition ledger_add (log : gmap string LedgerEntry) (key_id : string)
    (rec : UsageRecord) : gmap string LedgerEntry :=
  let log :=
    match log !! key_id with
    | Some _ => log
    | None => <[key_id := mkLedgerEntry 0 []]> log
    end in
  match log !! key_id with
  | Some entry =>
      let entry := mkLedgerEntry (total_credits_used entry + credits_used rec)
                                 (calls entry) in
      let entry := mkLedgerEntry (total_credits_used entry)
                                 (calls entry ++ [rec]) in
      <[key_id := entry]> log
  | None => log
  end.

(** [ApiKeyManager.log_credit_usage]: update the log, then write the file. *)
Definition log_credit_usage (api_key : string) (character_count credits_used : Z)
    (operation_type : string) (w : World) : World :=
  let rec := mkUsageRecord (now env (length (requests w))) operation_type
                           character_count credits_used in
  let log := ledger_add (credits_log w) (key_id_of api_key) rec in
  set_credits_file (Some log) (set_credits_log log w).

(** The result of [make_api_call]: the response, if any, and the key in
    the headers, if any. *)
Definition CallResult : Type := (option Response * option string)%type.

(** [time.sleep(self.retry_delay)]; a negative length raises. *)
Definition sleep (w : World) : PyResult unit * World :=
  if retry_delay cfg <? 0 then (Raises ValueError, w)
  else (Returns tt, set_sleeps (sleeps w ++ [retry_delay cfg]) w).

(** The handler [except Exception] of the loop; [next] is the rest of the
    loop. *)
Definition on_exception
    (next : option string -> Z -> World -> option (PyResult CallResult * World))
    (headers : option string) (current_attempt : Z) (w : World)
  : option (PyResult CallResult * World) :=
  if negb (retry_failed_calls cfg) then Some (Returns (None, headers), w)
  else
    match sleep w with
    | (Returns _, w1) => next headers (current_attempt + 1) w1
    | (Raises e, w1) => Some (Raises e, w1)
    end.

(** [current_attempt += 1; time.sleep(self.retry_delay)] inside the [try],
    then the next round. *)
Definition count_and_sleep
    (next : option string -> Z -> World -> option (PyResult CallResult * World))
    (headers : option string) (current_attempt : Z) (w : World)
  : option (PyResult CallResult * World) :=
  match sleep w with
  | (Returns _, w1) => next headers (current_attempt + 1) w1
  | (Raises _, w1) => on_exception next headers (current_attempt + 1) w1
  end.

(** The [while] loop of [ApiKeyManager.make_api_call].  [headers] is the
    "xi-api-key" entry of the header dictionary. *)
Fixpoint make_api_call_loop (fuel : nat) (url text model : string)
    (headers : option string) (current_attempt : Z) (w : World)
  : option (PyResult CallResult * World) :=
  match fuel with
  | O => None
  | S fuel' =>
    let next := make_api_call_loop fuel' url text model in
    if current_attempt <? max_retries cfg then
      match (match headers with
             | Some api_key => (Returns api_key, w)
             | None => get_next_api_key w
             end) with
      | (Raises _, w1) => on_exception next headers current_attempt w1
      | (Returns api_key, w1) =>
          let headers := Some api_key in
          let req := mkRequest url api_key text model in
          let w2 := set_requests (requests w1 ++ [req]) w1 in
          match http env (length (requests w1)) req with
          | Failed => on_exception next headers current_attempt w2
          | Answered response =>
              if status_code response =? 200 then
                Some (Returns (Some response, headers), w2)
              else if (status_code response =? 429)
                      || (status_code response =? 401) then
                match get_next_api_key w2 with
                | (Returns api_key, w3) =>
                    count_and_sleep next (Some api_key) current_attempt w3
                | (Raises _, w3) =>
                    on_exception next headers current_attempt w3
                end
              else if negb (retry_failed_calls cfg) then
                Some (Returns (None, headers), w2)
              else count_and_sleep next headers current_attempt w2
          end
      end
    else Some (Returns (None, headers), w)
  end.

(** [ApiKeyManager.make_api_call], with a budget of one loop test more
    than [max_retries]. *)
Definition make_api_call (url text model : string) (headers : option string)
  : M (PyResult CallResult) :=
  make_api_call_loop (S (Z.to_nat (max_retries cfg))) url text model headers 0.

(** [if response:] a [requests.Response] is true when its status is below 400. *)
Definition response_ok (r : Response) : bool := status_code r <? 400.

(** The part shared by both synthesizers: charge the call, then decode. *)
Definition charge_and_decode (response : Response) (api_key : option string)
    (chars : Z) (operation_type : string) : M (PyResult AudioSegment.t) :=
  match api_key with
  | None => ret (Raises TypeError)
  | Some api_key =>
      _ <- lift (fun w => (tt, log_credit_usage api_key chars chars operation_type w)) ;;
      match content response with
      | Some audio => ret (Returns audio)
      | None => ret (Raises CouldntDecodeError)
      end
  end.

(** ** SpeechSynthesizer *)

Definition py_len (s : string) : Z := Z.of_nat (String.length s).

(** The voice of a speaker: its own, else that of "default", else Rachel. *)
Definition voice_id_of (speaker : string) : string :=
  let speaker_key := PyStr.lower speaker in
  default (default "21m00Tcm4TlvDq8ikWAM" (voice_mapping cfg !! "default"))
          (voice_mapping cfg !! speaker_key).

(** [f"{ELEVENLABS_SPEECH_API_URL}/{voice_id}"] *)
Definition speech_url (speaker : string) : string :=
  ELEVENLABS_SPEECH_API_URL +:+ "/" +:+ voice_id_of speaker.

(** [SpeechSynthesizer.synthesize] *)
Definition synthesize (text speaker : string) : M (option AudioSegment.t) :=
  match PyStr.strip text with
  | EmptyString => ret None
  | _ =>
      let url := speech_url speaker in
      r <- make_api_call url text (voice_model cfg) None ;;
      match r with
      | Returns (Some response, api_key) =>
          if response_ok response then
            a <- charge_and_decode response api_key (py_len text) "speech_synthesis" ;;
            match a with
            | Returns audio => ret (Some audio)
            | Raises _ => ret None
            end
          else ret None
      | Returns (None, _) => ret None
      | Raises _ => ret None
      end
  end.

(** ** SoundEffectsGenerator *)

(** The address used for effects: the speech service with Rachel's voice. *)
Definition sfx_url : string :=
  ELEVENLABS_SPEECH_API_URL +:+ "/21m00Tcm4TlvDq8ikWAM".

(** [f"[SOUND EFFECT ONLY, NO SPEECH]: {prompt}"] *)
Definition enhanced_prompt_of (prompt : string) : string :=
  "[SOUND EFFECT ONLY, NO SPEECH]: " +:+ prompt.

(** [SoundEffectsGenerator.generate_sfx] *)
Definition generate_sfx (effect_name : string) (duration_ms : option Z)
  : M (option AudioSegment.t) :=
  let duration_ms := default (default_duration cfg) duration_ms in
  let cache_key := effect_name +:+ "_" +:+ pretty duration_ms in
  fun w =>
  match sfx_cache w !! cache_key with
  | Some clip => Some (Some clip, w)
  | None =>
      let effect_key := PyStr.lower effect_name in
      match sfx_prompts cfg !! effect_key with
      | None => Some (None, w)
      | Some prompt =>
          let url := sfx_url in
          let enhanced_prompt := enhanced_prompt_of prompt in
          (r <- make_api_call url enhanced_prompt (sfx_model cfg) None ;;
           match r with
           | Returns (Some response, api_key) =>
               if response_ok response then
                 a <- charge_and_decode response api_key (py_len enhanced_prompt)
                                        "sfx_generation" ;;
                 match a with
                 | Returns sfx =>
                     let sfx := AudioSegment.sub_gain sfx (volume_reduction cfg) in
                     match fit sfx duration_ms with
                     | Returns sfx =>
                         _ <- lift (fun w => (tt, set_sfx_cache (<[cache_key := sfx]> (sfx_cache w)) w)) ;;
                         ret (Some sfx)
                     | Raises _ => ret None
                     end
                 | Raises _ => ret None
                 end
               else ret None
           | Returns (None, _) => ret None
           | Raises _ => ret None
           end) w
      end
  end.

(** ** PodcastGenerator *)

(** [generate], the dialogue branch once [audio] is there. *)
Definition add_dialogue (podcast audio : AudioSegment.t) : AudioSegment.t :=
  (podcast ++ silent 300) ++ audio.

(** [generate], "Determine how to add the sound effect". *)
Definition add_sfx (podcast sfx_clip : AudioSegment.t) : AudioSegment.t :=
  if sfx_overlap cfg && (len podcast >? 2000) then
    let overlap_point := len podcast - 2000 in
    let new_segment := AudioSegment.slice_to podcast overlap_point in
    let overlap_segment := AudioSegment.slice_from podcast overlap_point in
    let sfx_clip :=
      if len sfx_clip >? len overlap_segment
      then AudioSegment.slice_to sfx_clip (len overlap_segment)
      else sfx_clip in
    let overlapped := AudioSegment.overlay overlap_segment sfx_clip in
    new_segment ++ overlapped
  else podcast ++ sfx_clip.

(** The audio of one chunk, [None] when there is none to add. *)
Definition chunk_audio (chunk : Chunk) : M (option AudioSegment.t) :=
  match chunk with
  | Dialogue speaker text => synthesize text speaker
  | Sfx effect => generate_sfx effect None
  end.

(** [if audio:] on what a synthesizer returned. *)
Definition usable (audio : option AudioSegment.t) : option AudioSegment.t :=
  match audio with
  | Some a => if AudioSegment.truthy a then Some a else None
  | None => None
  end.

(** One iteration of [for i, chunk in enumerate(chunks)]. *)
Definition process_chunk (podcast : AudioSegment.t) (chunk : Chunk)
  : M AudioSegment.t :=
  audio <- chunk_audio chunk ;;
  let podcast :=
    match chunk, usable audio with
    | Dialogue _ _, Some audio => add_dialogue podcast audio
    | Sfx _, Some sfx_clip => add_sfx podcast sfx_clip
    | _, None => podcast
    end in
  ret (podcast ++ silent (silence_between_chunks cfg)).

Fixpoint process_chunks (podcast : AudioSegment.t) (chunks : list Chunk)
  : M AudioSegment.t :=
  match chunks with
  | [] => ret podcast
  | chunk :: rest =>
      podcast <- process_chunk podcast chunk ;;
      process_chunks podcast rest
  end.

(** [podcast.export(output_file, ...)] inside its [try]. *)
Definition export (output_file : string) (podcast : AudioSegment.t) : M bool :=
  lift (fun w =>
    if export_ok env output_file podcast
    then (true, set_exported (exported w ++ [(output_file, podcast)]) w)
    else (false, w)).

(** [PodcastGenerator.generate] on a script with the given content. *)
Definition generate (script : string) (output_file : string) : M bool :=
  let chunks := ScriptParser.parse script in
  match chunks with
  | [] => ret false
  | _ :: _ =>
      let podcast := silent (intro_silence cfg) in
      podcast <- process_chunks podcast chunks ;;
      let podcast := if normalize_audio cfg then normalize podcast else podcast in
      export output_file podcast
  end.

End Program.

(** ** The credits log *)

(** Sum of ["credits_used"] over recorded calls. *)
Fixpoint sum_credits (l : list UsageRecord) : Z :=
  match l with
  | [] => 0%Z
  | r :: l' => (credits_used r + sum_credits l')%Z
  end.

(** The running total of an entry is the sum over its calls. *)
Definition entry_consistent (e : LedgerEntry) : Prop :=
  total_credits_used e = sum_credits (calls e).

(** Every entry of the log is consistent. *)
Definition ledger_inv (log : gmap string LedgerEntry) : Prop :=
  map_Forall (fun _ e => entry_consistent e) log.

(** The entry of a key id, an absent one counting as empty. *)
Definition entry_of (log : gmap string LedgerEntry) (key_id : string)
  : LedgerEntry :=
  default (mkLedgerEntry 0 []) (log !! key_id).

(** [ApiKeyManager._load_credits_log] when there is no log file:
    an empty entry for each key. *)
Definition new_credits_log (keys : list string) : gmap string LedgerEntry :=
  list_to_map ((fun key => (key_id_of key, mkLedgerEntry 0 [])) <$> keys).

(** ** Failing calls *)

Section Failures.
Context `{AudioLib}.

(** An attempt fails when the request raises or is answered with a status
    other than 200. *)
Definition is_failure (o : HttpOutcome) : bool :=
  match o with
  | Answered r => negb (status_code r =? 200)%Z
  | Failed => true
  end.

(** A service on which every attempt fails. *)
Definition always_fails (env : Env) : Prop :=
  forall n req, is_failure (http env n req) = true.

(** The cursor points into the key list, as it does from construction on. *)
Definition cursor_valid (cfg : Config) (w : World) : Prop :=
  (current_index w < length (api_keys cfg))%nat.

(** The key an attempt sends: the one in the headers, else the next one of
    the rotation. *)
Definition attempt_key (cfg : Config) (headers : option string) (w : World)
  : option string :=
  match headers with
  | Some api_key => Some api_key
  | None => api_keys cfg !! current_index w
  end.

(** What is to be shown of a run of the retry loop that starts in [w] with
    [left] attempts to go: it ends, it sends at most [left] requests, it
    returns unless the delay is negative, and when retrying is on and every
    attempt fails it sends exactly [left] requests, sleeps after each and
    returns no response. *)
Definition retry_post (env : Env) (cfg : Config) (left : nat) (w : World)
    (run : option (PyResult (option Response * option string) * World))
  : Prop :=
  exists res w' new,
    run = Some (res, w')
    /\ requests w' = requests w ++ new
    /\ (length new <= left)%nat
    /\ ((0 <= retry_delay cfg)%Z ->
        exists r,
          res = Returns r
          /\ (retry_failed_calls cfg = true -> cursor_valid cfg w ->
              always_fails env ->
              length new = left
              /\ fst r = None
              /\ sleeps w' = sleeps w ++ replicate left (retry_delay cfg))).

End Failures.

(** ** Appending an effect, as the specification words it *)

Section EffectGrowth.
Context `{AudioLib}.
Local Open Scope Z_scope.



End EffectGrowth.

(** ** Runs in which chunks fail *)

Section FailingRuns.
Context `{AudioLib}.

(** [w1] differs from [w] at most in the cursor, the requests and the
    sleeps. *)
Definition same_stores (w w1 : World) : Prop :=
  sfx_cache w1 = sfx_cache w
  /\ credits_log w1 = credits_log w
  /\ credits_file w1 = credits_file w
  /\ exported w1 = exported w.

(** What a run of the retry loop from [w] to [w'] with result [res] leaves
    alone and what it can return: a response only with status 200 and
    with the key that was sent, and none when every attempt fails. *)
Definition call_frame (env : Env) (w : World)
    (res : PyResult (option Response * option string)) (w' : World) : Prop :=
  same_stores w w'
  /\ (forall r response, res = Returns r -> fst r = Some response ->
        status_code response = 200%Z /\ exists key, snd r = Some key)
  /\ (always_fails env -> forall r, res = Returns r -> fst r = None).

(** A run over [chunks] from [w] to [w'] in which no chunk yields audio
    that the loop adds. *)
Inductive failing_run (env : Env) (cfg : Config)
  : list Chunk -> World -> World -> Prop :=
| failing_nil w : failing_run env cfg [] w w
| failing_cons chunk rest w audio w1 w2 :
    chunk_audio env cfg chunk w = Some (audio, w1) ->
    usable audio = None ->
    failing_run env cfg rest w1 w2 ->
    failing_run env cfg (chunk :: rest) w w2.

(** The timeline handed to [normalize] and [export]. *)
Definition final_timeline (cfg : Config) (podcast : AudioSegment.t)
  : AudioSegment.t :=
  if normalize_audio cfg then normalize podcast else podcast.

(** The key under which [generate_sfx] caches an effect. *)
Definition cache_key_of (cfg : Config) (effect_name : string)
    (duration_ms : option Z) : string :=
  effect_name +:+ "_" +:+ pretty (default (default_duration cfg) duration_ms).

End FailingRuns.

(** ** Scripts without content *)

(** A raw line that is blank or a speaker tag. *)
Definition blank_or_speaker (raw : string) : bool :=
  match PyStr.strip raw with
  | EmptyString => true
  | line => match ScriptParser.speaker_match line with
            | Some _ => true
            | None => false
            end
  end.

(** ** Invariants of the state *)

Section Invariants.
Context `{AudioLib}.

(** A computation keeps a property of the state. *)
Definition preserves {A : Type} (P : World -> Prop) (m : M A) : Prop :=
  forall w a w', P w -> m w = Some (a, w') -> P w'.

(** The log is consistent and, once written, the file holds all of it. *)
Definition ledger_ok (w : World) : Prop :=
  ledger_inv (credits_log w)
  /\ (forall file, credits_file w = Some file -> file = credits_log w).

End Invariants.

(** ** Repeated issuance of keys *)

Section Issuance.
Context `{AudioLib}.
Variable cfg : Config.

(** What [k] calls of [get_next_api_key] in a row return, oldest first, and
    the state they leave. *)
Fixpoint issue (k : nat) (w : World) : list (PyResult string) * World :=
  match k with
  | O => ([], w)
  | S k' =>
      let (rs, w1) := issue k' w in
      let (r, w2) := get_next_api_key cfg w1 in
      (rs ++ [r], w2)
  end.

Definition is_key (key : string) (r : PyResult string) : bool :=
  match r with
  | Returns k => String.eqb k key
  | Raises _ => false
  end.

(** How often [key] was returned. *)
Fixpoint times_issued (key : string) (rs : list (PyResult string)) : nat :=
  match rs with
  | [] => O
  | r :: rs' => ((if is_key key r then 1 else 0) + times_issued key rs')%nat
  end.

End Issuance.

(** ** The first program, [podcast_generator.py]

    It has no retry loop: every function returns or raises. *)

Module V1.

Definition ELEVENLABS_API_URL : string :=
  "https://api.elevenlabs.io/v1/text-to-speech".

(** One record of the credits log of the first program. *)
Record UsageRecord : Type := mkUsageRecord {
  timestamp : string;
  character_count : Z;
  credits_used : Z
}.

Section Program.
Context `{AudioLib}.

(** The collaborators outside the program. *)
Record Env : Type := mkEnv {
  (** the answer to the n-th outbound request of the process *)
  http : nat -> Request -> HttpOutcome;
  (** [datetime.now().isoformat()] after n requests *)
  now : nat -> string;
  (** whether [podcast.export] to this path succeeds *)
  export_ok : string -> AudioSegment.t -> bool;
  (** [os.listdir(self.sfx_dir)] *)
  sfx_files : list string;
  (** [AudioSegment.from_file] on a file of the effects directory,
      [None] when it raises *)
  load_file : string -> option AudioSegment.t
}.

(** Everything the program mutates. *)
Record World : Type := mkWorld {
  current_index : nat;
  credits_log : gmap string (list UsageRecord);
  credits_file : option (gmap string (list UsageRecord));
  sfx_cache : gmap string AudioSegment.t;
  requests : list Request;
  exported : list (string * AudioSegment.t)
}.

Variable env : Env.
(** [ApiKeyManager.api_keys] and [SpeechSynthesizer.voice_mapping] *)
Variable api_keys : list string.
Variable voice_mapping : gmap string string.
Local Open Scope Z_scope.

(** [ApiKeyManager.get_next_api_key] *)
Definition get_next_api_key (w : World) : PyResult string * World :=
  match api_keys !! current_index w with
  | Some api_key =>
      (Returns api_key,
       mkWorld ((current_index w + 1) mod length api_keys)%nat (credits_log w)
               (credits_file w) (sfx_cache w) (requests w) (exported w))
  | None => (Raises IndexError, w)
  end.

(** [ApiKeyManager.log_credit_usage] *)
Definition log_credit_usage (api_key : string) (character_count credits_used : Z)
    (w : World) : World :=
  let key_id := PyStr.take 8 api_key +:+ "..." in
  let log := credits_log w in
  let log :=
    match log !! key_id with
    | Some _ => log
    | None => <[key_id := []]> log
    end in
  let rec := mkUsageRecord (now env (length (requests w))) character_count
                           credits_used in
  let log := <[key_id := default [] (log !! key_id) ++ [rec]]> log in
  mkWorld (current_index w) log (Some log) (sfx_cache w) (requests w)
          (exported w).

(** [SpeechSynthesizer.synthesize]; the key and the voice are looked up
    before the [try]. *)
Definition synthesize (text speaker : string) (w : World)
  : PyResult (option AudioSegment.t) * World :=
  match PyStr.strip text with
  | EmptyString => (Returns None, w)
  | _ =>
      match get_next_api_key w with
      | (Raises e, w1) => (Raises e, w1)
      | (Returns api_key, w1) =>
          match voice_mapping !! "Default" with
          | None => (Raises KeyError, w1)
          | Some fallback =>
              let voice_id := default fallback (voice_mapping !! speaker) in
              let endpoint := ELEVENLABS_API_URL +:+ "/" +:+ voice_id in
              let req := mkRequest endpoint api_key text "eleven_monolingual_v1" in
              let w2 := mkWorld (current_index w1) (credits_log w1)
                                (credits_file w1) (sfx_cache w1)
                                (requests w1 ++ [req]) (exported w1) in
              match http env (length (requests w1)) req with
              | Answered response =>
                  if status_code response =? 200 then
                    let w3 := log_credit_usage api_key (py_len text)
                                               (py_len text) w2 in
                    match content response with
                    | Some audio => (Returns (Some audio), w3)
                    | None => (Returns None, w3)
                    end
                  else (Returns None, w2)
              | Failed => (Returns None, w2)
              end
          end
      end
  end.

(** The files of the effects directory that match an effect name. *)
Definition effect_files (effect_name : string) : list string :=
  List.filter
    (fun f => PyStr.startswith (PyStr.lower f) (PyStr.lower effect_name)
              && (PyStr.endswith (PyStr.lower f) ".mp3"
                  || PyStr.endswith (PyStr.lower f) ".wav"))
    (sfx_files env).

(** [SoundEffectsManager.get_sfx_clip] *)
Definition get_sfx_clip (effect_name : string) (duration_ms : Z) (w : World)
  : PyResult (option AudioSegment.t) * World :=
  let loaded :=
    match sfx_cache w !! effect_name with
    | Some clip => Some (clip, w)
    | None =>
        match effect_files effect_name with
        | [] => None
        | file :: _ =>
            match load_file env file with
            | Some clip =>
                Some (clip,
                      mkWorld (current_index w) (credits_log w) (credits_file w)
                              (<[effect_name := clip]> (sfx_cache w))
                              (requests w) (exported w))
            | None => None
            end
        end
    end in
  match loaded with
  | None => (Returns None, w)
  | Some (clip, w1) =>
      match get_sfx_clip_adjust clip duration_ms with
      | Returns clip => (Returns (Some clip), w1)
      | Raises e => (Raises e, w1)
      end
  end.

(** [generate], the overlap branch and its alternative. *)
Definition add_sfx (podcast sfx_clip : AudioSegment.t) : AudioSegment.t :=
  if len podcast >? 2000 then
    let overlay_point := len podcast - 2000 in
    let new_segment := AudioSegment.slice_to podcast overlay_point in
    let overlap_segment := AudioSegment.slice_from podcast overlay_point in
    let sfx_clip :=
      if len sfx_clip >? len overlap_segment
      then AudioSegment.slice_to sfx_clip (len overlap_segment)
      else sfx_clip in
    let overlapped := AudioSegment.overlay overlap_segment sfx_clip in
    new_segment ++ overlapped
  else podcast ++ sfx_clip.

(** The audio of one chunk. *)
Definition chunk_audio (chunk : Chunk) (w : World)
  : PyResult (option AudioSegment.t) * World :=
  match chunk with
  | Dialogue speaker text => synthesize text speaker w
  | Sfx effect => get_sfx_clip effect 3000 w
  end.

(** [if audio:] on what was returned. *)
Definition usable (audio : option AudioSegment.t) : option AudioSegment.t :=
  match audio with
  | Some a => if AudioSegment.truthy a then Some a else None
  | None => None
  end.

(** One iteration of [for i, chunk in enumerate(chunks)]. *)
Definition process_chunk (podcast : AudioSegment.t) (chunk : Chunk) (w : World)
  : PyResult AudioSegment.t * World :=
  match chunk_audio chunk w with
  | (Raises e, w1) => (Raises e, w1)
  | (Returns audio, w1) =>
      let podcast :=
        match chunk, usable audio with
        | Dialogue _ _, Some audio => (podcast ++ silent 300) ++ audio
        | Sfx _, Some sfx_clip => add_sfx podcast sfx_clip
        | _, None => podcast
        end in
      (Returns (podcast ++ silent 200), w1)
  end.

Fixpoint process_chunks (podcast : AudioSegment.t) (chunks : list Chunk)
    (w : World) : PyResult AudioSegment.t * World :=
  match chunks with
  | [] => (Returns podcast, w)
  | chunk :: rest =>
      match process_chunk podcast chunk w with
      | (Raises e, w1) => (Raises e, w1)
      | (Returns podcast, w1) => process_chunks podcast rest w1
      end
  end.

(** [PodcastGenerator.generate] on a script with the given content. *)
Definition generate (script output_file : string) (w : World)
  : PyResult bool * World :=
  match ScriptParser.parse script with
  | [] => (Returns false, w)
  | chunks =>
      match process_chunks (silent 500) chunks w with
      | (Raises e, w1) => (Raises e, w1)
      | (Returns podcast, w1) =>
          let podcast := normalize podcast in
          if export_ok env output_file podcast
          then (Returns true,
                mkWorld (current_index w1) (credits_log w1) (credits_file w1)
                        (sfx_cache w1) (requests w1)
                        (exported w1 ++ [(output_file, podcast)]))
          else (Returns false, w1)
      end
  end.

(** A run over [chunks] from [w] to [w'] in which no chunk yields audio
    that the loop adds. *)
Inductive failing_run : list Chunk -> World -> World -> Prop :=
| failing_nil w : failing_run [] w w
| failing_cons chunk rest w audio w1 w2 :
    chunk_audio chunk w = (Returns audio, w1) ->
    usable audio = None ->
    failing_run rest w1 w2 ->
    failing_run (chunk :: rest) w w2.

(** Every request fails. *)
Definition always_fails : Prop :=
  forall n req, is_failure (http env n req) = true.

End Program.
End V1.

(** ** A concrete audio library to run the model on

    Frames are 16-bit samples: mixing adds and saturates, a gain of [g] dB
    halves or doubles the sample once per 6 dB, normalising does nothing.
    The sample clips are given by their duration in milliseconds. *)

Definition clamp16 (x : Z) : Z := Z.max (-32768) (Z.min 32767 x).

#[local] Instance IntAudio : AudioLib := {|
  frame := Z;
  silent_frame := 0%Z;
  mix := fun a b => clamp16 (a + b);
  apply_gain := fun g x =>
    if (g <? 0)%Z then (x / 2 ^ ((- g) / 6))%Z else clamp16 (x * 2 ^ (g / 6));
  normalize := fun l => l
|}.

Definition nl : string := String PyStr.LF EmptyString.

Definition script_example : string :=
  "[SPEAKER: A]" +:+ nl +:+ "Hello" +:+ nl +:+ "[SFX: door]" +:+ nl +:+ "World".

(** The frames of [ms] whole milliseconds at the frame rate of the model. *)
Definition frames_of_ms (ms : nat) : nat :=
  Z.to_nat (Z.of_nat ms * AudioSegment.frame_rate / 1000).

(** [n] frames that count up from [from]. *)
Fixpoint ramp (from : Z) (n : nat) : @AudioSegment.t IntAudio :=
  match n with
  | O => []
  | S n' => from :: ramp (from + 1) n'
  end.

Definition clip_1000 : @AudioSegment.t IntAudio := ramp 0 (frames_of_ms 1000).
Definition clip_4000 : @AudioSegment.t IntAudio := ramp 0 (frames_of_ms 4000).
Definition clip_empty : @AudioSegment.t IntAudio := [].

(** A clip of 3005 frames, 272.56 ms, which [len] counts as 273 ms. *)
Definition clip_273 : @AudioSegment.t IntAudio := ramp 0 3005.

(** ** Sample settings and states *)

Definition sample_config : Config := {|
  api_keys := ["sk-alpha-0001"; "sk-bravo-0002"; "sk-charlie-0003"];
  retry_failed_calls := true;
  max_retries := 3;
  retry_delay := 2;
  voice_mapping := {[ "default" := "21m00Tcm4TlvDq8ikWAM";
                      "bhaskar" := "ErXwobaYiN019PkySvjV" ]};
  voice_model := "eleven_monolingual_v1";
  sfx_prompts := {[ "door" := "Old wooden door creaking open";
                    "thunder" := "Loud rumbling thunder during a storm" ]};
  default_duration := 3000;
  volume_reduction := 10;
  sfx_overlap := true;
  sfx_model := "eleven_multilingual_v2";
  silence_between_chunks := 200;
  intro_silence := 500;
  normalize_audio := true
|}.

(** A clip of [ms] milliseconds, all frames loud enough to be heard. *)
Definition tone (ms : nat) : @AudioSegment.t IntAudio :=
  replicate (frames_of_ms ms) 1000%Z.

(** A service that answers every request with two seconds of audio. *)
Definition sample_env : @Env IntAudio := {|
  http := fun _ _ => Answered (mkResponse 200 (Some (tone 2000)));
  now := fun n => "2024-01-01T00:00:" +:+ pretty n;
  export_ok := fun _ _ => true
|}.

(** A service that refuses every request with the given status. *)
Definition refusing_env (status : Z) : @Env IntAudio := {|
  http := fun _ _ => Answered (mkResponse status None);
  now := fun n => "2024-01-01T00:00:" +:+ pretty n;
  export_ok := fun _ _ => true
|}.

(** A network that is down: every request raises. *)
Definition offline_env : @Env IntAudio := {|
  http := fun _ _ => Failed;
  now := fun n => "2024-01-01T00:00:" +:+ pretty n;
  export_ok := fun _ _ => true
|}.


(** A service whose audio decodes to an empty clip. *)
Definition empty_audio_env : @Env IntAudio := {|
  http := fun _ _ => Answered (mkResponse 200 (Some []));
  now := fun n => "2024-01-01T00:00:" +:+ pretty n;
  export_ok := fun _ _ => true
|}.

(** The sample settings with a negative retry delay. *)
Definition negative_delay_config : Config := {|
  api_keys := api_keys sample_config;
  retry_failed_calls := true;
  max_retries := 3;
  retry_delay := -1;
  voice_mapping := voice_mapping sample_config;
  voice_model := voice_model sample_config;
  sfx_prompts := sfx_prompts sample_config;
  default_duration := 3000;
  volume_reduction := 10;
  sfx_overlap := true;
  sfx_model := sfx_model sample_config;
  silence_between_chunks := 200;
  intro_silence := 500;
  normalize_audio := true
|}.

Definition empty_world : @World IntAudio :=
  mkWorld 0 ∅ None ∅ [] [] [].

Definition blank_script : string := nl +:+ "   " +:+ nl +:+ nl.

Definition tags_only_script : string :=
  "[SPEAKER: A]" +:+ nl +:+ "[SPEAKER: B]" +:+ nl.

Definition failing_script : string :=
  "[SPEAKER: A]" +:+ nl +:+ "Hello" +:+ nl +:+ "[SFX: door]" +:+ nl
  +:+ "[SFX: spaceship]" +:+ nl +:+ "World".

(** The first program offline, with an empty effects directory. *)
Definition v1_offline_env : @V1.Env IntAudio := {|
  V1.http := fun _ _ => Failed;
  V1.now := fun n => "2024-01-01T00:00:" +:+ pretty n;
  V1.export_ok := fun _ _ => true;
  V1.sfx_files := [];
  V1.load_file := fun _ => None
|}.

(** The first program with an effect file that decodes to an empty clip. *)
Definition v1_empty_effect_env : @V1.Env IntAudio := {|
  V1.http := fun _ _ => Failed;
  V1.now := fun n => "2024-01-01T00:00:" +:+ pretty n;
  V1.export_ok := fun _ _ => true;
  V1.sfx_files := ["Door.mp3"];
  V1.load_file := fun _ => Some []
|}.

Definition v1_voices : gmap string string :=
  {[ "Bhaskar" := "ErXwobaYiN019PkySvjV";
     "Mishra" := "VR6AewLTigWG4xSOukaG";
     "Default" := "21m00Tcm4TlvDq8ikWAM" ]}.

Definition v1_empty_world : @V1.World IntAudio :=
  V1.mkWorld 0 ∅ None ∅ [] [].

(** * Further definitions *)

(** ** Lines and text of a script *)

(** Some character of the string is not white space. *)
Fixpoint has_nonspace (s : string) : bool :=
  match s with
  | EmptyString => false
  | String c r => negb (PyStr.is_space c) || has_nonspace r
  end.

(** A raw line that is a speaker tag or an effect tag. *)
Definition is_tag (raw : string) : bool :=
  match ScriptParser.speaker_match (PyStr.strip raw),
        ScriptParser.sfx_match (PyStr.strip raw) with
  | None, None => false
  | _, _ => true
  end.

(** The lines of a script as [parse] buffers them: stripped, without the
    blank ones. *)
Definition text_lines (lines : list string) : list string :=
  List.filter (fun line => negb (String.eqb line EmptyString))
              (map PyStr.strip lines).

Definition untagged_script : string :=
  "  Once upon a time  " +:+ nl +:+ nl +:+ "there was a [SFX: door] in a wall.".

(** ** Construction of the key manager *)

(** [s.split(sep)] for a separator of one character. *)
Fixpoint split_on (sep : ascii) (s : string) : list string :=
  match s with
  | EmptyString => [EmptyString]
  | String c r =>
      if Ascii.eqb c sep then EmptyString :: split_on sep r
      else match split_on sep r with
           | x :: xs => String c x :: xs
           | [] => [String c EmptyString]
           end
  end.

Definition COMMA : ascii := ascii_of_N 44.

(** [main]: [args.keys.split(",") if args.keys else None] *)
Definition keys_argument (keys : option string) : option (list string) :=
  match keys with
  | Some (String c r) => Some (split_on COMMA (String c r))
  | _ => None
  end.

(** [ApiKeyManager.__init__], the choice of the key list: the argument
    when it is a non-empty list, else the stripped parts of the environment
    variable when it is set and not empty, else no key. *)
Definition select_keys (api_keys : option (list string))
    (ELEVENLABS_API_KEYS : option string) : list string :=
  match api_keys with
  | Some (key :: more) => key :: more
  | _ =>
      match ELEVENLABS_API_KEYS with
      | Some (String c r) => map PyStr.strip (split_on COMMA (String c r))
      | _ => []
      end
  end.

(** The credits log file when the manager starts: absent, not JSON, or a
    log as the program writes it. *)
Inductive LogFile : Type :=
| NoLogFile
| CorruptLogFile
| StoredLog (log : gmap string LedgerEntry).

(** [ApiKeyManager._load_credits_log] *)
Definition load_credits_log (file : LogFile) (keys : list string)
  : gmap string LedgerEntry :=
  match file with
  | StoredLog log => log
  | NoLogFile | CorruptLogFile => new_credits_log keys
  end.

Section Construction.
Context `{AudioLib}.

(** The state of a process that has just built its manager. *)
Definition initial_world (file : LogFile) (keys : list string) : World :=
  mkWorld 0 (load_credits_log file keys)
          (match file with StoredLog log => Some log | _ => None end)
          ∅ [] [] [].

(** [ApiKeyManager.__init__]: the key list and the first state, or
    [ValueError] when there is no key. *)
Definition init_manager (api_keys : option (list string))
    (ELEVENLABS_API_KEYS : option string) (file : LogFile)
  : PyResult (list string * World) :=
  let keys := select_keys api_keys ELEVENLABS_API_KEYS in
  let w := initial_world file keys in
  match keys with
  | [] => Raises ValueError
  | _ :: _ => Returns (keys, w)
  end.

(** A property of the state that no single step of the program breaks. *)
Definition stable (env : Env) (cfg : Config) (P : World -> Prop) : Prop :=
  (forall w, P w -> P (snd (get_next_api_key cfg w)))
  /\ (forall w r, P w -> P (set_requests r w))
  /\ (forall w s, P w -> P (set_sleeps s w))
  /\ (forall w key chars credits operation,
        P w -> P (log_credit_usage env key chars credits operation w))
  /\ (forall w c, P w -> P (set_sfx_cache c w))
  /\ (forall w e, P w -> P (set_exported e w)).

End Construction.

(** ** Kinds of failed attempts and the keys of a call *)

Section CallKinds.
Context `{AudioLib}.

(** The service blames the key: status 429 or 401. *)
Definition key_failure (o : HttpOutcome) : bool :=
  match o with
  | Answered r => ((status_code r =? 429) || (status_code r =? 401))%Z
  | Failed => false
  end.

(** Any other failure: an exception, or a status that is none of 200, 429
    and 401. *)
Definition plain_failure (o : HttpOutcome) : bool :=
  match o with
  | Answered r =>
      (negb (status_code r =? 200) && negb (status_code r =? 429)
       && negb (status_code r =? 401))%Z
  | Failed => true
  end.

(** The key of the next attempt and the cursor once it is chosen. *)
Definition key_and_cursor (cfg : Config) (headers : option string) (w : World)
  : option (string * nat) :=
  match headers with
  | Some api_key => Some (api_key, current_index w)
  | None =>
      match api_keys cfg !! current_index w with
      | Some api_key =>
          Some (api_key, ((current_index w + 1) mod length (api_keys cfg))%nat)
      | None => None
      end
  end.

End CallKinds.

(** The keys that [k] issuances hand out from cursor [c], in order. *)
Definition rotation (cfg : Config) (c k : nat) : list string :=
  omap (fun i => api_keys cfg !! ((c + i) mod length (api_keys cfg))%nat)
       (seq 0 k).

Definition flaky_env (good_from : nat) : @Env IntAudio := {|
  http := fun n _ =>
    if (n <? good_from)%nat then Answered (mkResponse 503 None)
    else Answered (mkResponse 200 (Some (tone 2000)));
  now := fun n => "2024-01-01T00:00:" +:+ pretty n;
  export_ok := fun _ _ => true
|}.

(** The sample settings with retrying switched off. *)
Definition no_retry_config : Config := {|
  api_keys := api_keys sample_config;
  retry_failed_calls := false;
  max_retries := 3;
  retry_delay := 2;
  voice_mapping := voice_mapping sample_config;
  voice_model := voice_model sample_config;
  sfx_prompts := sfx_prompts sample_config;
  default_duration := 3000;
  volume_reduction := 10;
  sfx_overlap := true;
  sfx_model := sfx_model sample_config;
  silence_between_chunks := 200;
  intro_silence := 500;
  normalize_audio := true
|}.

(** ** The effect cache *)

Section Cache.
Context `{AudioLib}.

(** No cached clip lasts longer than the default effect duration. *)
Definition cache_fitted (cfg : Config) (w : World) : Prop :=
  forall key clip, sfx_cache w !! key = Some clip ->
                   (len clip <= default_duration cfg)%Z.

(** No entry of the cache of [w] is lost or changed in [w']. *)
Definition cache_kept (w w' : World) : Prop :=
  forall key clip, sfx_cache w !! key = Some clip ->
                   sfx_cache w' !! key = Some clip.

End Cache.


(** ** The timeline *)

Section Timeline.
Context `{AudioLib}.

(** The part of a timeline that is older than two seconds, which is where
    [generate] starts to mix an effect in. *)
Definition settled (podcast : AudioSegment.t) : AudioSegment.t :=
  take (Z.to_nat (frame_at (len podcast - 2000))) podcast.

End Timeline.

(** ** Requests of a run *)

Section Traffic.
Context `{AudioLib}.

(** The requests of [w'] are those of [w] and at most [n] more. *)
Definition sent_at_most (n : nat) (w w' : World) : Prop :=
  exists new, requests w' = requests w ++ new /\ (length new <= n)%nat.

End Traffic.

(** ** Growth of the credits log *)

Section LedgerGrowth.
Context `{AudioLib}.

(** Every entry of [log0] is still in the log of [w], with the same
    recorded calls in front of any later ones. *)
Definition records_kept (log0 : gmap string LedgerEntry) (w : World) : Prop :=
  forall key_id entry0,
    log0 !! key_id = Some entry0 ->
    exists entry later,
      credits_log w !! key_id = Some entry
      /\ calls entry = calls entry0 ++ later.

End LedgerGrowth.

(** The empty state after one charge of five credits to the first key. *)
Definition charged_world : @World IntAudio :=
  log_credit_usage sample_env "sk-alpha-0001" 5 5 "speech_synthesis" empty_world.

(** ** What a script line is to the parser *)

(** The four things [parse] can take a line for, in the order in which it
    tests them; a tag carries its stripped name and a line of text its
    stripped text. *)
Inductive LineKind : Type :=
| Blank
| SpeakerTag (name : string)
| EffectTag (name : string)
| TextLine (line : string).

Definition classify (raw : string) : LineKind :=
  let line := PyStr.strip raw in
  match line with
  | EmptyString => Blank
  | _ =>
      match ScriptParser.speaker_match line with
      | Some name => SpeakerTag (PyStr.strip name)
      | None =>
          match ScriptParser.sfx_match line with
          | Some name => EffectTag (PyStr.strip name)
          | None => TextLine line
          end
      end
  end.

Definition effect_lines (lines : list string) : list string :=
  omap (fun raw => match classify raw with
                   | EffectTag name => Some name
                   | _ => None
                   end) lines.

Definition spoken_lines (lines : list string) : list string :=
  omap (fun raw => match classify raw with
                   | TextLine line => Some line
                   | _ => None
                   end) lines.

Definition speaker_names (lines : list string) : list string :=
  omap (fun raw => match classify raw with
                   | SpeakerTag name => Some name
                   | _ => None
                   end) lines.

(** The effects and the dialogue texts of a list of chunks, in order. *)
Definition effects_of (chunks : list Chunk) : list string :=
  omap (fun chunk => match chunk with
                     | Sfx effect => Some effect
                     | Dialogue _ _ => None
                     end) chunks.

Definition texts_of (chunks : list Chunk) : list string :=
  omap (fun chunk => match chunk with
                     | Dialogue _ text => Some text
                     | Sfx _ => None
                     end) chunks.

(** The chunks and the buffer of a parser state hold the text lines [all]:
    the dialogue texts are blocks of them joined by spaces, in order, and
    the buffer holds the rest. *)
Definition holds_lines (st : ScriptParser.ParseState) (all : list string)
  : Prop :=
  exists blocks : list (list string),
    Forall (fun block => block <> []) blocks
    /\ texts_of (ScriptParser.chunks st) = map (PyStr.join " ") blocks
    /\ concat blocks ++ ScriptParser.buffer st = all.

(** The speakers of a parser state are "Default" or among [names]. *)
Definition speakers_among (st : ScriptParser.ParseState) (names : list string)
  : Prop :=
  (ScriptParser.current_speaker st = "Default"
   \/ In (ScriptParser.current_speaker st) names)
  /\ forall speaker text,
       In (Dialogue speaker text) (ScriptParser.chunks st) ->
       speaker = "Default" \/ In speaker names.

Definition tagged_script : string :=
  "intro" +:+ nl +:+ "[SFX: rain ]" +:+ nl +:+ "[SPEAKER: Ann]" +:+ nl
  +:+ "Hello" +:+ nl +:+ "  there  " +:+ nl +:+ "[SFX: door]" +:+ nl +:+ "Bye".

(** ** The first program: keys and effect files *)

(** The keys that [k] calls of [get_next_api_key] in a row return from
    cursor [c] on a key list. *)
Definition keys_in_turn (keys : list string) (c k : nat) : list string :=
  omap (fun i => keys !! ((c + i) mod length keys)%nat) (seq 0 k).

(** The first program offline, with one effect file of one second. *)
Definition v1_door_env : @V1.Env IntAudio := {|
  V1.http := fun _ _ => Failed;
  V1.now := fun n => "2024-01-01T00:00:" +:+ pretty n;
  V1.export_ok := fun _ _ => true;
  V1.sfx_files := ["Door.mp3"];
  V1.load_file := fun _ => Some (tone 1000)
|}.

Definition v1_keys : list string := ["sk-alpha-0001"; "sk-bravo-0002"].

Definition v1_chunks : list Chunk :=
  [Dialogue "A" "Hello"; Sfx "spaceship"; Dialogue "B" "World";
   Dialogue "A" "Bye"].
(** * Properties *)

(** ** Script parsing *)

Example parse_example_lines :
  PyStr.readlines script_example
  = ["[SPEAKER: A]" +:+ nl; "Hello" +:+ nl; "[SFX: door]" +:+ nl; "World"].
Proof. reflexivity. Qed.

Example tag_match_blank_name :
  ScriptParser.speaker_match "[SPEAKER:  ]" = Some " ".
Proof. reflexivity. Qed.

Example tag_match_mid_line :
  ScriptParser.sfx_match "rain [SFX: door]" = None.
Proof. reflexivity. Qed.

Lemma tag_match_nonempty keyword line name :
  ScriptParser.tag_match keyword line = Some name -> line <> EmptyString.
Proof.
  intros Hm ->. unfold ScriptParser.tag_match in Hm. simpl in Hm. discriminate.
Qed.

Lemma flush_empty st :
  ScriptParser.buffer st = [] -> ScriptParser.flush st = st.
Proof. unfold ScriptParser.flush. intros ->. reflexivity. Qed.

Lemma flush_buffer st : ScriptParser.buffer (ScriptParser.flush st) = [].
Proof. unfold ScriptParser.flush. destruct (ScriptParser.buffer st) eqn:E; auto. Qed.

Lemma flush_speaker st :
  ScriptParser.current_speaker (ScriptParser.flush st)
  = ScriptParser.current_speaker st.
Proof. unfold ScriptParser.flush. destruct (ScriptParser.buffer st); auto. Qed.

Lemma flush_chunks st :
  ScriptParser.chunks (ScriptParser.flush st)
  = ScriptParser.chunks st ++
    match ScriptParser.buffer st with
    | [] => []
    | _ :: _ => [Dialogue (ScriptParser.current_speaker st)
                          (PyStr.join " " (ScriptParser.buffer st))]
    end.
Proof.
  unfold ScriptParser.flush.
  destruct (ScriptParser.buffer st); simpl; [|reflexivity].
  symmetry. apply app_nil_r.
Qed.

(** C5. [parse] on the four-line example script returns the dialogue
    "Hello" of speaker A, the effect "door" and the dialogue "World" of
    speaker A.  In general a line that is a speaker tag flushes the buffer
    as a dialogue of the previous speaker, changes the speaker and adds no
    chunk of its own; an effect tag flushes the buffer and adds the effect
    chunk at once; what is left in the buffer after the last line becomes a
    final dialogue chunk. *)
Theorem parse_example_and_rules :
  ScriptParser.parse script_example
  = [Dialogue "A" "Hello"; Sfx "door"; Dialogue "A" "World"]
  /\ (forall st raw name,
        ScriptParser.speaker_match (PyStr.strip raw) = Some name ->
        ScriptParser.parse_line st raw
        = ScriptParser.mkParseState
            (ScriptParser.chunks st ++
             match ScriptParser.buffer st with
             | [] => []
             | _ :: _ => [Dialogue (ScriptParser.current_speaker st)
                                   (PyStr.join " " (ScriptParser.buffer st))]
             end)
            (PyStr.strip name) [])
  /\ (forall st raw name,
        ScriptParser.speaker_match (PyStr.strip raw) = None ->
        ScriptParser.sfx_match (PyStr.strip raw) = Some name ->
        ScriptParser.parse_line st raw
        = ScriptParser.mkParseState
            ((ScriptParser.chunks st ++
              match ScriptParser.buffer st with
              | [] => []
              | _ :: _ => [Dialogue (ScriptParser.current_speaker st)
                                    (PyStr.join " " (ScriptParser.buffer st))]
              end) ++ [Sfx (PyStr.strip name)])
            (ScriptParser.current_speaker st) [])
  /\ (forall lines,
        let st := fold_left ScriptParser.parse_line lines ScriptParser.initial in
        ScriptParser.parse_lines lines
        = ScriptParser.chunks st ++
          match ScriptParser.buffer st with
          | [] => []
          | _ :: _ => [Dialogue (ScriptParser.current_speaker st)
                                (PyStr.join " " (ScriptParser.buffer st))]
          end).
Proof.
  split; [reflexivity|]. split; [|split].
  - intros st raw name Hm. unfold ScriptParser.parse_line.
    pose proof (tag_match_nonempty _ _ _ Hm) as Hne.
    destruct (PyStr.strip raw) eqn:E; [congruence|].
    rewrite Hm, flush_chunks, flush_buffer. reflexivity.
  - intros st raw name Hs Hm. unfold ScriptParser.parse_line.
    pose proof (tag_match_nonempty _ _ _ Hm) as Hne.
    destruct (PyStr.strip raw) eqn:E; [congruence|].
    rewrite Hs, Hm, flush_chunks, flush_buffer, flush_speaker. reflexivity.
  - intros lines st. unfold ScriptParser.parse_lines. apply flush_chunks.
Qed.

Lemma parse_example_and_rules_witness :
  ScriptParser.parse_line
    (ScriptParser.mkParseState [] "A" ["Hello"; "there"]) " [SPEAKER: B ]  "
  = ScriptParser.mkParseState [Dialogue "A" "Hello there"] "B" [].
Proof.
  exact (proj1 (proj2 parse_example_and_rules)
           (ScriptParser.mkParseState [] "A" ["Hello"; "there"])
           " [SPEAKER: B ]  " "B " eq_refl).
Defined.

(** ** Lengths in milliseconds *)

Section LengthFacts.
Context `{AudioLib}.
Local Open Scope Z_scope.

Lemma py_round_spec n d :
  0 < d ->
  d * (2 * AudioSegment.py_round n d - 1) <= 2 * n
  /\ 2 * n <= d * (2 * AudioSegment.py_round n d + 1).
Proof.
  intros Hd. unfold AudioSegment.py_round. cbv zeta.
  pose proof (Z.div_mod n d ltac:(lia)) as Hdm.
  pose proof (Z.mod_pos_bound n d Hd) as Hb.
  destruct (Z.ltb_spec (2 * (n mod d)) d);
    [nia|destruct (Z.ltb_spec d (2 * (n mod d))); [nia|]].
  destruct (Z.even (n / d)); nia.
Qed.

Lemma py_round_unique n d k :
  0 < d -> d * (2 * k - 1) < 2 * n -> 2 * n < d * (2 * k + 1) ->
  AudioSegment.py_round n d = k.
Proof.
  intros Hd Hlo Hhi. destruct (py_round_spec n d Hd) as [H1 H2]. nia.
Qed.

Lemma py_round_mono n m d :
  0 < d -> n <= m -> AudioSegment.py_round n d <= AudioSegment.py_round m d.
Proof.
  intros Hd Hnm. destruct (Z.eq_dec n m) as [->|Hne]; [lia|].
  destruct (py_round_spec n d Hd) as [H1 _].
  destruct (py_round_spec m d Hd) as [_ H2]. nia.
Qed.

Lemma py_round_nonneg n d : 0 < d -> 0 <= n -> 0 <= AudioSegment.py_round n d.
Proof. intros Hd Hn. destruct (py_round_spec n d Hd) as [_ H2]. nia. Qed.

Lemma len_nonneg (seg : AudioSegment.t) : 0 <= len seg.
Proof.
  unfold AudioSegment.len, AudioSegment.frame_count, AudioSegment.frame_rate.
  apply py_round_nonneg; lia.
Qed.

(** A length is the frame count in milliseconds to within half a
    millisecond; at 11025 frames a second a half is never hit. *)
Lemma len_bounds (seg : AudioSegment.t) :
  11025 * (2 * len seg - 1) < 2000 * AudioSegment.frame_count seg
  /\ 2000 * AudioSegment.frame_count seg < 11025 * (2 * len seg + 1).
Proof.
  unfold AudioSegment.len, AudioSegment.frame_rate.
  destruct (py_round_spec (1000 * AudioSegment.frame_count seg) 11025 ltac:(lia))
    as [H1 H2].
  split; lia.
Qed.

Lemma len_of_frames (seg : AudioSegment.t) k :
  11025 * (2 * k - 1) < 2000 * AudioSegment.frame_count seg ->
  2000 * AudioSegment.frame_count seg < 11025 * (2 * k + 1) ->
  len seg = k.
Proof.
  intros Hlo Hhi. unfold AudioSegment.len, AudioSegment.frame_rate.
  apply py_round_unique; lia.
Qed.

Lemma len_mono (a b : AudioSegment.t) :
  (length a <= length b)%nat -> len a <= len b.
Proof.
  intros Hab. unfold AudioSegment.len, AudioSegment.frame_count,
    AudioSegment.frame_rate.
  apply py_round_mono; lia.
Qed.

Lemma len_same_frames (a b : AudioSegment.t) :
  length a = length b -> len a = len b.
Proof.
  intros Hab. unfold AudioSegment.len, AudioSegment.frame_count. rewrite Hab.
  reflexivity.
Qed.

Lemma len_nil : len (@nil frame) = 0.
Proof. reflexivity. Qed.

End LengthFacts.

(** ** Slices *)

Section SliceFacts.
Context `{AudioLib}.
Local Open Scope Z_scope.

Lemma parse_position_nonneg (seg : AudioSegment.t) val :
  0 <= val -> AudioSegment.parse_position seg val = frame_at val.
Proof.
  intros Hv. unfold AudioSegment.parse_position, frame_at, AudioSegment.frame_rate.
  destruct (Z.ltb_spec val 0); [lia|]. apply Z.quot_div_nonneg; lia.
Qed.

Lemma frame_at_mono a b : a <= b -> frame_at a <= frame_at b.
Proof. intros Hab. unfold frame_at, AudioSegment.frame_rate. apply Z.div_le_mono; lia. Qed.

Lemma frame_at_nonneg a : 0 <= a -> 0 <= frame_at a.
Proof. intros Ha. unfold frame_at, AudioSegment.frame_rate. apply Z.div_pos; lia. Qed.

Lemma frame_at_add a : frame_at (a + 2000) = frame_at a + 22050.
Proof.
  unfold frame_at, AudioSegment.frame_rate. replace ((a + 2000) * 11025) with (a * 11025 + 22050 * 1000)
    by lia.
  apply Z.div_add. lia.
Qed.

(** The frames up to the length of a segment end at most five frames
    behind its last frame. *)
Lemma frame_at_len (seg : AudioSegment.t) :
  frame_at (len seg) <= AudioSegment.frame_count seg + 5.
Proof.
  destruct (len_bounds seg) as [Hlo _]. unfold frame_at, AudioSegment.frame_rate.
  pose proof (Z.div_lt_upper_bound (len seg * 11025) 1000
                (AudioSegment.frame_count seg + 6) ltac:(lia) ltac:(lia)).
  lia.
Qed.

Lemma py_slice_length {A} (l : list A) i j :
  0 <= i -> i <= j ->
  Z.of_nat (length (AudioSegment.py_slice l i j))
  = Z.min j (Z.of_nat (length l)) - Z.min i (Z.of_nat (length l)).
Proof.
  intros Hi Hij. unfold AudioSegment.py_slice. cbv zeta.
  destruct (Z.ltb_spec i 0); [lia|]. destruct (Z.ltb_spec j 0); [lia|].
  rewrite length_take, length_drop. lia.
Qed.

Lemma py_slice_from_0 {A} (l : list A) j :
  0 <= j -> AudioSegment.py_slice l 0 j = take (Z.to_nat j) l.
Proof.
  intros Hj. unfold AudioSegment.py_slice. cbv zeta.
  destruct (Z.ltb_spec 0 0); [lia|]. destruct (Z.ltb_spec j 0); [lia|].
  rewrite (Z.min_l 0 (Z.of_nat (length l))) by lia.
  change (Z.to_nat 0) with 0%nat. rewrite drop_0, Z.sub_0_r.
  destruct (Z.le_ge_cases j (Z.of_nat (length l))) as [Hle|Hge].
  - rewrite Z.min_l by lia. reflexivity.
  - rewrite Z.min_r by lia. rewrite Nat2Z.id.
    rewrite !take_ge by lia. reflexivity.
Qed.

(** What [__getitem__] fills in from a start that is not negative stays
    below two milliseconds, which are 22 frames. *)
Lemma missing_frames_small (seg : AudioSegment.t) start stop :
  0 <= start -> AudioSegment.missing_frames seg start stop <= 5.
Proof.
  intros Hs. unfold AudioSegment.missing_frames. cbv zeta.
  pose proof (len_nonneg seg) as HL. pose proof (frame_at_len seg) as Hend.
  set (a := Z.min start (len seg)). set (b := Z.min stop (len seg)).
  assert (Ha : 0 <= a <= len seg) by (unfold a; lia).
  rewrite (parse_position_nonneg seg a) by lia.
  pose proof (frame_at_mono a (len seg) ltac:(lia)) as Hia.
  pose proof (frame_at_nonneg a ltac:(lia)) as Hi0.
  assert (Hjb : AudioSegment.parse_position seg b <= frame_at (len seg)).
  { unfold AudioSegment.parse_position, frame_at, AudioSegment.frame_rate.
    destruct (Z.ltb_spec b 0) as [Hneg|Hpos].
    - assert (Hq : (len seg - Z.abs b) * 11025 ÷ 1000 <= len seg * 11025 / 1000).
      { destruct (Z.le_gt_cases 0 (len seg - Z.abs b)) as [Hp|Hn].
        - rewrite Z.quot_div_nonneg by lia. apply Z.div_le_mono; lia.
        - pose proof (Z.quot_opp_l ((Z.abs b - len seg) * 11025) 1000 ltac:(lia)).
          replace ((len seg - Z.abs b) * 11025)
            with (- ((Z.abs b - len seg) * 11025)) by lia.
          pose proof (Z.quot_pos ((Z.abs b - len seg) * 11025) 1000
                        ltac:(lia) ltac:(lia)).
          pose proof (Z.div_pos (len seg * 11025) 1000 ltac:(lia) ltac:(lia)).
          lia. }
      exact Hq.
    - rewrite Z.quot_div_nonneg by lia. apply Z.div_le_mono; unfold b; lia. }
  set (i := frame_at a) in *. set (j := AudioSegment.parse_position seg b) in *.
  unfold AudioSegment.frame_count in Hend.
  destruct (Z.le_gt_cases i j) as [Hij|Hji].
  - destruct (Z.le_gt_cases 0 j) as [Hj0|Hj0]; [|lia].
    rewrite (py_slice_length seg i j Hi0 Hij). lia.
  - pose proof (Nat2Z.is_nonneg (length (AudioSegment.py_slice seg i j))). lia.
Qed.

Lemma slice_to_frames (seg : AudioSegment.t) stop :
  0 <= stop ->
  AudioSegment.frame_count (AudioSegment.slice_to seg stop)
  = frame_at (Z.min stop (len seg)).
Proof.
  intros Hs. pose proof (len_nonneg seg) as HL.
  unfold AudioSegment.slice_to, AudioSegment.getslice,
    AudioSegment.missing_frames, AudioSegment.frame_count. cbv zeta.
  rewrite (Z.min_l 0 (len seg)) by lia.
  set (m := Z.min stop (len seg)).
  rewrite (parse_position_nonneg seg 0), (parse_position_nonneg seg m)
    by (unfold m; lia).
  change (frame_at 0) with 0.
  pose proof (frame_at_nonneg m ltac:(unfold m; lia)) as Hj.
  pose proof (py_slice_length seg 0 (frame_at m) ltac:(lia) Hj) as Hlen.
  destruct (AudioSegment.py_slice seg 0 (frame_at m)) as [|x data] eqn:Ed.
  - simpl in Hlen. simpl.
    destruct (Z.le_gt_cases (frame_at m) (Z.of_nat (length seg))) as [Hle|Hgt];
      [lia|].
    assert (Hz : length seg = 0%nat) by lia.
    destruct seg; [|discriminate].
    subst m. change (AudioSegment.len (@nil frame)) with 0.
    replace (Z.min stop 0) with 0 by lia. reflexivity.
  - rewrite length_app, length_replicate. lia.
Qed.

Lemma len_frame_at ms (seg : AudioSegment.t) :
  0 <= ms -> AudioSegment.frame_count seg = frame_at ms -> len seg = ms.
Proof.
  intros Hms Hf. apply len_of_frames; rewrite Hf; unfold frame_at, AudioSegment.frame_rate.
  - pose proof (Z.mul_succ_div_gt (ms * 11025) 1000 ltac:(lia)). lia.
  - pose proof (Z.mul_div_le (ms * 11025) 1000 ltac:(lia)). lia.
Qed.

Lemma len_slice_to (seg : AudioSegment.t) stop :
  0 <= stop -> len (AudioSegment.slice_to seg stop) = Z.min stop (len seg).
Proof.
  intros Hs. pose proof (len_nonneg seg). apply len_frame_at; [lia|].
  apply slice_to_frames, Hs.
Qed.

(** A cut inside the segment is a prefix of its frames. *)
Lemma slice_to_take (seg : AudioSegment.t) stop :
  0 <= stop -> stop <= len seg ->
  frame_at stop <= AudioSegment.frame_count seg ->
  AudioSegment.slice_to seg stop = take (Z.to_nat (frame_at stop)) seg.
Proof.
  intros Hs Hle Hin. pose proof (len_nonneg seg) as HL.
  unfold AudioSegment.slice_to, AudioSegment.getslice,
    AudioSegment.missing_frames. cbv zeta.
  rewrite (Z.min_l 0 (len seg)), (Z.min_l stop (len seg)) by lia.
  rewrite (parse_position_nonneg seg 0), (parse_position_nonneg seg stop) by lia.
  change (frame_at 0) with 0.
  pose proof (frame_at_nonneg stop Hs) as Hj.
  rewrite py_slice_from_0 by exact Hj.
  unfold AudioSegment.frame_count in Hin.
  destruct (take (Z.to_nat (frame_at stop)) seg) as [|x data] eqn:Et;
    [reflexivity|].
  rewrite <- Et. rewrite length_take.
  replace (Z.to_nat (frame_at stop - 0 - Z.of_nat (Z.to_nat (frame_at stop) `min` length seg)))
    with 0%nat by lia.
  apply app_nil_r.
Qed.


Lemma sub_gain_length (clip : AudioSegment.t) dB :
  length (AudioSegment.sub_gain clip dB) = length clip.
Proof. unfold AudioSegment.sub_gain. apply length_map. Qed.

Lemma sub_gain_len (clip : AudioSegment.t) dB :
  len (AudioSegment.sub_gain clip dB) = len clip.
Proof. apply len_same_frames, sub_gain_length. Qed.

End SliceFacts.

(** ** Joining and mixing *)

Section JoinFacts.
Context `{AudioLib}.
Local Open Scope Z_scope.

Lemma frame_count_app (a b : AudioSegment.t) :
  AudioSegment.frame_count (a ++ b)
  = AudioSegment.frame_count a + AudioSegment.frame_count b.
Proof. unfold AudioSegment.frame_count. rewrite length_app. lia. Qed.

Lemma len_app_l (a b : AudioSegment.t) : len a <= len (a ++ b).
Proof. apply len_mono. rewrite length_app. lia. Qed.

(** The length of a segment of at most [11.025 * k] frames is at most [k]. *)
Lemma len_le_of_frames (seg : AudioSegment.t) k :
  1000 * AudioSegment.frame_count seg <= 11025 * k -> len seg <= k.
Proof. intros Hf. destruct (len_bounds seg) as [Hlo _]. lia. Qed.

Lemma frame_at_le ms : 0 <= ms -> 1000 * frame_at ms <= 11025 * ms.
Proof.
  intros Hms. unfold frame_at, AudioSegment.frame_rate.
  pose proof (Z.mul_div_le (ms * 11025) 1000 ltac:(lia)). lia.
Qed.


Lemma silent_frames d :
  AudioSegment.frame_count (silent d) = frame_at (Z.max 0 d).
Proof.
  unfold AudioSegment.silent, AudioSegment.frame_count, frame_at,
    AudioSegment.frame_rate.
  rewrite length_replicate.
  destruct (Z.le_gt_cases 0 d) as [Hd|Hd].
  - rewrite Z.max_r by lia. rewrite Z.quot_div_nonneg by lia.
    rewrite Z2Nat.id by (apply Z.div_pos; lia). f_equal. lia.
  - rewrite Z.max_l by lia.
    replace (Z.to_nat (11025 * d ÷ 1000)) with 0%nat; [reflexivity|].
    pose proof (Z.quot_opp_l (11025 * - d) 1000 ltac:(lia)) as Hq.
    replace (- (11025 * - d)) with (11025 * d) in Hq by lia.
    pose proof (Z.quot_pos (11025 * - d) 1000 ltac:(lia) ltac:(lia)). lia.
Qed.


Lemma repeat_nat_length (seg : AudioSegment.t) n :
  length (AudioSegment.repeat_nat seg n) = (n * length seg)%nat.
Proof. induction n; simpl; [reflexivity|]. rewrite length_app, IHn. reflexivity. Qed.

Lemma repeat_nat_snoc (seg : AudioSegment.t) n :
  AudioSegment.repeat_nat seg (S n) = AudioSegment.repeat_nat seg n ++ seg.
Proof.
  induction n; [simpl; apply app_nil_r|].
  change (seg ++ AudioSegment.repeat_nat seg (S n)
          = (seg ++ AudioSegment.repeat_nat seg n) ++ seg).
  rewrite IHn. apply app_assoc.
Qed.

Lemma mul_frames (seg : AudioSegment.t) n :
  0 <= n ->
  AudioSegment.frame_count (AudioSegment.mul seg n)
  = n * AudioSegment.frame_count seg.
Proof.
  intros Hn. unfold AudioSegment.frame_count, AudioSegment.mul.
  rewrite repeat_nat_length. lia.
Qed.

Lemma mix_onto_length (a b : AudioSegment.t) :
  length (AudioSegment.mix_onto a b) = length a.
Proof. revert b. induction a as [|x a IH]; intros [|y b]; simpl; auto. Qed.

Lemma mix_onto_nil (a : AudioSegment.t) : AudioSegment.mix_onto a [] = a.
Proof. destruct a; reflexivity. Qed.

(** [seg[start:]] from a start inside the segment: the frames from the one
    at [start] to the one at [len(seg)]. *)
Lemma slice_from_frames (seg : AudioSegment.t) start :
  0 <= start <= len seg ->
  frame_at start < AudioSegment.frame_count seg ->
  AudioSegment.frame_count (AudioSegment.slice_from seg start)
  = frame_at (len seg) - frame_at start.
Proof.
  intros Hs Hin. pose proof (len_nonneg seg) as HL.
  unfold AudioSegment.slice_from, AudioSegment.getslice,
    AudioSegment.missing_frames, AudioSegment.frame_count in *. cbv zeta.
  rewrite (Z.min_l start (len seg)), (Z.min_l (len seg) (len seg)) by lia.
  rewrite (parse_position_nonneg seg start), (parse_position_nonneg seg (len seg))
    by lia.
  pose proof (frame_at_nonneg start ltac:(lia)) as Hi.
  pose proof (frame_at_mono start (len seg) ltac:(lia)) as Hij.
  pose proof (py_slice_length seg _ _ Hi Hij) as Hlen.
  destruct (AudioSegment.py_slice seg (frame_at start) (frame_at (len seg)))
    as [|x data] eqn:Ed.
  - simpl in Hlen. simpl. lia.
  - rewrite length_app, length_replicate. lia.
Qed.

(** [seg[0:]] is [seg] when [seg] ends on the frame of its length. *)
Lemma slice_from_0 (seg : AudioSegment.t) :
  AudioSegment.frame_count seg = frame_at (len seg) ->
  AudioSegment.slice_from seg 0 = seg.
Proof.
  intros Hf. pose proof (len_nonneg seg) as HL.
  unfold AudioSegment.slice_from, AudioSegment.getslice,
    AudioSegment.missing_frames, AudioSegment.frame_count in *. cbv zeta.
  rewrite (Z.min_l 0 (len seg)), (Z.min_l (len seg) (len seg)) by lia.
  rewrite (parse_position_nonneg seg 0), (parse_position_nonneg seg (len seg))
    by lia.
  change (frame_at 0) with 0. rewrite <- Hf.
  rewrite py_slice_from_0 by lia. rewrite Nat2Z.id, firstn_all.
  destruct seg as [|x seg]; [reflexivity|].
  replace (Z.to_nat _) with 0%nat by lia. apply app_nil_r.
Qed.

End JoinFacts.

(** ** Duration fitting *)

Section FittingFacts.
Context `{AudioLib}.
Local Open Scope Z_scope.

Lemma fit_returns (clip : AudioSegment.t) t :
  0 < len clip -> exists out, fit clip t = Returns out.
Proof.
  intros Hd. unfold fit.
  destruct (len clip >? t); [eauto|].
  destruct (len clip <? t); [|eauto].
  destruct (Z.eqb_spec (len clip) 0); [lia|eauto].
Qed.

(** What [fit] returns, by the three cases of the code. *)
Lemma fit_cases (clip out : AudioSegment.t) t :
  fit clip t = Returns out ->
  (len clip > t /\ out = AudioSegment.slice_to clip t)
  \/ (0 < len clip < t
      /\ out = AudioSegment.slice_to
                 (AudioSegment.mul clip (t / len clip + 1)) t)
  \/ (len clip = t /\ out = clip).
Proof.
  unfold fit. pose proof (len_nonneg clip) as HL.
  destruct (Z.gtb_spec (len clip) t) as [Hg|Hg];
    [intros [= <-]; left; split; [lia|reflexivity]|].
  destruct (Z.ltb_spec (len clip) t) as [Hl|Hl];
    [|intros [= <-]; right; right; split; [lia|reflexivity]].
  destruct (Z.eqb_spec (len clip) 0) as [Hz|Hz]; [discriminate|].
  intros [= <-]. right; left. split; [lia|reflexivity].
Qed.

(** A fitted clip is never longer than the target, and as long as the
    target when the clip itself reaches it. *)
Lemma fit_len_le (clip out : AudioSegment.t) t :
  0 <= t -> fit clip t = Returns out -> len out <= t.
Proof.
  intros Ht Hfit.
  destruct (fit_cases clip out t Hfit) as [[_ ->]|[[_ ->]|[Hd ->]]];
    try (rewrite len_slice_to by exact Ht); lia.
Qed.

Lemma fit_len_reached (clip out : AudioSegment.t) t :
  0 <= t -> t <= len clip -> fit clip t = Returns out -> len out = t.
Proof.
  intros Ht Hd Hfit.
  destruct (fit_cases clip out t Hfit) as [[_ ->]|[[Hlt _]|[He ->]]];
    [rewrite len_slice_to by exact Ht; lia | lia | exact He].
Qed.

End FittingFacts.

(** C4. Fitting tiles by the rounded length of the clip, and so can tile
    too few times.  A clip of 3005 frames lasts 272.56 ms, which [len]
    counts as 273 ms; fitted to 3000 ms it is tiled [3000 // 273 + 1 = 11]
    times, to 33055 frames or 2998.19 ms, and the cut at 3000 ms leaves 33052
    frames: the fitted clip lasts 2998 ms, not 3000 ms.  The adjustment of
    [get_sfx_clip] in the first program does the same. *)
Theorem fit_falls_short :
  len clip_273 = 273%Z
  /\ (exists out,
        fit clip_273 3000 = Returns out
        /\ out = AudioSegment.slice_to (AudioSegment.mul clip_273 11) 3000
        /\ AudioSegment.frame_count out = 33052%Z
        /\ len out = 2998%Z)
  /\ (exists out,
        get_sfx_clip_adjust clip_273 3000 = Returns out
        /\ len out = 2998%Z).
Proof.
  assert (Hl : len clip_273 = 273%Z) by (vm_compute; reflexivity).
  assert (Hg : len (AudioSegment.sub_gain clip_273 10) = 273%Z)
    by (vm_compute; reflexivity).
  split; [exact Hl|]. split.
  - exists (AudioSegment.slice_to (AudioSegment.mul clip_273 11) 3000).
    split; [unfold fit; rewrite Hl; reflexivity|].
    split; [reflexivity|]. split; vm_compute; reflexivity.
  - exists (AudioSegment.slice_to
              (AudioSegment.mul (AudioSegment.sub_gain clip_273 10) 11) 3000).
    split; [unfold get_sfx_clip_adjust; cbv zeta; rewrite Hg; reflexivity|].
    vm_compute. reflexivity.
Qed.

Example fit_1000_to_2500 :
  fit clip_1000 2500
  = Returns (AudioSegment.slice_to (AudioSegment.mul clip_1000 3) 2500)
  /\ AudioSegment.frame_count
       (AudioSegment.slice_to (AudioSegment.mul clip_1000 3) 2500) = 27562%Z
  /\ len (AudioSegment.slice_to (AudioSegment.mul clip_1000 3) 2500) = 2500%Z.
Proof.
  assert (Hl : len clip_1000 = 1000%Z) by (vm_compute; reflexivity).
  split; [unfold fit; rewrite Hl; reflexivity|].
  split; vm_compute; reflexivity.
Qed.

Example fit_4000_to_2000 :
  fit clip_4000 2000 = Returns (AudioSegment.slice_to clip_4000 2000)
  /\ AudioSegment.slice_to clip_4000 2000 = take (Z.to_nat (frame_at 2000)) clip_4000
  /\ len (take (Z.to_nat (frame_at 2000)) clip_4000) = 2000%Z.
Proof.
  assert (Hl : len clip_4000 = 4000%Z) by (vm_compute; reflexivity).
  split; [unfold fit; rewrite Hl; reflexivity|].
  split; [|vm_compute; reflexivity].
  apply (slice_to_take clip_4000 2000); [lia | rewrite Hl; lia|].
  vm_compute. discriminate.
Qed.

(** C8. Fitting a clip of zero duration to a positive target raises
    [ZeroDivisionError] in both programs, because the tiling branch divides
    by the clip length; a clip of positive duration always gets a result. *)
Theorem fit_zero_length_raises `{AudioLib} (clip : AudioSegment.t) (t : Z) :
  (len clip = 0%Z -> (0 < t)%Z ->
     fit clip t = Raises ZeroDivisionError
     /\ get_sfx_clip_adjust clip t = Raises ZeroDivisionError)
  /\ ((0 < len clip)%Z ->
      (exists out, fit clip t = Returns out)
      /\ (exists out, get_sfx_clip_adjust clip t = Returns out)).
Proof.
  split.
  - intros Hz Ht. split.
    + unfold fit. rewrite Hz.
      destruct (Z.gtb_spec 0 t); [lia|].
      destruct (Z.ltb_spec 0 t); [reflexivity|lia].
    + unfold get_sfx_clip_adjust. rewrite sub_gain_len, Hz.
      destruct (Z.eqb_spec t 0); [lia|]. simpl.
      destruct (Z.gtb_spec 0 t); [lia|].
      rewrite sub_gain_len, Hz.
      destruct (Z.ltb_spec 0 t); [reflexivity|lia].
  - intros Hd. split; [apply fit_returns; exact Hd|].
    unfold get_sfx_clip_adjust. cbv zeta.
    destruct (Z.eqb_spec t 0) as [Ht0|Ht0]; simpl; [eauto|].
    destruct (Z.gtb_spec (len (AudioSegment.sub_gain clip 10)) t) as [Hg|Hg].
    + destruct (Z.ltb_spec (len (AudioSegment.slice_to
                                   (AudioSegment.sub_gain clip 10) t)) t)
        as [Hlt|Hlt]; [|eauto].
      destruct (Z.eqb_spec (len (AudioSegment.slice_to
                                   (AudioSegment.sub_gain clip 10) t)) 0)
        as [Hc|Hc]; [|eauto].
      exfalso. rewrite Hc in Hlt.
      rewrite len_slice_to in Hc by lia. rewrite sub_gain_len in *. lia.
    + destruct (Z.ltb_spec (len (AudioSegment.sub_gain clip 10)) t); [|eauto].
      destruct (Z.eqb_spec (len (AudioSegment.sub_gain clip 10)) 0)
        as [Hc|Hc]; [|eauto].
      rewrite sub_gain_len in Hc. lia.
Qed.

Lemma fit_zero_length_raises_witness :
  fit clip_empty 3000 = Raises ZeroDivisionError
  /\ get_sfx_clip_adjust clip_empty 3000 = Raises ZeroDivisionError.
Proof.
  apply (proj1 (fit_zero_length_raises clip_empty 3000)); [reflexivity | lia].
Defined.

(** ** Key rotation *)

Section RotationFacts.
Context `{AudioLib}.
Variable cfg : Config.

Lemma succ_div_mod k n :
  (0 < n)%nat ->
  (S (k mod n) < n /\ S k / n = k / n /\ S k mod n = S (k mod n))%nat
  \/ (S (k mod n) = n /\ S k / n = S (k / n) /\ S k mod n = 0)%nat.
Proof.
  intros Hn.
  pose proof (Nat.mod_upper_bound k n ltac:(lia)) as Hb.
  pose proof (Nat.div_mod_eq k n) as Hk.
  destruct (Nat.eq_dec (S (k mod n)) n) as [E|E]; [right|left];
    (split; [lia|]).
  - split; symmetry.
    + apply Nat.div_unique with (r := 0%nat); lia.
    + apply Nat.mod_unique with (q := S (k / n)); lia.
  - split; symmetry.
    + apply Nat.div_unique with (r := S (k mod n)); lia.
    + apply Nat.mod_unique with (q := (k / n)%nat); lia.
Qed.

Lemma mod_below_twice x n :
  (x < n + n -> x mod n = if x <? n then x else x - n)%nat.
Proof.
  intros Hx. destruct (Nat.ltb_spec x n).
  - apply Nat.mod_small; lia.
  - symmetry. apply Nat.mod_unique with (q := 1%nat); lia.
Qed.

(** The call number [k] hands out position [j] exactly when [k] is the
    offset of [j] from the starting cursor, modulo the pool size. *)
Lemma cursor_hits c k j n :
  (c < n -> j < n ->
   ((c + k) mod n = j <-> k mod n = (j + n - c) mod n))%nat.
Proof.
  intros Hc Hj.
  pose proof (Nat.mod_upper_bound k n ltac:(lia)) as Hb.
  rewrite <- (Nat.Div0.add_mod_idemp_r c k n).
  rewrite (mod_below_twice (c + k mod n)) by lia.
  rewrite (mod_below_twice (j + n - c)) by lia.
  destruct (Nat.ltb_spec (c + k mod n) n), (Nat.ltb_spec (j + n - c) n); lia.
Qed.

Lemma times_issued_snoc key rs r :
  times_issued key (rs ++ [r])
  = (times_issued key rs + (if is_key key r then 1 else 0))%nat.
Proof. induction rs as [|a rs IH]; simpl; [lia|]. rewrite IH. lia. Qed.

Lemma get_next_api_key_valid (w : World) :
  (current_index w < length (api_keys cfg))%nat ->
  exists key,
    api_keys cfg !! current_index w = Some key
    /\ get_next_api_key cfg w
       = (Returns key,
          set_current_index
            ((current_index w + 1) mod length (api_keys cfg))%nat w).
Proof.
  intros Hc. unfold get_next_api_key.
  destruct (lookup_lt_is_Some_2 _ _ Hc) as [key Hk].
  exists key. rewrite Hk. auto.
Qed.

(** The state and the results after [k] calls from a valid cursor. *)
Lemma issue_spec k (w : World) :
  let n := length (api_keys cfg) in
  let c := current_index w in
  (c < n)%nat ->
  snd (issue cfg k w) = set_current_index ((c + k) mod n)%nat w
  /\ length (fst (issue cfg k w)) = k
  /\ (forall i, (i < k)%nat ->
        fst (issue cfg k w) !! i
        = Returns <$> (api_keys cfg !! ((c + i) mod n)%nat))
  /\ (forall j key, api_keys cfg !! j = Some key -> NoDup (api_keys cfg) ->
        times_issued key (fst (issue cfg k w))
        = (k / n + if (j + n - c) mod n <? k mod n then 1 else 0)%nat).
Proof.
  intros n c Hc. induction k as [|k IH].
  - simpl. repeat split.
    + rewrite Nat.add_0_r, Nat.mod_small by exact Hc.
      destruct w; reflexivity.
    + intros i Hi. lia.
    + intros j key Hj Hnd. rewrite Nat.Div0.div_0_l, Nat.Div0.mod_0_l.
      reflexivity.
  - destruct IH as (Hw & Hlen & Hord & Hcnt).
    simpl. destruct (issue cfg k w) as [rs w1] eqn:Ek. simpl in *.
    assert (Hc1 : (current_index w1 < n)%nat).
    { rewrite Hw. simpl. apply Nat.mod_upper_bound. lia. }
    destruct (get_next_api_key_valid w1 Hc1) as (key1 & Hkey1 & ->).
    assert (Hcur : current_index w1 = ((c + k) mod n)%nat) by (rewrite Hw; reflexivity).
    simpl. repeat split.
    + rewrite Hw. unfold set_current_index. simpl. f_equal.
      fold n. rewrite Nat.Div0.add_mod_idemp_l. f_equal. lia.
    + rewrite length_app, Hlen. simpl. lia.
    + intros i Hi. destruct (Nat.eq_dec i k) as [->|Hne].
      * rewrite lookup_app_r by lia. rewrite Hlen, Nat.sub_diag. simpl.
        rewrite <- Hcur, Hkey1. reflexivity.
      * rewrite lookup_app_l by lia. apply Hord. lia.
    + intros j key Hj Hnd. rewrite times_issued_snoc, (Hcnt j key Hj Hnd).
      assert (Hjn : (j < n)%nat) by (apply lookup_lt_Some in Hj; exact Hj).
      assert (Hhit : is_key key (Returns key1) = true <-> ((c + k) mod n = j)%nat).
      { simpl. rewrite String.eqb_eq. split.
        - intros ->. rewrite Hcur in Hkey1.
          eapply NoDup_lookup; eauto.
        - intros E. rewrite Hcur, E in Hkey1. congruence. }
      rewrite (cursor_hits c k j n Hc Hjn) in Hhit.
      pose proof (Nat.mod_upper_bound (j + n - c) n ltac:(lia)) as Hd.
      destruct (succ_div_mod k n ltac:(lia)) as [(Hr & -> & ->)|(Hr & -> & ->)];
        destruct (is_key key (Returns key1)) eqn:Ei;
        destruct (Nat.ltb_spec ((j + n - c) mod n) (k mod n));
        destruct (Nat.ltb_spec ((j + n - c) mod n) (S (k mod n)));
        destruct (Nat.ltb_spec ((j + n - c) mod n) 0);
        try lia;
        try (assert (k mod n = (j + n - c) mod n)%nat by (apply Hhit; reflexivity); lia);
        try (assert (true = false) by
               (rewrite <- Ei; symmetry; apply Hhit; lia); discriminate).
Qed.

End RotationFacts.

(** C2. From a valid cursor [c] on a pool of [n] keys, [k] calls of
    [get_next_api_key] return the keys in cyclic order (call [i] returns
    the key at position [(c + i) mod n]), touch nothing but the cursor,
    which ends at [(c + k) mod n], and return each key of a pool without
    repetitions [floor(k/n)] or [ceil(k/n)] times. *)
Theorem round_robin_issuance `{AudioLib} (cfg : Config) (w : World) (k : nat) :
  let n := length (api_keys cfg) in
  let c := current_index w in
  (c < n)%nat ->
  snd (issue cfg k w) = set_current_index ((c + k) mod n)%nat w
  /\ length (fst (issue cfg k w)) = k
  /\ (forall i, (i < k)%nat ->
        fst (issue cfg k w) !! i
        = Returns <$> (api_keys cfg !! ((c + i) mod n)%nat))
  /\ (NoDup (api_keys cfg) ->
      forall key, key ∈ api_keys cfg ->
        (k / n <= times_issued key (fst (issue cfg k w)) <= (k + n - 1) / n)%nat
        /\ (times_issued key (fst (issue cfg k w)) = k / n
            \/ times_issued key (fst (issue cfg k w)) = (k + n - 1) / n)%nat).
Proof.
  intros n c Hc.
  destruct (issue_spec cfg k w Hc) as (Hw & Hlen & Hord & Hcnt).
  split; [exact Hw|]. split; [exact Hlen|]. split; [exact Hord|].
  intros Hnd key Hin.
  apply list_elem_of_lookup in Hin. destruct Hin as [j Hj].
  rewrite (Hcnt j key Hj Hnd). fold n. fold c.
  pose proof (Nat.mod_upper_bound k n ltac:(lia)) as Hb.
  pose proof (Nat.div_mod_eq k n) as Hk.
  assert (Hceil : ((k + n - 1) / n
                   = k / n + if k mod n =? 0 then 0 else 1)%nat).
  { destruct (Nat.eqb_spec (k mod n) 0).
    - symmetry; apply Nat.div_unique with (r := (n - 1)%nat); lia.
    - symmetry; apply Nat.div_unique with (r := (k mod n - 1)%nat); lia. }
  rewrite Hceil.
  destruct (Nat.ltb_spec ((j + n - c) mod n) (k mod n));
    destruct (Nat.eqb_spec (k mod n) 0); cbv iota; lia.
Qed.

Lemma round_robin_issuance_witness :
  fst (issue sample_config 7 empty_world)
  = [Returns "sk-alpha-0001"; Returns "sk-bravo-0002"; Returns "sk-charlie-0003";
     Returns "sk-alpha-0001"; Returns "sk-bravo-0002"; Returns "sk-charlie-0003";
     Returns "sk-alpha-0001"]
  /\ snd (issue sample_config 7 empty_world)
     = set_current_index ((0 + 7) mod 3)%nat empty_world.
Proof.
  split; [reflexivity|].
  apply (round_robin_issuance sample_config empty_world 7). simpl. lia.
Defined.

(** ** The credits log *)

Lemma sum_credits_snoc l r :
  sum_credits (l ++ [r]) = (sum_credits l + credits_used r)%Z.
Proof. induction l as [|a l IH]; simpl; [lia|]. rewrite IH. lia. Qed.

Lemma ledger_add_lookup log key_id rec :
  ledger_add log key_id rec !! key_id
  = Some (mkLedgerEntry
            (total_credits_used (entry_of log key_id) + credits_used rec)
            (calls (entry_of log key_id) ++ [rec])).
Proof.
  unfold ledger_add, entry_of.
  destruct (log !! key_id) as [e|] eqn:E; simpl.
  - rewrite E. apply lookup_insert_eq.
  - rewrite lookup_insert_eq. simpl. apply lookup_insert_eq.
Qed.

Lemma ledger_add_lookup_ne log key_id rec other :
  other <> key_id ->
  ledger_add log key_id rec !! other = log !! other.
Proof.
  intros Hne. unfold ledger_add.
  destruct (log !! key_id) as [e|] eqn:E.
  - rewrite E. rewrite lookup_insert_ne by congruence. reflexivity.
  - rewrite lookup_insert_eq. rewrite !lookup_insert_ne by congruence.
    reflexivity.
Qed.

Lemma ledger_add_inv log key_id rec :
  ledger_inv log -> ledger_inv (ledger_add log key_id rec).
Proof.
  intros Hinv other e He.
  destruct (decide (other = key_id)) as [->|Hne].
  - rewrite ledger_add_lookup in He. injection He as <-.
    unfold entry_consistent. simpl. rewrite sum_credits_snoc. f_equal.
    unfold entry_of. destruct (log !! key_id) as [e0|] eqn:E; simpl.
    + exact (Hinv _ _ E).
    + reflexivity.
  - rewrite ledger_add_lookup_ne in He by exact Hne. exact (Hinv _ _ He).
Qed.

Lemma new_credits_log_inv keys : ledger_inv (new_credits_log keys).
Proof.
  unfold new_credits_log. induction keys as [|k keys IH]; simpl.
  - apply map_Forall_empty.
  - apply map_Forall_insert_2; [reflexivity | exact IH].
Qed.

Section LedgerFacts.
Context `{AudioLib}.
Variable env : Env.
Variable cfg : Config.

Lemma preserves_ret {A} (P : World -> Prop) (a : A) : preserves P (ret a).
Proof. intros w a' w' HP [= <- <-]. exact HP. Qed.

Lemma preserves_bind {A B} (P : World -> Prop) (m : M A) (k : A -> M B) :
  preserves P m -> (forall a, preserves P (k a)) -> preserves P (bind m k).
Proof.
  intros Hm Hk w b w' HP Hrun. unfold bind in Hrun.
  destruct (m w) as [[a w1]|] eqn:Em; [|discriminate].
  exact (Hk a w1 b w' (Hm w a w1 HP Em) Hrun).
Qed.

Lemma log_credit_usage_ok api_key chars credits operation (w : World) :
  ledger_ok w ->
  ledger_ok (log_credit_usage env api_key chars credits operation w).
Proof.
  intros [Hinv _]. unfold ledger_ok, log_credit_usage. simpl.
  split; [apply ledger_add_inv; exact Hinv|]. intros file [= <-]. reflexivity.
Qed.

Lemma ledger_ok_stores (w w1 : World) :
  credits_log w1 = credits_log w -> credits_file w1 = credits_file w ->
  ledger_ok w -> ledger_ok w1.
Proof. unfold ledger_ok. intros -> ->. auto. Qed.

End LedgerFacts.

(** ** Retries *)

Section RetryFacts.
Context `{AudioLib}.
Variable env : Env.
Variable cfg : Config.
Local Open Scope Z_scope.

Lemma get_next_api_key_frame (w : World) :
  requests (snd (get_next_api_key cfg w)) = requests w
  /\ sleeps (snd (get_next_api_key cfg w)) = sleeps w
  /\ credits_log (snd (get_next_api_key cfg w)) = credits_log w
  /\ sfx_cache (snd (get_next_api_key cfg w)) = sfx_cache w
  /\ exported (snd (get_next_api_key cfg w)) = exported w.
Proof.
  unfold get_next_api_key. destruct (api_keys cfg !! current_index w); auto.
Qed.

Lemma get_next_api_key_cursor (w : World) :
  cursor_valid cfg w ->
  cursor_valid cfg (snd (get_next_api_key cfg w))
  /\ exists key, api_keys cfg !! current_index w = Some key
                 /\ fst (get_next_api_key cfg w) = Returns key.
Proof.
  intros Hv. destruct (get_next_api_key_valid cfg w Hv) as (key & Hk & ->).
  split; [|eauto]. unfold cursor_valid in *. simpl.
  apply Nat.mod_upper_bound. lia.
Qed.

Lemma get_next_api_key_raises_cursor (w : World) e w1 :
  get_next_api_key cfg w = (Raises e, w1) -> w1 = w /\ ~ cursor_valid cfg w.
Proof.
  unfold get_next_api_key, cursor_valid.
  destruct (api_keys cfg !! current_index w) eqn:E; [discriminate|].
  intros [= <- <-]. split; [reflexivity|].
  apply lookup_ge_None in E. lia.
Qed.

Lemma sleep_returns (w : World) :
  0 <= retry_delay cfg ->
  sleep cfg w = (Returns tt, set_sleeps (sleeps w ++ [retry_delay cfg]) w).
Proof. intros Hd. unfold sleep. destruct (Z.ltb_spec (retry_delay cfg) 0); [lia|auto]. Qed.

Lemma sleep_raises (w : World) :
  retry_delay cfg < 0 -> sleep cfg w = (Raises ValueError, w).
Proof. intros Hd. unfold sleep. destruct (Z.ltb_spec (retry_delay cfg) 0); [auto|lia]. Qed.

Lemma make_api_call_loop_unfold fuel url text model headers a (w : World) :
  make_api_call_loop env cfg (S fuel) url text model headers a w
  = let next := make_api_call_loop env cfg fuel url text model in
    if a <? max_retries cfg then
      match (match headers with
             | Some api_key => (Returns api_key, w)
             | None => get_next_api_key cfg w
             end) with
      | (Raises _, w1) => on_exception cfg next headers a w1
      | (Returns api_key, w1) =>
          let headers := Some api_key in
          let req := mkRequest url api_key text model in
          let w2 := set_requests (requests w1 ++ [req]) w1 in
          match http env (length (requests w1)) req with
          | Failed => on_exception cfg next headers a w2
          | Answered response =>
              if status_code response =? 200 then
                Some (Returns (Some response, headers), w2)
              else if (status_code response =? 429)
                      || (status_code response =? 401) then
                match get_next_api_key cfg w2 with
                | (Returns api_key, w3) =>
                    count_and_sleep cfg next (Some api_key) a w3
                | (Raises _, w3) => on_exception cfg next headers a w3
                end
              else if negb (retry_failed_calls cfg) then
                Some (Returns (None, headers), w2)
              else count_and_sleep cfg next headers a w2
          end
      end
    else Some (Returns (None, headers), w).
Proof. reflexivity. Qed.

(** The loop from attempt number [a] on: it ends within the budget, issues
    at most [max_retries - a] requests, and exactly that many, with no
    response, when every attempt fails. *)
Lemma make_api_call_loop_spec fuel url text model :
  forall a headers (w : World),
    (Z.to_nat (max_retries cfg - a) < fuel)%nat ->
    retry_post env cfg (Z.to_nat (max_retries cfg - a)) w
      (make_api_call_loop env cfg fuel url text model headers a w).
Proof.
  induction fuel as [|fuel IH]; intros a headers w Hfuel; [lia|].
  rewrite make_api_call_loop_unfold. cbv zeta.
  set (next := make_api_call_loop env cfg fuel url text model).
  destruct (Z.ltb_spec a (max_retries cfg)) as [Hlt|Hge].
  2:{ exists (Returns (None, headers)), w, []. rewrite app_nil_r.
      replace (Z.to_nat (max_retries cfg - a)) with 0%nat by lia.
      repeat split; auto. intros _. eexists. split; [reflexivity|].
      intros _ _ _. repeat split. simpl. symmetry. apply app_nil_r. }
  assert (Hstep : Z.to_nat (max_retries cfg - a)
                  = S (Z.to_nat (max_retries cfg - (a + 1)))) by lia.
  assert (Hfuel' : (Z.to_nat (max_retries cfg - (a + 1)) < fuel)%nat) by lia.
  (* one more round of the loop after a sleep that returned *)
  assert (Hnext : forall headers' (w1 : World) (sent : list Request),
    requests w1 = requests w ++ sent -> (length sent <= 1)%nat ->
    sleeps w1 = sleeps w ->
    (cursor_valid cfg w -> cursor_valid cfg w1 /\ length sent = 1%nat) ->
    retry_post env cfg (Z.to_nat (max_retries cfg - a)) w
      (next headers' (a + 1)
            (set_sleeps (sleeps w1 ++ [retry_delay cfg]) w1))).
  { intros headers' w1 sent Hreq Hsent Hsl Hval.
    destruct (IH (a + 1) headers'
                (set_sleeps (sleeps w1 ++ [retry_delay cfg]) w1) Hfuel')
      as (res & w' & new & Hrun & Hreq' & Hlen & Hall).
    exists res, w', (sent ++ new). split; [exact Hrun|].
    split; [rewrite Hreq'; simpl; rewrite Hreq, app_assoc; reflexivity|].
    split; [rewrite length_app; lia|].
    intros Hdelay. destruct (Hall Hdelay) as (r & -> & Hfails).
    exists r. split; [reflexivity|].
    intros Hretry Hv Hfail. destruct (Hval Hv) as [Hv1 Hone].
    destruct (Hfails Hretry Hv1 Hfail) as (Hn & Hr & Hs).
    split; [rewrite length_app; lia|]. split; [exact Hr|].
    rewrite Hs, Hstep. simpl. rewrite Hsl, <- app_assoc. reflexivity. }
  (* the loop stops without a response or by raising *)
  assert (Hstop : forall res (w1 : World) (sent : list Request),
    requests w1 = requests w ++ sent -> (length sent <= 1)%nat ->
    (0 <= retry_delay cfg ->
     retry_failed_calls cfg = false /\ exists r, res = Returns r) ->
    retry_post env cfg (Z.to_nat (max_retries cfg - a)) w (Some (res, w1))).
  { intros res w1 sent Hreq Hsent Hno.
    exists res, w1, sent. split; [reflexivity|]. split; [exact Hreq|].
    split; [lia|]. intros Hdelay. destruct (Hno Hdelay) as (Hoff & r & ->).
    exists r. split; [reflexivity|]. congruence. }
  (* the handler and the counting sleep *)
  assert (Hexc : forall headers' att (w1 : World) (sent : list Request),
    (att = a \/ retry_delay cfg < 0) ->
    requests w1 = requests w ++ sent -> (length sent <= 1)%nat ->
    sleeps w1 = sleeps w ->
    (cursor_valid cfg w -> cursor_valid cfg w1 /\ length sent = 1%nat) ->
    retry_post env cfg (Z.to_nat (max_retries cfg - a)) w
      (on_exception cfg next headers' att w1)).
  { intros headers' att w1 sent Hatt Hreq Hsent Hsl Hval. unfold on_exception.
    destruct (retry_failed_calls cfg) eqn:Eretry; simpl.
    - destruct (Z.ltb_spec (retry_delay cfg) 0) as [Hneg|Hpos].
      + rewrite sleep_raises by exact Hneg.
        apply (Hstop _ w1 sent); auto. intros Hdelay. lia.
      + rewrite sleep_returns by exact Hpos.
        destruct Hatt as [->|Hneg]; [|lia].
        apply (Hnext headers' w1 sent); assumption.
    - apply (Hstop _ w1 sent); auto. intros _. split; [reflexivity|eauto]. }
  assert (Hcount : forall headers' (w1 : World) (sent : list Request),
    requests w1 = requests w ++ sent -> (length sent <= 1)%nat ->
    sleeps w1 = sleeps w ->
    (cursor_valid cfg w -> cursor_valid cfg w1 /\ length sent = 1%nat) ->
    retry_post env cfg (Z.to_nat (max_retries cfg - a)) w
      (count_and_sleep cfg next headers' a w1)).
  { intros headers' w1 sent Hreq Hsent Hsl Hval. unfold count_and_sleep.
    destruct (Z.ltb_spec (retry_delay cfg) 0) as [Hneg|Hpos].
    - rewrite sleep_raises by exact Hneg.
      apply (Hexc headers' (a + 1) w1 sent); auto.
    - rewrite sleep_returns by exact Hpos.
      apply (Hnext headers' w1 sent); assumption. }
  destruct (match headers with
            | Some api_key => (Returns api_key, w)
            | None => get_next_api_key cfg w
            end) as [[api_key|e] w1] eqn:Ekey.
  - assert (Hw1 : requests w1 = requests w /\ sleeps w1 = sleeps w
                  /\ (cursor_valid cfg w -> cursor_valid cfg w1)).
    { destruct headers as [k|].
      - injection Ekey as <- <-. auto.
      - pose proof (get_next_api_key_frame w) as (Hr & Hs & _).
        pose proof (get_next_api_key_cursor w) as Hc.
        rewrite Ekey in *. simpl in *. repeat split; auto.
        intros Hv. apply Hc. exact Hv. }
    destruct Hw1 as (Hr1 & Hs1 & Hv1).
    set (req := mkRequest url api_key text model).
    set (w2 := set_requests (requests w1 ++ [req]) w1).
    assert (Hr2 : requests w2 = requests w ++ [req]) by (simpl; rewrite Hr1; reflexivity).
    assert (Hs2 : sleeps w2 = sleeps w) by (simpl; exact Hs1).
    assert (Hv2 : cursor_valid cfg w -> cursor_valid cfg w2 /\ length [req] = 1%nat).
    { intros Hv. split; [exact (Hv1 Hv) | reflexivity]. }
    destruct (http env (length (requests w1)) req) as [response|] eqn:Ehttp.
    + destruct (Z.eqb_spec (status_code response) 200) as [H200|H200].
      * exists (Returns (Some response, Some api_key)), w2, [req].
        split; [reflexivity|]. split; [exact Hr2|]. split; [simpl; lia|].
        intros _. eexists. split; [reflexivity|].
        intros _ _ Hfail. exfalso.
        specialize (Hfail (length (requests w1)) req).
        rewrite Ehttp in Hfail. simpl in Hfail.
        apply negb_true_iff, Z.eqb_neq in Hfail. contradiction.
      * destruct ((status_code response =? 429) || (status_code response =? 401)).
        -- destruct (get_next_api_key cfg w2) as [[api_key'|e'] w3] eqn:Enext.
           ++ pose proof (get_next_api_key_frame w2) as (Hr & Hs & _).
              pose proof (get_next_api_key_cursor w2) as Hc.
              rewrite Enext in *. simpl in Hr, Hs, Hc.
              apply (Hcount (Some api_key') w3 [req]); try congruence; auto.
              intros Hv. split; [apply Hc, Hv2, Hv | reflexivity].
           ++ apply get_next_api_key_raises_cursor in Enext.
              destruct Enext as [-> Hinv].
              apply (Hexc (Some api_key) a w2 [req]); auto.
        -- destruct (retry_failed_calls cfg) eqn:Eretry; simpl.
           ++ apply (Hcount (Some api_key) w2 [req]); auto.
           ++ apply (Hstop _ w2 [req]); auto. intros _. eauto.
    + apply (Hexc (Some api_key) a w2 [req]); auto.
  - destruct headers as [k|]; [discriminate|].
    apply get_next_api_key_raises_cursor in Ekey. destruct Ekey as [-> Hinv].
    apply (Hexc None a w []);
      [auto | symmetry; apply app_nil_r | simpl; lia | reflexivity
      | intros Hv; contradiction].
Qed.

End RetryFacts.

(** A failed attempt, of whatever kind, is one request, one sleep and one
    step of the attempt counter. *)
Lemma failed_attempt_step `{AudioLib} (env : Env) (cfg : Config) fuel url text
    model headers (a : Z) (w : World) key :
  retry_failed_calls cfg = true ->
  (0 <= retry_delay cfg)%Z ->
  (a < max_retries cfg)%Z ->
  attempt_key cfg headers w = Some key ->
  is_failure (http env (length (requests w)) (mkRequest url key text model))
  = true ->
  exists headers' w1,
    make_api_call_loop env cfg (S fuel) url text model headers a w
    = make_api_call_loop env cfg fuel url text model headers' (a + 1)%Z w1
    /\ requests w1 = requests w ++ [mkRequest url key text model]
    /\ sleeps w1 = sleeps w ++ [retry_delay cfg].
Proof.
  intros Hretry Hdelay Hlt Hkey Hfail.
  rewrite make_api_call_loop_unfold. cbv zeta.
  destruct (Z.ltb_spec a (max_retries cfg)); [|lia].
  assert (Ekey : exists w1,
    (match headers with
     | Some api_key => (Returns api_key, w)
     | None => get_next_api_key cfg w
     end) = (Returns key, w1)
    /\ requests w1 = requests w /\ sleeps w1 = sleeps w).
  { destruct headers as [k|]; simpl in Hkey.
    - injection Hkey as ->. eauto.
    - unfold get_next_api_key. rewrite Hkey. eauto. }
  destruct Ekey as (w1 & -> & Hr1 & Hs1). rewrite Hr1.
  unfold count_and_sleep, on_exception. rewrite Hretry.
  rewrite !(sleep_returns cfg) by exact Hdelay. simpl.
  destruct (http env (length (requests w)) (mkRequest url key text model))
    as [response|] eqn:Ehttp; simpl in Hfail.
  - apply negb_true_iff in Hfail. rewrite Hfail.
    destruct ((status_code response =? 429) || (status_code response =? 401))%Z.
    + destruct (get_next_api_key cfg _) as [[key'|e] w3] eqn:Enext.
      * pose proof (get_next_api_key_frame cfg
                      (set_requests (requests w ++ [mkRequest url key text model]) w1))
          as (Hr & Hs & _).
        rewrite Enext in Hr, Hs. simpl in Hr, Hs.
        rewrite (sleep_returns cfg) by exact Hdelay.
        eexists _, _. split; [reflexivity|]. simpl. rewrite Hr, Hs, Hs1. auto.
      * apply get_next_api_key_raises_cursor in Enext. destruct Enext as [-> _].
        rewrite (sleep_returns cfg) by exact Hdelay.
        eexists _, _. split; [reflexivity|]. simpl. rewrite Hs1. auto.
    + eexists _, _. split; [reflexivity|]. simpl. rewrite Hs1. auto.
  - eexists _, _. split; [reflexivity|]. simpl. rewrite Hs1. auto.
Qed.

(** C1. [make_api_call] always ends and sends at most [max_retries]
    requests.  With a delay that is not negative it returns; with retrying
    enabled each failed attempt (status 429 or 401, another status that is
    not 200, or an exception) then moves the loop on by exactly one
    attempt; and when every attempt fails it sends exactly [max_retries]
    requests and returns no response. *)
Theorem make_api_call_retry_bound `{AudioLib} (env : Env) (cfg : Config)
    (url text model : string) (headers : option string) (w : World) :
  (0 <= max_retries cfg)%Z ->
  (exists res w' new,
     make_api_call env cfg url text model headers w = Some (res, w')
     /\ requests w' = requests w ++ new
     /\ (Z.of_nat (length new) <= max_retries cfg)%Z
     /\ ((0 <= retry_delay cfg)%Z ->
         exists r,
           res = Returns r
           /\ (retry_failed_calls cfg = true -> cursor_valid cfg w ->
               always_fails env ->
               Z.of_nat (length new) = max_retries cfg /\ fst r = None)))
  /\ (forall fuel a hdrs (w0 : World) key,
        retry_failed_calls cfg = true ->
        (0 <= retry_delay cfg)%Z ->
        (a < max_retries cfg)%Z ->
        attempt_key cfg hdrs w0 = Some key ->
        is_failure (http env (length (requests w0))
                      (mkRequest url key text model)) = true ->
        exists hdrs' w1,
          make_api_call_loop env cfg (S fuel) url text model hdrs a w0
          = make_api_call_loop env cfg fuel url text model hdrs' (a + 1)%Z w1
          /\ requests w1 = requests w0 ++ [mkRequest url key text model]
          /\ sleeps w1 = sleeps w0 ++ [retry_delay cfg]).
Proof.
  intros Hmax. split.
  - destruct (make_api_call_loop_spec env cfg (S (Z.to_nat (max_retries cfg)))
                url text model 0%Z headers w ltac:(lia))
      as (res & w' & new & Hrun & Hreq & Hlen & Hall).
    exists res, w', new. split; [exact Hrun|]. split; [exact Hreq|].
    split; [lia|]. intros Hdelay.
    destruct (Hall Hdelay) as (r & -> & Hfails).
    exists r. split; [reflexivity|]. intros Hretry Hv Hfail.
    destruct (Hfails Hretry Hv Hfail) as (Hn & Hr & _).
    split; [lia | exact Hr].
  - intros fuel a hdrs w0 key. apply failed_attempt_step.
Qed.

Lemma refusing_env_always_fails : always_fails (refusing_env 500).
Proof. intros n req. reflexivity. Qed.

Lemma make_api_call_retry_bound_witness :
  exists r w' new,
    make_api_call (refusing_env 500) sample_config "u" "Hello" "m" None
                  empty_world = Some (Returns r, w')
    /\ requests w' = requests empty_world ++ new
    /\ Z.of_nat (length new) = 3%Z
    /\ fst r = None.
Proof.
  destruct (proj1 (make_api_call_retry_bound (refusing_env 500) sample_config
                     "u" "Hello" "m" None empty_world ltac:(simpl; lia)))
    as (res & w' & new & Hrun & Hreq & _ & Hall).
  destruct (Hall ltac:(simpl; lia)) as (r & -> & Hfails).
  exists r, w', new. split; [exact Hrun|]. split; [exact Hreq|].
  apply Hfails;
    [reflexivity | unfold cursor_valid; simpl; lia
    | exact refusing_env_always_fails].
Defined.

Example make_api_call_all_refused :
  (fun res => match res with
              | Some (Returns r, w') =>
                  (fst r, snd r, length (requests w'), sleeps w')
              | _ => (None, None, O, [])
              end)
    (make_api_call (refusing_env 429) sample_config "u" "Hello" "m" None
                   empty_world)
  = (None, Some "sk-alpha-0001", 3%nat, [2; 2; 2]%Z).
Proof. vm_compute. reflexivity. Qed.

(** With a negative delay the sleep after the first refusal raises, and so
    does the sleep of the handler: the call raises after one request. *)
Example make_api_call_negative_delay :
  (fun res => match res with
              | Some (r, w') => (r, length (requests w'))
              | None => (Raises IndexError, O)
              end)
    (make_api_call (refusing_env 429) negative_delay_config "u" "Hello" "m"
                   None empty_world)
  = (Raises ValueError, 1%nat).
Proof. vm_compute. reflexivity. Qed.

Example make_api_call_offline :
  (fun res => match res with
              | Some (Returns r, w') =>
                  (fst r, snd r, length (requests w'), sleeps w')
              | _ => (None, None, O, [])
              end)
    (make_api_call offline_env sample_config "u" "Hello" "m" None empty_world)
  = (None, Some "sk-alpha-0001", 3%nat, [2; 2; 2]%Z).
Proof. vm_compute. reflexivity. Qed.

(** ** Timeline assembly *)

Section TimelineFacts.
Context `{AudioLib}.
Local Open Scope Z_scope.

Lemma add_sfx_short cfg (podcast sfx : AudioSegment.t) :
  len podcast <= 2000 -> add_sfx cfg podcast sfx = podcast ++ sfx.
Proof.
  intros Hp. unfold add_sfx.
  destruct (Z.gtb_spec (len podcast) 2000); [lia|].
  rewrite andb_false_r. reflexivity.
Qed.

Lemma add_sfx_no_overlap cfg (podcast sfx : AudioSegment.t) :
  sfx_overlap cfg = false -> add_sfx cfg podcast sfx = podcast ++ sfx.
Proof. intros Hno. unfold add_sfx. rewrite Hno. reflexivity. Qed.

(** The cut two seconds before the end of a timeline falls inside it. *)
Lemma tail_start (podcast : AudioSegment.t) :
  len podcast > 2000 ->
  0 <= frame_at (len podcast - 2000) < AudioSegment.frame_count podcast.
Proof.
  intros Hp. pose proof (frame_at_len podcast) as Hend.
  pose proof (frame_at_add (len podcast - 2000)) as Hadd.
  replace (len podcast - 2000 + 2000) with (len podcast) in Hadd by lia.
  pose proof (frame_at_nonneg (len podcast - 2000) ltac:(lia)). lia.
Qed.

(** The tail that an effect is mixed onto has the 22050 frames of two
    seconds. *)
Lemma tail_frames (podcast : AudioSegment.t) :
  len podcast > 2000 ->
  AudioSegment.frame_count
    (AudioSegment.slice_from podcast (len podcast - 2000)) = frame_at 2000.
Proof.
  intros Hp. pose proof (tail_start podcast Hp) as Hs.
  rewrite slice_from_frames by lia.
  pose proof (frame_at_add (len podcast - 2000)) as Hadd.
  replace (len podcast - 2000 + 2000) with (len podcast) in Hadd by lia.
  rewrite Hadd. change (frame_at 2000) with 22050. lia.
Qed.

Lemma tail_len (podcast : AudioSegment.t) :
  len podcast > 2000 ->
  len (AudioSegment.slice_from podcast (len podcast - 2000)) = 2000.
Proof. intros Hp. apply len_frame_at; [lia | apply tail_frames, Hp]. Qed.

Lemma add_sfx_overlay cfg (podcast sfx : AudioSegment.t) :
  sfx_overlap cfg = true -> len podcast > 2000 ->
  add_sfx cfg podcast sfx
  = take (Z.to_nat (frame_at (len podcast - 2000))) podcast
    ++ AudioSegment.mix_onto
         (AudioSegment.slice_from podcast (len podcast - 2000))
         (if len sfx >? 2000 then AudioSegment.slice_to sfx 2000 else sfx).
Proof.
  intros Hon Hp. unfold add_sfx. rewrite Hon.
  destruct (Z.gtb_spec (len podcast) 2000); [|lia]. simpl.
  pose proof (tail_start podcast Hp) as Hs.
  rewrite (slice_to_take podcast (len podcast - 2000)) by lia.
  rewrite (tail_len podcast Hp). unfold AudioSegment.overlay.
  rewrite slice_from_0; [reflexivity|].
  rewrite (tail_len podcast Hp). apply tail_frames, Hp.
Qed.

Lemma add_sfx_overlay_frames cfg (podcast sfx : AudioSegment.t) :
  sfx_overlap cfg = true -> len podcast > 2000 ->
  AudioSegment.frame_count (add_sfx cfg podcast sfx) = frame_at (len podcast).
Proof.
  intros Hon Hp. rewrite add_sfx_overlay by assumption.
  pose proof (tail_start podcast Hp) as Hs.
  pose proof (tail_frames podcast Hp) as Ht.
  pose proof (frame_at_add (len podcast - 2000)) as Hadd.
  replace (len podcast - 2000 + 2000) with (len podcast) in Hadd by lia.
  unfold AudioSegment.frame_count in *.
  rewrite length_app, mix_onto_length, length_take.
  change (frame_at 2000) with 22050 in Ht. lia.
Qed.

Lemma add_sfx_overlay_len cfg (podcast sfx : AudioSegment.t) :
  sfx_overlap cfg = true -> len podcast > 2000 ->
  len (add_sfx cfg podcast sfx) = len podcast.
Proof.
  intros Hon Hp. pose proof (len_nonneg podcast).
  apply len_frame_at; [lia | apply add_sfx_overlay_frames; assumption].
Qed.

End TimelineFacts.

(** ** The pipeline *)

Section PipelineFacts.
Context `{AudioLib}.
Variable env : Env.
Variable cfg : Config.
Local Open Scope Z_scope.

Lemma same_stores_refl (w : World) : same_stores w w.
Proof. repeat split. Qed.

Lemma same_stores_trans (w w1 w2 : World) :
  same_stores w w1 -> same_stores w1 w2 -> same_stores w w2.
Proof. unfold same_stores. intros (?&?&?&?) (?&?&?&?). repeat split; congruence. Qed.

Lemma same_stores_next (w : World) :
  same_stores w (snd (get_next_api_key cfg w)).
Proof.
  unfold get_next_api_key. destruct (api_keys cfg !! current_index w);
    repeat split.
Qed.

Lemma make_api_call_total url text model headers (w : World) :
  exists res w', make_api_call env cfg url text model headers w = Some (res, w').
Proof.
  destruct (make_api_call_loop_spec env cfg (S (Z.to_nat (max_retries cfg)))
              url text model 0 headers w ltac:(lia)) as (r & w' & new & Hrun & _).
  eauto.
Qed.

Lemma same_stores_sleep (w : World) : same_stores w (snd (sleep cfg w)).
Proof. unfold sleep. destruct (retry_delay cfg <? 0); repeat split. Qed.

(** The loop changes neither cache, log nor exports; it returns a response
    only with status 200 and then with the key that was sent. *)
Lemma make_api_call_loop_frame fuel url text model :
  forall a headers (w : World) res w',
    make_api_call_loop env cfg fuel url text model headers a w = Some (res, w') ->
    call_frame env w res w'.
Proof.
  induction fuel as [|fuel IH]; intros a headers w res w' Hrun; [discriminate|].
  rewrite make_api_call_loop_unfold in Hrun. cbv zeta in Hrun.
  set (next := make_api_call_loop env cfg fuel url text model) in *.
  assert (Hrec : forall headers1 att (w1 : World),
    same_stores w w1 ->
    next headers1 att w1 = Some (res, w') -> call_frame env w res w').
  { intros headers1 att w1 Hs Hr. apply IH in Hr. destruct Hr as (Hs' & Hrest).
    split; [|exact Hrest]. eapply same_stores_trans; [exact Hs|exact Hs']. }
  assert (Hnone : forall headers1 (w1 : World),
    same_stores w w1 ->
    Some (Returns (@None Response, headers1), w1) = Some (res, w') ->
    call_frame env w res w').
  { intros headers1 w1 Hs [= <- <-]. split; [exact Hs|].
    split; [intros r response [= <-]; discriminate
           | intros _ r [= <-]; reflexivity]. }
  assert (Hraise : forall e (w1 : World),
    same_stores w w1 ->
    Some (@Raises CallResult e, w1) = Some (res, w') ->
    call_frame env w res w').
  { intros e w1 Hs [= <- <-]. split; [exact Hs|].
    split; [intros r response; discriminate | intros _ r; discriminate]. }
  assert (Hexc : forall headers1 att (w1 : World),
    same_stores w w1 ->
    on_exception cfg next headers1 att w1 = Some (res, w') ->
    call_frame env w res w').
  { intros headers1 att w1 Hs. unfold on_exception.
    destruct (retry_failed_calls cfg); simpl; [|apply Hnone; exact Hs].
    pose proof (same_stores_sleep w1) as Hsl.
    destruct (sleep cfg w1) as [[u|e] w2]; simpl in Hsl.
    - apply Hrec. eapply same_stores_trans; [exact Hs|exact Hsl].
    - apply Hraise. eapply same_stores_trans; [exact Hs|exact Hsl]. }
  assert (Hcount : forall headers1 (w1 : World),
    same_stores w w1 ->
    count_and_sleep cfg next headers1 a w1 = Some (res, w') ->
    call_frame env w res w').
  { intros headers1 w1 Hs. unfold count_and_sleep.
    pose proof (same_stores_sleep w1) as Hsl.
    destruct (sleep cfg w1) as [[u|e] w2]; simpl in Hsl.
    - apply Hrec. eapply same_stores_trans; [exact Hs|exact Hsl].
    - apply Hexc. eapply same_stores_trans; [exact Hs|exact Hsl]. }
  destruct (a <? max_retries cfg);
    [|apply (Hnone headers w); auto using same_stores_refl].
  destruct (match headers with
            | Some api_key => (Returns api_key, w)
            | None => get_next_api_key cfg w
            end) as [[api_key|e] w1] eqn:Ekey.
  - assert (Hs1 : same_stores w w1).
    { destruct headers as [k|].
      - injection Ekey as <- <-. apply same_stores_refl.
      - pose proof (same_stores_next w) as Hs. rewrite Ekey in Hs. exact Hs. }
    set (req := mkRequest url api_key text model) in *.
    set (w2 := set_requests (requests w1 ++ [req]) w1) in *.
    assert (Hs2 : same_stores w w2) by exact Hs1.
    destruct (http env (length (requests w1)) req) as [response|] eqn:Ehttp.
    + destruct (Z.eqb_spec (status_code response) 200) as [H200|H200].
      * injection Hrun as <- <-. split; [exact Hs2|]. split.
        -- intros r response' [= <-] [= <-]. simpl. eauto.
        -- intros Hfail. specialize (Hfail (length (requests w1)) req).
           rewrite Ehttp in Hfail. simpl in Hfail.
           apply negb_true_iff, Z.eqb_neq in Hfail. contradiction.
      * destruct ((status_code response =? 429) || (status_code response =? 401)).
        -- pose proof (same_stores_next w2) as Hs3.
           destruct (get_next_api_key cfg w2) as [[api_key'|e'] w3];
             simpl in Hs3.
           ++ eapply (Hcount _ w3); [|exact Hrun].
              eapply same_stores_trans; [exact Hs2|exact Hs3].
           ++ eapply (Hexc _ _ w3); [|exact Hrun].
              eapply same_stores_trans; [exact Hs2|exact Hs3].
        -- destruct (retry_failed_calls cfg); simpl in Hrun.
           ++ eapply (Hcount _ w2); [exact Hs2|exact Hrun].
           ++ eapply (Hnone _ w2); [exact Hs2|exact Hrun].
    + eapply (Hexc _ _ w2); [exact Hs2|exact Hrun].
  - assert (Hs1 : same_stores w w1).
    { destruct headers as [k|]; [discriminate|].
      pose proof (same_stores_next w) as Hs. rewrite Ekey in Hs. exact Hs. }
    eapply (Hexc _ _ w1); [exact Hs1|exact Hrun].
Qed.

Lemma charge_and_decode_total response api_key chars operation (w : World) :
  exists a w', charge_and_decode env response api_key chars operation w
               = Some (a, w')
               /\ sfx_cache w' = sfx_cache w /\ exported w' = exported w.
Proof.
  unfold charge_and_decode. destruct api_key as [k|]; [|unfold ret; eauto].
  unfold bind, lift, ret. destruct (content response); eauto.
Qed.

(** [synthesize] with the outcome of its call to [make_api_call]. *)
Lemma synthesize_cases text speaker (w : World) :
  (PyStr.strip text = EmptyString
   /\ synthesize env cfg text speaker w = Some (None, w))
  \/ (PyStr.strip text <> EmptyString
      /\ exists res w1 a w',
           make_api_call env cfg (speech_url cfg speaker) text (voice_model cfg)
                         None w = Some (res, w1)
           /\ synthesize env cfg text speaker w = Some (a, w')
           /\ exported w' = exported w
           /\ ((forall r, res = Returns r -> fst r = None) ->
               a = None /\ w' = w1)).
Proof.
  unfold synthesize.
  destruct (PyStr.strip text) as [|c0 s0] eqn:Estrip; [left; auto|right].
  split; [discriminate|]. cbv zeta.
  destruct (make_api_call_total (speech_url cfg speaker) text (voice_model cfg)
              None w) as (res & w1 & Hcall).
  pose proof (make_api_call_loop_frame _ _ _ _ _ _ _ _ _ Hcall) as ((_&_&_&Hex) & _).
  exists res, w1. unfold bind. rewrite Hcall.
  destruct res as [[[response|] key]|e].
  - destruct (response_ok response).
    + destruct (charge_and_decode_total response key (py_len text)
                  "speech_synthesis" w1) as (a & w' & -> & _ & Hex').
      destruct a; unfold ret; eexists _, _; (split; [reflexivity|]);
        (split; [reflexivity|]); (split; [congruence|]);
        intros Hn; specialize (Hn _ eq_refl); discriminate.
    + unfold ret. eexists _, _. split; [reflexivity|]. split; [reflexivity|].
      split; [congruence|]. auto.
  - unfold ret. eexists _, _. split; [reflexivity|]. split; [reflexivity|].
    split; [congruence|]. auto.
  - unfold ret. eexists _, _. split; [reflexivity|]. split; [reflexivity|].
    split; [congruence|]. auto.
Qed.

Lemma synthesize_total text speaker (w : World) :
  exists a w', synthesize env cfg text speaker w = Some (a, w')
               /\ exported w' = exported w.
Proof.
  destruct (synthesize_cases text speaker w)
    as [[_ Hs]|(_ & r & w1 & a & w' & _ & Hs & Hex & _)]; eauto.
Qed.

Lemma synthesize_always_fails text speaker (w : World) :
  always_fails env ->
  exists w', synthesize env cfg text speaker w = Some (None, w')
             /\ same_stores w w'.
Proof.
  intros Hfail.
  destruct (synthesize_cases text speaker w)
    as [[_ Hs]|(_ & r & w1 & a & w' & Hcall & Hs & _ & Hnone)].
  - exists w. split; [exact Hs | apply same_stores_refl].
  - pose proof (make_api_call_loop_frame _ _ _ _ _ _ _ _ _ Hcall)
      as (Hst & _ & Hr).
    destruct (Hnone (Hr Hfail)) as [-> ->]. eauto.
Qed.

(** [generate_sfx] with the outcome of its call to [make_api_call]. *)
Lemma generate_sfx_cases effect duration (w : World) :
  exists a w',
    generate_sfx env cfg effect duration w = Some (a, w')
    /\ exported w' = exported w
    /\ (forall clip, sfx_cache w !! cache_key_of cfg effect duration = Some clip ->
          a = Some clip /\ w' = w)
    /\ (sfx_cache w !! cache_key_of cfg effect duration = None ->
        sfx_prompts cfg !! PyStr.lower effect = None -> a = None /\ w' = w)
    /\ (sfx_cache w !! cache_key_of cfg effect duration = None ->
        forall prompt, sfx_prompts cfg !! PyStr.lower effect = Some prompt ->
        exists res w1,
          make_api_call env cfg sfx_url (enhanced_prompt_of prompt)
                        (sfx_model cfg) None w = Some (res, w1)
          /\ ((forall r, res = Returns r -> fst r = None) ->
              a = None /\ w' = w1)).
Proof.
  unfold generate_sfx, cache_key_of.
  set (key := effect +:+ "_" +:+ pretty (default (default_duration cfg) duration)).
  destruct (sfx_cache w !! key) as [clip|] eqn:Ecache.
  { exists (Some clip), w. repeat split; try congruence; try discriminate.
    all: intros clip' [= <-]; reflexivity. }
  destruct (sfx_prompts cfg !! PyStr.lower effect) as [prompt|] eqn:Eprompt.
  2:{ exists None, w. repeat split; try discriminate. }
  cbv zeta. set (enhanced := enhanced_prompt_of prompt).
  destruct (make_api_call_total sfx_url enhanced (sfx_model cfg) None w)
    as (res & w1 & Hcall).
  pose proof (make_api_call_loop_frame _ _ _ _ _ _ _ _ _ Hcall) as ((_&_&_&Hex) & _).
  assert (Hgoal : forall a w',
    exported w' = exported w ->
    ((forall r, res = Returns r -> fst r = None) -> a = None /\ w' = w1) ->
    Some (a, w') = Some (a, w')
    /\ exported w' = exported w
    /\ (forall clip, @None AudioSegment.t = Some clip -> a = Some clip /\ w' = w)
    /\ (@None AudioSegment.t = None -> Some prompt = None -> a = None /\ w' = w)
    /\ (@None AudioSegment.t = None ->
        forall prompt0, Some prompt = Some prompt0 ->
        exists res0 w0,
          make_api_call env cfg sfx_url
            (enhanced_prompt_of prompt0) (sfx_model cfg)
            None w = Some (res0, w0)
          /\ ((forall r, res0 = Returns r -> fst r = None) ->
              a = None /\ w' = w0))).
  { intros a w' Hex' Hnone. split; [reflexivity|]. split; [exact Hex'|].
    split; [discriminate|]. split; [discriminate|].
    intros _ prompt0 [= <-]. exists res, w1. split; [exact Hcall|exact Hnone]. }
  unfold bind. rewrite Hcall.
  destruct res as [[[response|] sent_key]|e].
  2:{ exists None, w1. apply Hgoal; auto. }
  2:{ exists None, w1. apply Hgoal; auto. }
  assert (Hsome : forall (a : option AudioSegment.t) (w' : World),
            (forall r, Returns (Some response, sent_key) = Returns r -> fst r = None) ->
            a = None /\ w' = w1).
  { intros a w' Hn. specialize (Hn _ eq_refl). discriminate. }
  destruct (response_ok response).
  2:{ exists None, w1. apply Hgoal; [exact Hex|auto]. }
  destruct (charge_and_decode_total response sent_key (py_len enhanced)
              "sfx_generation" w1) as (a & w2 & -> & _ & Hex2).
  destruct a as [sfx|e].
  2:{ exists None, w2. apply Hgoal; [congruence|apply Hsome]. }
  destruct (fit _ _) as [sfx'|e].
  2:{ exists None, w2. apply Hgoal; [congruence|apply Hsome]. }
  unfold lift, ret. eexists _, _. apply Hgoal; [simpl; congruence|apply Hsome].
Qed.

Lemma generate_sfx_always_fails effect duration (w : World) :
  always_fails env -> sfx_cache w = ∅ ->
  exists w', generate_sfx env cfg effect duration w = Some (None, w')
             /\ same_stores w w'.
Proof.
  intros Hfail Hempty.
  destruct (generate_sfx_cases effect duration w)
    as (a & w' & Hrun & _ & _ & Hunknown & Hcall).
  assert (Hc : sfx_cache w !! cache_key_of cfg effect duration = None)
    by (rewrite Hempty; apply lookup_empty).
  destruct (sfx_prompts cfg !! PyStr.lower effect) as [prompt|] eqn:Eprompt.
  - destruct (Hcall Hc prompt eq_refl) as (res & w1 & Hmk & Hnone).
    pose proof (make_api_call_loop_frame _ _ _ _ _ _ _ _ _ Hmk)
      as (Hst & _ & Hr).
    destruct (Hnone (Hr Hfail)) as [-> ->]. eauto.
  - destruct (Hunknown Hc eq_refl) as [-> ->].
    exists w. split; [exact Hrun | apply same_stores_refl].
Qed.

Lemma chunk_audio_total chunk (w : World) :
  exists a w', chunk_audio env cfg chunk w = Some (a, w')
               /\ exported w' = exported w.
Proof.
  destruct chunk as [speaker text|effect]; simpl.
  - apply synthesize_total.
  - destruct (generate_sfx_cases effect None w) as (a & w' & Hrun & Hex & _).
    eauto.
Qed.

Lemma chunk_audio_always_fails chunk (w : World) :
  always_fails env -> sfx_cache w = ∅ ->
  exists w', chunk_audio env cfg chunk w = Some (None, w')
             /\ sfx_cache w' = ∅.
Proof.
  intros Hfail Hempty. destruct chunk as [speaker text|effect]; simpl.
  - destruct (synthesize_always_fails text speaker w Hfail) as (w' & Hrun & Hs & _).
    exists w'. split; [exact Hrun | congruence].
  - destruct (generate_sfx_always_fails effect None w Hfail Hempty)
      as (w' & Hrun & Hs & _).
    exists w'. split; [exact Hrun | congruence].
Qed.

(** One iteration of the chunk loop, given what the synthesizer returned. *)
Lemma process_chunk_eq podcast chunk (w : World) audio w1 :
  chunk_audio env cfg chunk w = Some (audio, w1) ->
  process_chunk env cfg podcast chunk w
  = Some ((match chunk, usable audio with
           | Dialogue _ _, Some audio => add_dialogue podcast audio
           | Sfx _, Some sfx_clip => add_sfx cfg podcast sfx_clip
           | _, None => podcast
           end) ++ silent (silence_between_chunks cfg), w1).
Proof. intros Hrun. unfold process_chunk, bind, ret. rewrite Hrun. reflexivity. Qed.

Lemma process_chunk_skips podcast chunk (w : World) audio w1 :
  chunk_audio env cfg chunk w = Some (audio, w1) ->
  usable audio = None ->
  process_chunk env cfg podcast chunk w
  = Some (podcast ++ silent (silence_between_chunks cfg), w1).
Proof.
  intros Hrun Hno. rewrite (process_chunk_eq _ _ _ _ _ Hrun), Hno.
  destruct chunk; reflexivity.
Qed.

Lemma process_chunk_total podcast chunk (w : World) :
  exists body w',
    process_chunk env cfg podcast chunk w
    = Some (body ++ silent (silence_between_chunks cfg), w')
    /\ exported w' = exported w.
Proof.
  destruct (chunk_audio_total chunk w) as (a & w' & Hrun & Hex).
  rewrite (process_chunk_eq _ _ _ _ _ Hrun). eauto.
Qed.

Lemma process_chunks_total chunks : forall podcast (w : World),
  exists timeline w',
    process_chunks env cfg podcast chunks w = Some (timeline, w')
    /\ exported w' = exported w.
Proof.
  induction chunks as [|chunk rest IH]; intros podcast w; simpl.
  - unfold ret. eauto.
  - destruct (process_chunk_total podcast chunk w) as (body & w1 & Hrun & Hex).
    unfold bind. rewrite Hrun.
    destruct (IH (body ++ silent (silence_between_chunks cfg)) w1)
      as (timeline & w' & Hrest & Hex').
    exists timeline, w'. split; [exact Hrest | congruence].
Qed.

(** [generate] on a script with chunks runs the loop to its end and then
    exports; its result is that of the export. *)
Lemma generate_exports script output_file (w : World) :
  ScriptParser.parse script <> [] ->
  exists timeline w1,
    process_chunks env cfg (silent (intro_silence cfg))
                   (ScriptParser.parse script) w = Some (timeline, w1)
    /\ exported w1 = exported w
    /\ generate env cfg script output_file w
       = export env output_file (final_timeline cfg timeline) w1.
Proof.
  intros Hne. unfold generate.
  destruct (process_chunks_total (ScriptParser.parse script)
              (silent (intro_silence cfg)) w) as (timeline & w1 & Hrun & Hex).
  exists timeline, w1. split; [exact Hrun|]. split; [exact Hex|].
  destruct (ScriptParser.parse script) as [|chunk rest]; [congruence|].
  unfold bind. rewrite Hrun. reflexivity.
Qed.

(** The timeline of a run in which no chunk yields audio: one trailing
    silence for every chunk. *)
Lemma failing_run_timeline chunks : forall podcast (w w' : World),
  failing_run env cfg chunks w w' ->
  process_chunks env cfg podcast chunks w
  = Some (podcast
          ++ AudioSegment.repeat_nat (silent (silence_between_chunks cfg))
               (length chunks), w').
Proof.
  induction chunks as [|chunk rest IH]; intros podcast w w' Hrun;
    inversion Hrun; subst; simpl.
  - rewrite app_nil_r. reflexivity.
  - unfold bind.
    rewrite (process_chunk_skips podcast chunk w audio w1) by assumption.
    rewrite (IH (podcast ++ silent (silence_between_chunks cfg)) w1 w')
      by assumption.
    rewrite <- app_assoc. reflexivity.
Qed.

Lemma always_fails_failing_run chunks : forall (w : World),
  always_fails env -> sfx_cache w = ∅ ->
  exists w', failing_run env cfg chunks w w'.
Proof.
  induction chunks as [|chunk rest IH]; intros w Hfail Hempty.
  - exists w. constructor.
  - destruct (chunk_audio_always_fails chunk w Hfail Hempty) as (w1 & Hrun & He).
    destruct (IH w1 Hfail He) as (w' & Hrest).
    exists w'. econstructor; [exact Hrun | reflexivity | exact Hrest].
Qed.

End PipelineFacts.

Lemma parse_lines_without_content lines :
  forallb blank_or_speaker lines = true -> ScriptParser.parse_lines lines = [].
Proof.
  unfold ScriptParser.parse_lines. intros Hall.
  assert (Hinv : forall st,
    ScriptParser.chunks st = [] -> ScriptParser.buffer st = [] ->
    ScriptParser.chunks (fold_left ScriptParser.parse_line lines st) = []
    /\ ScriptParser.buffer (fold_left ScriptParser.parse_line lines st) = []).
  { induction lines as [|raw rest IH]; intros st Hc Hb; simpl; [auto|].
    simpl in Hall. apply andb_prop in Hall. destruct Hall as [Hraw Hrest].
    apply IH; [exact Hrest| |]; unfold ScriptParser.parse_line;
      unfold blank_or_speaker in Hraw;
      destruct (PyStr.strip raw) as [|c0 s0]; auto;
      destruct (ScriptParser.speaker_match (String c0 s0)); try discriminate;
      simpl; rewrite ?flush_empty by exact Hb; assumption. }
  destruct (Hinv ScriptParser.initial eq_refl eq_refl) as [Hc Hb].
  rewrite flush_empty by exact Hb. exact Hc.
Qed.

(** C10. When [parse] returns no chunk, [generate] returns [False] at once
    and leaves the state as it was: no request is sent, nothing is slept,
    logged or exported.  A script whose lines are all blank or speaker tags
    parses to no chunk. *)
Theorem generate_without_chunks `{AudioLib} (env : Env) (cfg : Config)
    (script output_file : string) (w : World) :
  (ScriptParser.parse script = [] ->
   generate env cfg script output_file w = Some (false, w))
  /\ (forallb blank_or_speaker (PyStr.readlines script) = true ->
      ScriptParser.parse script = []
      /\ generate env cfg script output_file w = Some (false, w)).
Proof.
  assert (Hgen : ScriptParser.parse script = [] ->
                 generate env cfg script output_file w = Some (false, w)).
  { intros Hparse. unfold generate. rewrite Hparse. reflexivity. }
  split; [exact Hgen|]. intros Hall.
  assert (Hparse : ScriptParser.parse script = [])
    by (apply parse_lines_without_content; exact Hall).
  split; [exact Hparse | exact (Hgen Hparse)].
Qed.

Lemma generate_without_chunks_witness :
  generate sample_env sample_config blank_script "out.mp3" empty_world
  = Some (false, empty_world)
  /\ generate sample_env sample_config tags_only_script "out.mp3" empty_world
     = Some (false, empty_world).
Proof.
  split.
  - apply (proj1 (generate_without_chunks sample_env sample_config blank_script
                    "out.mp3" empty_world)).
    reflexivity.
  - apply (proj2 (generate_without_chunks sample_env sample_config
                    tags_only_script "out.mp3" empty_world)).
    reflexivity.
Defined.



Example generate_offline_still_exports :
  (fun res => match res with
              | Some (ok, w') =>
                  (ok, length (requests w'),
                   map (fun f => (fst f, len (snd f))) (exported w'))
              | None => (false, O, [])
              end)
    (generate offline_env sample_config failing_script "out.mp3" empty_world)
  = (true, 9%nat, [("out.mp3", 1300%Z)]).
Proof. vm_compute. reflexivity. Qed.

(** ** The chunk loop of the first program *)

Section V1Facts.
Context `{AudioLib}.
Variable env : V1.Env.
Variable api_keys : list string.
Variable voice_mapping : gmap string string.
Local Open Scope Z_scope.

Lemma v1_process_chunk_skips podcast chunk (w : V1.World) audio w1 :
  V1.chunk_audio env api_keys voice_mapping chunk w = (Returns audio, w1) ->
  V1.usable audio = None ->
  V1.process_chunk env api_keys voice_mapping podcast chunk w
  = (Returns (podcast ++ silent 200), w1).
Proof.
  intros Hrun Hno. unfold V1.process_chunk. rewrite Hrun, Hno.
  destruct chunk; reflexivity.
Qed.

Lemma v1_process_chunk_gap podcast chunk (w : V1.World) timeline w1 :
  V1.process_chunk env api_keys voice_mapping podcast chunk w
  = (Returns timeline, w1) ->
  exists body, timeline = body ++ silent 200.
Proof.
  unfold V1.process_chunk.
  destruct (V1.chunk_audio env api_keys voice_mapping chunk w) as [[audio|e] w2];
    [|discriminate].
  intros [= <- <-]. eauto.
Qed.

Lemma v1_failing_run_timeline chunks : forall podcast (w w' : V1.World),
  V1.failing_run env api_keys voice_mapping chunks w w' ->
  V1.process_chunks env api_keys voice_mapping podcast chunks w
  = (Returns (podcast ++ AudioSegment.repeat_nat (silent 200) (length chunks)),
     w').
Proof.
  induction chunks as [|chunk rest IH]; intros podcast w w' Hrun;
    inversion Hrun; subst; simpl.
  - rewrite app_nil_r. reflexivity.
  - rewrite (v1_process_chunk_skips podcast chunk w audio w1) by assumption.
    rewrite (IH (podcast ++ silent 200) w1 w') by assumption.
    rewrite <- app_assoc. reflexivity.
Qed.

(** With every request failing, no effect file and a valid cursor, no
    chunk yields audio. *)
Lemma v1_chunk_audio_fails chunk (w : V1.World) :
  V1.always_fails env -> V1.sfx_files env = [] ->
  is_Some (voice_mapping !! "Default") ->
  (V1.current_index w < length api_keys)%nat -> V1.sfx_cache w = ∅ ->
  exists w1,
    V1.chunk_audio env api_keys voice_mapping chunk w = (Returns None, w1)
    /\ (V1.current_index w1 < length api_keys)%nat /\ V1.sfx_cache w1 = ∅.
Proof.
  intros Hfail Hfiles [fallback Hvoice] Hcur Hcache.
  destruct chunk as [speaker text|effect]; simpl.
  - unfold V1.synthesize.
    destruct (PyStr.strip text) as [|c0 s0]; [eauto|].
    unfold V1.get_next_api_key.
    destruct (lookup_lt_is_Some_2 _ _ Hcur) as [key ->].
    rewrite Hvoice. cbv zeta.
    match goal with
    | |- context [V1.http env ?n ?req] =>
        pose proof (Hfail n req) as Hf; destruct (V1.http env n req) as [r|]
    end.
    + simpl in Hf. apply negb_true_iff in Hf. rewrite Hf.
      eexists. split; [reflexivity|]. simpl.
      split; [apply Nat.mod_upper_bound; lia | exact Hcache].
    + eexists. split; [reflexivity|]. simpl.
      split; [apply Nat.mod_upper_bound; lia | exact Hcache].
  - unfold V1.get_sfx_clip, V1.effect_files.
    rewrite Hcache, lookup_empty, Hfiles. simpl. eauto.
Qed.

Lemma v1_always_fails_failing_run chunks : forall (w : V1.World),
  V1.always_fails env -> V1.sfx_files env = [] ->
  is_Some (voice_mapping !! "Default") ->
  (V1.current_index w < length api_keys)%nat -> V1.sfx_cache w = ∅ ->
  exists w', V1.failing_run env api_keys voice_mapping chunks w w'.
Proof.
  induction chunks as [|chunk rest IH]; intros w Hfail Hfiles Hvoice Hcur Hcache.
  - exists w. constructor.
  - destruct (v1_chunk_audio_fails chunk w Hfail Hfiles Hvoice Hcur Hcache)
      as (w1 & Hrun & Hcur1 & Hcache1).
    destruct (IH w1 Hfail Hfiles Hvoice Hcur1 Hcache1) as (w' & Hrest).
    exists w'. econstructor; [exact Hrun | reflexivity | exact Hrest].
Qed.

End V1Facts.

Example v1_generate_offline :
  (fun res => (fst res, length (V1.requests (snd res)),
               map (fun f => (fst f, len (snd f))) (V1.exported (snd res))))
    (V1.generate v1_offline_env (api_keys sample_config) v1_voices
       failing_script "out.mp3" v1_empty_world)
  = (Returns true, 2%nat, [("out.mp3", 1300%Z)]).
Proof. vm_compute. reflexivity. Qed.

(** In the first program an effect file that decodes to an empty clip makes
    [generate] raise; in the second [generate_sfx] catches the error. *)
Example v1_generate_empty_effect_raises :
  fst (V1.generate v1_empty_effect_env (api_keys sample_config) v1_voices
         script_example "out.mp3" v1_empty_world)
  = Raises ZeroDivisionError.
Proof. vm_compute. reflexivity. Qed.

Example generate_sfx_empty_clip_is_skipped :
  (fun res => match res with
              | Some (a, w') => (a, length (requests w'), sfx_cache w')
              | None => (None, O, ∅)
              end)
    (generate_sfx empty_audio_env sample_config "door" None empty_world)
  = (None, 1%nat, ∅).
Proof. vm_compute. reflexivity. Qed.

(** ** Runs of skipped chunks *)

Section SilentRuns.
Context `{AudioLib}.
Local Open Scope Z_scope.

Lemma mul_of_nat (seg : AudioSegment.t) (n : nat) :
  AudioSegment.mul seg (Z.of_nat n) = AudioSegment.repeat_nat seg n.
Proof. unfold AudioSegment.mul. rewrite Nat2Z.id. reflexivity. Qed.

Lemma silent_run_frames (a b : AudioSegment.t) (n : nat) :
  AudioSegment.frame_count (a ++ AudioSegment.repeat_nat b n)
  = AudioSegment.frame_count a + Z.of_nat n * AudioSegment.frame_count b.
Proof.
  unfold AudioSegment.frame_count. rewrite length_app, repeat_nat_length. lia.
Qed.

(** In whole milliseconds a lead-in silence with [n] silences after it is
    never longer than the settings add up to. *)
Lemma silent_run_len_le intro gap (n : nat) :
  0 <= intro -> 0 <= gap ->
  len (silent intro ++ AudioSegment.repeat_nat (silent gap) n)
  <= intro + Z.of_nat n * gap.
Proof.
  intros Hi Hg. apply len_le_of_frames.
  rewrite silent_run_frames, !silent_frames, !Z.max_r by lia.
  pose proof (frame_at_le intro Hi). pose proof (frame_at_le gap Hg). nia.
Qed.

(** With silences of 500 and 200 ms it is exactly as long. *)
Lemma silent_run_len_default (n : nat) :
  len (silent 500 ++ AudioSegment.repeat_nat (silent 200) n)
  = 500 + Z.of_nat n * 200.
Proof.
  apply len_of_frames; rewrite silent_run_frames, !silent_frames;
    change (frame_at (Z.max 0 500)) with 5512;
    change (frame_at (Z.max 0 200)) with 2205; lia.
Qed.

End SilentRuns.

(** C9. The trailing silence is added once for every chunk, with or
    without audio: an iteration always ends the timeline with it, and a
    chunk without audio adds nothing else.  A run in which no chunk yields
    audio therefore leaves a timeline of the lead-in silence plus the
    trailing silence times the number of chunks, [silent(intro) +
    silent(gap) * n] in pydub's terms; such runs exist, for instance when
    every request fails and nothing is cached.  The timeline has the frames
    of the lead-in silence and [n] times those of the trailing silence.  In
    whole milliseconds, as [len] rounds them, it lasts at most
    [intro + n * gap], and exactly that with the default silences of 500
    and 200 ms.  The same holds of the first program with its fixed
    silences of 500 and 200 ms. *)
Theorem silence_after_every_chunk `{AudioLib} (env : Env) (cfg : Config) :
  (0 <= intro_silence cfg)%Z -> (0 <= silence_between_chunks cfg)%Z ->
  (forall podcast chunk (w : World),
     exists body w1 audio,
       chunk_audio env cfg chunk w = Some (audio, w1)
       /\ process_chunk env cfg podcast chunk w
          = Some (body ++ silent (silence_between_chunks cfg), w1)
       /\ (usable audio = None -> body = podcast))
  /\ (forall chunks (w w' : World),
        failing_run env cfg chunks w w' ->
        exists timeline,
          process_chunks env cfg (silent (intro_silence cfg)) chunks w
          = Some (timeline, w')
          /\ timeline
             = silent (intro_silence cfg)
               ++ AudioSegment.mul (silent (silence_between_chunks cfg))
                    (Z.of_nat (length chunks))
          /\ AudioSegment.frame_count timeline
             = (AudioSegment.frame_count (silent (intro_silence cfg))
                + Z.of_nat (length chunks)
                  * AudioSegment.frame_count
                      (silent (silence_between_chunks cfg)))%Z
          /\ (len timeline
              <= intro_silence cfg
                 + Z.of_nat (length chunks) * silence_between_chunks cfg)%Z
          /\ (intro_silence cfg = 500%Z -> silence_between_chunks cfg = 200%Z ->
              len timeline = (500 + Z.of_nat (length chunks) * 200)%Z))
  /\ (forall chunks (w : World),
        always_fails env -> sfx_cache w = ∅ ->
        exists w', failing_run env cfg chunks w w')
  /\ (forall (env1 : V1.Env) keys voices podcast chunk (w : V1.World)
             timeline w1,
        V1.process_chunk env1 keys voices podcast chunk w
        = (Returns timeline, w1) ->
        exists body, timeline = body ++ silent 200)
  /\ (forall (env1 : V1.Env) keys voices chunks (w w' : V1.World),
        V1.failing_run env1 keys voices chunks w w' ->
        exists timeline,
          V1.process_chunks env1 keys voices (silent 500) chunks w
          = (Returns timeline, w')
          /\ timeline
             = silent 500
               ++ AudioSegment.mul (silent 200) (Z.of_nat (length chunks))
          /\ len timeline = (500 + Z.of_nat (length chunks) * 200)%Z)
  /\ (forall (env1 : V1.Env) keys voices chunks (w : V1.World),
        V1.always_fails env1 -> V1.sfx_files env1 = [] ->
        is_Some (voices !! "Default") ->
        (V1.current_index w < length keys)%nat -> V1.sfx_cache w = ∅ ->
        exists w', V1.failing_run env1 keys voices chunks w w').
Proof.
  intros Hintro Hgap. split; [|split; [|split; [|split; [|split]]]].
  - intros podcast chunk w.
    destruct (chunk_audio_total env cfg chunk w) as (audio & w1 & Hrun & _).
    eexists _, w1, audio. split; [exact Hrun|].
    split; [apply process_chunk_eq; exact Hrun|].
    intros ->. destruct chunk; reflexivity.
  - intros chunks w w' Hrun. eexists.
    split; [apply failing_run_timeline; exact Hrun|].
    rewrite mul_of_nat. split; [reflexivity|].
    split; [apply silent_run_frames|].
    split; [apply silent_run_len_le; assumption|].
    intros -> ->. apply silent_run_len_default.
  - intros chunks w. apply always_fails_failing_run.
  - intros env1 keys voices podcast chunk w timeline w1.
    apply v1_process_chunk_gap.
  - intros env1 keys voices chunks w w' Hrun. eexists.
    split; [apply v1_failing_run_timeline; exact Hrun|].
    rewrite mul_of_nat. split; [reflexivity|].
    apply silent_run_len_default.
  - intros env1 keys voices chunks w. apply v1_always_fails_failing_run.
Qed.

Lemma silence_after_every_chunk_witness :
  exists w' timeline,
    process_chunks offline_env sample_config
      (silent (intro_silence sample_config))
      (ScriptParser.parse failing_script) empty_world = Some (timeline, w')
    /\ timeline = silent 500 ++ AudioSegment.mul (silent 200) 4
    /\ len timeline = (500 + 4 * 200)%Z.
Proof.
  destruct (silence_after_every_chunk offline_env sample_config
              ltac:(simpl; lia) ltac:(simpl; lia)) as (_ & Hlen & Hex & _).
  destruct (Hex (ScriptParser.parse failing_script) empty_world
              ltac:(intros n req; reflexivity) eq_refl) as (w' & Hrun).
  destruct (Hlen _ _ _ Hrun) as (timeline & Hp & Hs & _ & _ & Ht).
  exists w', timeline. split; [exact Hp|]. split; [exact Hs|].
  exact (Ht eq_refl eq_refl).
Defined.

(** Seven skipped chunks with a trailing silence of 150 ms, which is 1653
    frames: the 17083 frames of the timeline count as 1549 ms. *)
Example skipped_chunks_round_down :
  AudioSegment.frame_count (silent 500 ++ AudioSegment.mul (silent 150) 7)
  = 17083%Z
  /\ len (silent 500 ++ AudioSegment.mul (silent 150) 7) = 1549%Z.
Proof. split; vm_compute; reflexivity. Qed.

(** ** The credits log along a run *)

Section LedgerRun.
Context `{AudioLib}.
Variable env : Env.
Variable cfg : Config.

Lemma make_api_call_ledger url text model headers :
  preserves ledger_ok (make_api_call env cfg url text model headers).
Proof.
  intros w r w' HP Hrun.
  pose proof (make_api_call_loop_frame _ _ _ _ _ _ _ _ _ _ _ Hrun)
    as ((_ & Hlog & Hfile & _) & _).
  exact (ledger_ok_stores w w' Hlog Hfile HP).
Qed.

Lemma charge_and_decode_ledger response api_key chars operation :
  preserves ledger_ok (charge_and_decode env response api_key chars operation).
Proof.
  unfold charge_and_decode. destruct api_key as [k|]; [|apply preserves_ret].
  apply preserves_bind.
  - intros w a w' HP [= <- <-]. apply log_credit_usage_ok. exact HP.
  - intros _. destruct (content response); apply preserves_ret.
Qed.

Lemma synthesize_ledger text speaker :
  preserves ledger_ok (synthesize env cfg text speaker).
Proof.
  unfold synthesize. destruct (PyStr.strip text); [apply preserves_ret|].
  apply preserves_bind; [apply make_api_call_ledger|].
  intros [[[response|] key]|e]; try apply preserves_ret.
  destruct (response_ok response); [|apply preserves_ret].
  apply preserves_bind; [apply charge_and_decode_ledger|].
  intros [audio|e]; apply preserves_ret.
Qed.

Lemma generate_sfx_ledger effect duration :
  preserves ledger_ok (generate_sfx env cfg effect duration).
Proof.
  intros w a w' HP Hrun. unfold generate_sfx in Hrun.
  destruct (sfx_cache w !! _) as [clip|]; [injection Hrun as <- <-; exact HP|].
  destruct (sfx_prompts cfg !! _) as [prompt|];
    [|injection Hrun as <- <-; exact HP].
  revert Hrun. apply preserves_bind; [apply make_api_call_ledger| |exact HP].
  intros [[[response|] key]|e]; try apply preserves_ret.
  destruct (response_ok response); [|apply preserves_ret].
  apply preserves_bind; [apply charge_and_decode_ledger|].
  intros [sfx|e]; [|apply preserves_ret].
  destruct (fit _ _) as [sfx'|e]; [|apply preserves_ret].
  apply preserves_bind; [|intros _; apply preserves_ret].
  intros w0 a0 w0' HP0 [= <- <-]. exact HP0.
Qed.

Lemma process_chunk_ledger podcast chunk :
  preserves ledger_ok (process_chunk env cfg podcast chunk).
Proof.
  unfold process_chunk. apply preserves_bind; [|intros a; apply preserves_ret].
  destruct chunk; [apply synthesize_ledger | apply generate_sfx_ledger].
Qed.

Lemma process_chunks_ledger chunks :
  forall podcast, preserves ledger_ok (process_chunks env cfg podcast chunks).
Proof.
  induction chunks as [|chunk rest IH]; intros podcast; simpl.
  - apply preserves_ret.
  - apply preserves_bind; [apply process_chunk_ledger | intros p; apply IH].
Qed.

Lemma generate_ledger script output_file :
  preserves ledger_ok (generate env cfg script output_file).
Proof.
  unfold generate. destruct (ScriptParser.parse script) as [|chunk rest];
    [apply preserves_ret|].
  apply preserves_bind; [apply process_chunks_ledger|]. intros podcast.
  intros w a w' HP. unfold export, lift.
  destruct (export_ok env output_file _); intros [= <- <-]; exact HP.
Qed.

End LedgerRun.

(** C7. [log_credit_usage] keeps every running total equal to the sum of
    the credits of the recorded calls: it appends exactly one record,
    carrying the credits of the call, to the entry of the key, adds these
    credits to the entry's total, leaves the other entries alone and writes
    the whole log to the file at once.  A log created for a fresh key list
    satisfies the invariant, and a whole run of [generate] keeps it, with
    the file holding the complete log once it has been written. *)
Theorem ledger_total_is_sum `{AudioLib} (env : Env) (cfg : Config) (w : World)
    (api_key : string) (chars credits : Z) (operation : string) :
  let w' := log_credit_usage env api_key chars credits operation w in
  let key_id := key_id_of api_key in
  let before := entry_of (credits_log w) key_id in
  (ledger_inv (credits_log w) -> ledger_inv (credits_log w'))
  /\ (exists rec,
        credits_used rec = credits
        /\ character_count rec = chars
        /\ operation_type rec = operation
        /\ credits_log w' !! key_id
           = Some (mkLedgerEntry (total_credits_used before + credits)
                                 (calls before ++ [rec])))
  /\ (forall other, other <> key_id ->
        credits_log w' !! other = credits_log w !! other)
  /\ credits_file w' = Some (credits_log w')
  /\ ledger_inv (new_credits_log (api_keys cfg))
  /\ (forall script output_file ok w2,
        ledger_ok w ->
        generate env cfg script output_file w = Some (ok, w2) ->
        ledger_ok w2).
Proof.
  intros w' key_id before. subst w'. unfold log_credit_usage. simpl.
  split; [apply ledger_add_inv|].
  split.
  { eexists. split; [|split; [|split; [|apply ledger_add_lookup]]]; reflexivity. }
  split; [intros other Hne; apply ledger_add_lookup_ne; exact Hne|].
  split; [reflexivity|]. split; [apply new_credits_log_inv|].
  intros script output_file ok w2 Hok Hrun.
  exact (generate_ledger env cfg script output_file w ok w2 Hok Hrun).
Qed.

Lemma ledger_total_is_sum_witness :
  ledger_inv
    (credits_log
       (log_credit_usage sample_env "sk-alpha-0001" 5 5
          "speech_synthesis"
          (log_credit_usage sample_env "sk-alpha-0001" 11 11
             "speech_synthesis"
             (set_credits_log (new_credits_log (api_keys sample_config))
                              empty_world)))).
Proof.
  apply (ledger_total_is_sum sample_env sample_config).
  apply (ledger_total_is_sum sample_env sample_config).
  simpl. apply new_credits_log_inv.
Defined.

Example generate_logs_usage :
  (fun res => match res with
              | Some (ok, w') =>
                  (ok, credits_log w' !! "sk-alpha...",
                   credits_log w' !! "sk-bravo...",
                   credits_log w' !! "sk-charl...")
              | None => (false, None, None, None)
              end)
    (generate sample_env sample_config script_example "out.mp3" empty_world)
  = (true,
     Some (mkLedgerEntry 5
             [mkUsageRecord "2024-01-01T00:00:1" "speech_synthesis" 5 5]),
     Some (mkLedgerEntry 61
             [mkUsageRecord "2024-01-01T00:00:2" "sfx_generation" 61 61]),
     Some (mkLedgerEntry 5
             [mkUsageRecord "2024-01-01T00:00:3" "speech_synthesis" 5 5])).
Proof. vm_compute. reflexivity. Qed.




(** * Further properties *)

(** ** Script parsing *)

Lemma has_nonspace_app s1 s2 :
  has_nonspace (s1 +:+ s2) = has_nonspace s1 || has_nonspace s2.
Proof.
  induction s1 as [|c s1 IH]; simpl; [reflexivity|].
  rewrite IH. apply orb_assoc.
Qed.

Lemma has_nonspace_lstrip s : has_nonspace (PyStr.lstrip s) = has_nonspace s.
Proof.
  induction s as [|c s IH]; simpl; [reflexivity|].
  destruct (PyStr.is_space c) eqn:Ec; simpl; rewrite ?Ec; [exact IH | reflexivity].
Qed.

Lemma lstrip_empty s : PyStr.lstrip s = EmptyString -> has_nonspace s = false.
Proof.
  induction s as [|c s IH]; simpl; [reflexivity|].
  destruct (PyStr.is_space c); simpl; [exact IH | discriminate].
Qed.

Lemma has_nonspace_rev_app s acc :
  has_nonspace (String.rev_app s acc) = has_nonspace s || has_nonspace acc.
Proof.
  revert acc. induction s as [|c s IH]; intros acc; simpl; [reflexivity|].
  rewrite IH. simpl.
  destruct (PyStr.is_space c), (has_nonspace s), (has_nonspace acc); reflexivity.
Qed.

Lemma has_nonspace_rev s : has_nonspace (String.rev s) = has_nonspace s.
Proof. unfold String.rev. rewrite has_nonspace_rev_app. simpl. apply orb_false_r. Qed.

Lemma has_nonspace_strip s : has_nonspace (PyStr.strip s) = has_nonspace s.
Proof.
  unfold PyStr.strip, PyStr.rstrip.
  rewrite has_nonspace_rev, has_nonspace_lstrip, has_nonspace_rev.
  apply has_nonspace_lstrip.
Qed.

Lemma has_nonspace_nonempty s : has_nonspace s = true -> s <> EmptyString.
Proof. intros Hs ->. discriminate. Qed.

(** A string strips to the empty string exactly when it is all white space. *)
Lemma strip_empty_iff s :
  PyStr.strip s = EmptyString <-> has_nonspace s = false.
Proof.
  split.
  - intros Hs. rewrite <- has_nonspace_strip, Hs. reflexivity.
  - intros Hs. unfold PyStr.strip, PyStr.rstrip.
    assert (Hl : PyStr.lstrip s = EmptyString).
    { destruct (PyStr.lstrip s) as [|c r] eqn:E; [reflexivity|].
      pose proof (has_nonspace_lstrip s) as Hh. rewrite E, Hs in Hh.
      simpl in Hh. apply orb_false_iff in Hh. destruct Hh as [Hc _].
      clear Hs. induction s as [|d s IH]; simpl in E; [discriminate|].
      destruct (PyStr.is_space d) eqn:Ed; [exact (IH E)|].
      injection E as <- <-. rewrite Ed in Hc. discriminate. }
    rewrite Hl. reflexivity.
Qed.

Lemma has_nonspace_join x xs :
  has_nonspace x = true -> has_nonspace (PyStr.join " " (x :: xs)) = true.
Proof.
  intros Hx. unfold PyStr.join. simpl. destruct xs as [|y ys]; [exact Hx|].
  change (has_nonspace (x +:+ (" " +:+ String.concat " " (y :: ys))) = true).
  rewrite has_nonspace_app, Hx. reflexivity.
Qed.

(** What [parse] keeps true of its state: buffered lines and the texts of
    the dialogue chunks all hold a character that is not white space. *)
Lemma parse_line_nonblank st raw :
  Forall (fun line => has_nonspace line = true) (ScriptParser.buffer st) ->
  Forall (fun chunk => match chunk with
                       | Dialogue _ text => has_nonspace text = true
                       | Sfx _ => True
                       end) (ScriptParser.chunks st) ->
  Forall (fun line => has_nonspace line = true)
         (ScriptParser.buffer (ScriptParser.parse_line st raw))
  /\ Forall (fun chunk => match chunk with
                          | Dialogue _ text => has_nonspace text = true
                          | Sfx _ => True
                          end)
            (ScriptParser.chunks (ScriptParser.parse_line st raw)).
Proof.
  intros Hb Hc.
  assert (Hflush :
    Forall (fun chunk => match chunk with
                         | Dialogue _ text => has_nonspace text = true
                         | Sfx _ => True
                         end) (ScriptParser.chunks (ScriptParser.flush st))).
  { rewrite flush_chunks. apply Forall_app. split; [exact Hc|].
    destruct (ScriptParser.buffer st) as [|x xs] eqn:E; [constructor|].
    constructor; [|constructor]. apply has_nonspace_join.
    inversion Hb; assumption. }
  unfold ScriptParser.parse_line.
  destruct (PyStr.strip raw) as [|c0 s0] eqn:Es; [auto|].
  destruct (ScriptParser.speaker_match (String c0 s0)).
  - simpl. rewrite flush_buffer. split; [constructor | exact Hflush].
  - destruct (ScriptParser.sfx_match (String c0 s0)); simpl.
    + rewrite flush_buffer. split; [constructor|].
      apply Forall_app. split; [exact Hflush | repeat constructor].
    + split; [|exact Hc]. apply Forall_app. split; [exact Hb|].
      constructor; [|constructor].
      rewrite <- Es, has_nonspace_strip.
      destruct (has_nonspace raw) eqn:Er; [reflexivity|].
      apply strip_empty_iff in Er. congruence.
Qed.

(** X1. No dialogue chunk that [parse] returns has a blank text: its text
    never strips to the empty string, so the blank-text guard of
    [synthesize] does not fire on a parsed chunk. *)
Theorem parse_dialogue_not_blank (script speaker text : string) :
  In (Dialogue speaker text) (ScriptParser.parse script) ->
  PyStr.strip text <> EmptyString.
Proof.
  unfold ScriptParser.parse, ScriptParser.parse_lines. intros Hin.
  assert (Hinv : forall lines st,
    Forall (fun line => has_nonspace line = true) (ScriptParser.buffer st) ->
    Forall (fun chunk => match chunk with
                         | Dialogue _ text => has_nonspace text = true
                         | Sfx _ => True
                         end) (ScriptParser.chunks st) ->
    Forall (fun chunk => match chunk with
                         | Dialogue _ text => has_nonspace text = true
                         | Sfx _ => True
                         end)
           (ScriptParser.chunks
              (ScriptParser.flush (fold_left ScriptParser.parse_line lines st)))).
  { induction lines as [|raw rest IH]; intros st Hb Hc; simpl.
    - rewrite flush_chunks. apply Forall_app. split; [exact Hc|].
      destruct (ScriptParser.buffer st) as [|x xs] eqn:E; [constructor|].
      constructor; [|constructor]. apply has_nonspace_join.
      inversion Hb; assumption.
    - destruct (parse_line_nonblank st raw Hb Hc) as [Hb' Hc'].
      apply IH; assumption. }
  specialize (Hinv (PyStr.readlines script) ScriptParser.initial
                ltac:(constructor) ltac:(constructor)).
  rewrite Forall_forall in Hinv.
  specialize (Hinv _ (proj2 (list_elem_of_In _ _) Hin)). simpl in Hinv.
  intros Hs. apply strip_empty_iff in Hs. congruence.
Qed.

Lemma parse_dialogue_not_blank_witness :
  PyStr.strip "Hello" <> EmptyString.
Proof.
  apply (parse_dialogue_not_blank script_example "A" "Hello").
  vm_compute. left. reflexivity.
Defined.

Lemma fold_parse_line_untagged lines : forall st,
  forallb (fun raw => negb (is_tag raw)) lines = true ->
  fold_left ScriptParser.parse_line lines st
  = ScriptParser.mkParseState (ScriptParser.chunks st)
      (ScriptParser.current_speaker st)
      (ScriptParser.buffer st ++ text_lines lines).
Proof.
  induction lines as [|raw rest IH]; intros st Hall; simpl.
  - unfold text_lines. simpl. rewrite app_nil_r. destruct st; reflexivity.
  - simpl in Hall. apply andb_prop in Hall. destruct Hall as [Hraw Hrest].
    rewrite IH by exact Hrest. unfold ScriptParser.parse_line, text_lines.
    unfold is_tag in Hraw. simpl.
    destruct (PyStr.strip raw) as [|c0 s0] eqn:Es; simpl; [reflexivity|].
    destruct (ScriptParser.speaker_match (String c0 s0)); [discriminate|].
    destruct (ScriptParser.sfx_match (String c0 s0)); [discriminate|].
    simpl. rewrite <- app_assoc. reflexivity.
Qed.

(** X2. A script in which no line starts with a speaker or effect tag
    becomes at most one chunk: the dialogue of speaker "Default" whose text
    is the stripped non-blank lines joined by single spaces.  A tag in the
    middle of a line is text. *)
Theorem parse_untagged (script : string) :
  forallb (fun raw => negb (is_tag raw)) (PyStr.readlines script) = true ->
  ScriptParser.parse script
  = match text_lines (PyStr.readlines script) with
    | [] => []
    | line :: more => [Dialogue "Default" (PyStr.join " " (line :: more))]
    end.
Proof.
  intros Hall. unfold ScriptParser.parse, ScriptParser.parse_lines.
  rewrite fold_parse_line_untagged by exact Hall.
  rewrite flush_chunks. simpl.
  destruct (text_lines (PyStr.readlines script)); reflexivity.
Qed.

Lemma parse_untagged_witness :
  ScriptParser.parse untagged_script
  = [Dialogue "Default"
       "Once upon a time there was a [SFX: door] in a wall."].
Proof.
  exact (parse_untagged untagged_script eq_refl).
Defined.

(** ** Construction of the key manager *)

Lemma split_on_cons sep s : exists x xs, split_on sep s = x :: xs.
Proof.
  induction s as [|c r IH]; simpl; [eauto|].
  destruct (Ascii.eqb c sep); [eauto|].
  destruct IH as (x & xs & ->). eauto.
Qed.

(** Joining the parts of a split with the separator gives the string back. *)
Lemma join_split_on sep s :
  String.concat (String sep EmptyString) (split_on sep s) = s.
Proof.
  induction s as [|c r IH]; simpl; [reflexivity|].
  destruct (split_on_cons sep r) as (x & xs & Hr). rewrite Hr in *.
  destruct (Ascii.eqb_spec c sep) as [->|Hne].
  - change (String.concat (String sep EmptyString) (EmptyString :: x :: xs))
      with (EmptyString +:+ (String sep EmptyString
                             +:+ String.concat (String sep EmptyString) (x :: xs))).
    rewrite IH. reflexivity.
  - destruct xs as [|y ys].
    + simpl in *. congruence.
    + change (String.concat (String sep EmptyString) (String c x :: y :: ys))
        with (String c (x +:+ (String sep EmptyString
                               +:+ String.concat (String sep EmptyString) (y :: ys)))).
      change (String.concat (String sep EmptyString) (x :: y :: ys))
        with (x +:+ (String sep EmptyString
                     +:+ String.concat (String sep EmptyString) (y :: ys))) in IH.
      rewrite IH. reflexivity.
Qed.

(** X3. Building the key manager.  With a non-empty key argument on the
    command line the manager is built from its comma-separated parts, taken
    as they are (joining them with commas gives the argument back), and the
    environment variable is not read; without one it is built from the
    stripped parts of a non-empty environment variable; with neither the
    constructor raises [ValueError].  A manager that is built has at least
    one key, its cursor on the first. *)
Theorem manager_construction `{AudioLib} (keys_arg env_keys : option string)
    (file : LogFile) :
  (forall c r, keys_arg = Some (String c r) ->
     let keys := split_on COMMA (String c r) in
     init_manager (keys_argument keys_arg) env_keys file
     = Returns (keys, initial_world file keys)
     /\ PyStr.join "," keys = String c r)
  /\ (keys_arg = None \/ keys_arg = Some EmptyString ->
      forall c r, env_keys = Some (String c r) ->
      init_manager (keys_argument keys_arg) env_keys file
      = Returns (map PyStr.strip (split_on COMMA (String c r)),
                 initial_world file (map PyStr.strip (split_on COMMA (String c r)))))
  /\ (keys_arg = None \/ keys_arg = Some EmptyString ->
      env_keys = None \/ env_keys = Some EmptyString ->
      init_manager (keys_argument keys_arg) env_keys file = Raises ValueError)
  /\ (forall keys w cfg,
        init_manager (keys_argument keys_arg) env_keys file = Returns (keys, w) ->
        api_keys cfg = keys ->
        cursor_valid cfg w /\ current_index w = 0%nat
        /\ requests w = [] /\ exported w = []).
Proof.
  split; [|split; [|split]].
  - intros c r -> keys. subst keys. split; [|apply (join_split_on COMMA)].
    unfold init_manager, keys_argument, select_keys.
    destruct (split_on_cons COMMA (String c r)) as (x & xs & ->). reflexivity.
  - intros Harg c r ->. unfold init_manager.
    assert (Hsel : select_keys (keys_argument keys_arg) (Some (String c r))
                   = map PyStr.strip (split_on COMMA (String c r)))
      by (destruct Harg as [->| ->]; reflexivity).
    rewrite Hsel.
    destruct (split_on_cons COMMA (String c r)) as (x & xs & ->). reflexivity.
  - intros Harg Henv. unfold init_manager.
    destruct Harg as [->| ->], Henv as [->| ->]; reflexivity.
  - intros keys w cfg Hinit Hkeys. unfold init_manager in Hinit.
    destruct (select_keys (keys_argument keys_arg) env_keys) as [|k ks] eqn:Es;
      [discriminate|].
    injection Hinit as <- <-. unfold cursor_valid. rewrite Hkeys. simpl.
    repeat split. lia.
Qed.

Lemma manager_construction_witness :
  init_manager (keys_argument (Some "sk-one,, sk-two")) None NoLogFile
  = Returns (["sk-one"; ""; " sk-two"],
             @initial_world IntAudio NoLogFile ["sk-one"; ""; " sk-two"]).
Proof.
  apply (proj1 (proj1 (@manager_construction IntAudio (Some "sk-one,, sk-two")
                         None NoLogFile) _ _ eq_refl)).
Defined.

(** ** Properties that every step keeps *)

Section StableFacts.
Context `{AudioLib}.
Variable env : Env.
Variable cfg : Config.
Variable P : World -> Prop.
Hypothesis HP : stable env cfg P.

Lemma stable_sleep (w : World) : P w -> P (snd (sleep cfg w)).
Proof.
  intros Hw. unfold sleep. destruct (retry_delay cfg <? 0)%Z; simpl; [exact Hw|].
  apply HP. exact Hw.
Qed.

Lemma make_api_call_loop_stable fuel url text model :
  forall a headers (w : World) res w',
    make_api_call_loop env cfg fuel url text model headers a w = Some (res, w') ->
    P w -> P w'.
Proof.
  destruct HP as (Hnext & Hreq & _).
  induction fuel as [|fuel IH]; intros a headers w res w' Hrun Hw; [discriminate|].
  rewrite make_api_call_loop_unfold in Hrun. cbv zeta in Hrun.
  set (next := make_api_call_loop env cfg fuel url text model) in *.
  assert (Hexc : forall headers1 att (w1 : World),
    P w1 -> on_exception cfg next headers1 att w1 = Some (res, w') -> P w').
  { intros headers1 att w1 Hw1. unfold on_exception.
    destruct (retry_failed_calls cfg); simpl; [|intros [= <- <-]; exact Hw1].
    pose proof (stable_sleep w1 Hw1) as Hsl.
    destruct (sleep cfg w1) as [[u|e] w2]; simpl in Hsl.
    - intros Hr. exact (IH _ _ _ _ _ Hr Hsl).
    - intros [= <- <-]. exact Hsl. }
  assert (Hcount : forall headers1 (w1 : World),
    P w1 -> count_and_sleep cfg next headers1 a w1 = Some (res, w') -> P w').
  { intros headers1 w1 Hw1. unfold count_and_sleep.
    pose proof (stable_sleep w1 Hw1) as Hsl.
    destruct (sleep cfg w1) as [[u|e] w2]; simpl in Hsl.
    - intros Hr. exact (IH _ _ _ _ _ Hr Hsl).
    - apply Hexc. exact Hsl. }
  destruct (a <? max_retries cfg)%Z; [|injection Hrun as <- <-; exact Hw].
  assert (Hkey : P (snd (match headers with
                         | Some api_key => (Returns api_key, w)
                         | None => get_next_api_key cfg w
                         end))).
  { destruct headers; [exact Hw | apply Hnext; exact Hw]. }
  destruct (match headers with
            | Some api_key => (Returns api_key, w)
            | None => get_next_api_key cfg w
            end) as [[api_key|e] w1]; simpl in Hkey.
  - set (req := mkRequest url api_key text model) in *.
    assert (Hw2 : P (set_requests (requests w1 ++ [req]) w1))
      by (apply Hreq; exact Hkey).
    destruct (http env (length (requests w1)) req) as [response|].
    + destruct (status_code response =? 200)%Z;
        [injection Hrun as <- <-; exact Hw2|].
      destruct ((status_code response =? 429) || (status_code response =? 401))%Z.
      * pose proof (Hnext _ Hw2) as Hw3.
        destruct (get_next_api_key cfg _) as [[api_key'|e'] w3]; simpl in Hw3.
        -- exact (Hcount _ _ Hw3 Hrun).
        -- exact (Hexc _ _ _ Hw3 Hrun).
      * destruct (retry_failed_calls cfg); simpl in Hrun.
        -- exact (Hcount _ _ Hw2 Hrun).
        -- injection Hrun as <- <-. exact Hw2.
    + exact (Hexc _ _ _ Hw2 Hrun).
  - exact (Hexc _ _ _ Hkey Hrun).
Qed.

Lemma make_api_call_stable url text model headers :
  preserves P (make_api_call env cfg url text model headers).
Proof.
  intros w res w' Hw Hrun.
  exact (make_api_call_loop_stable _ _ _ _ _ _ _ _ _ Hrun Hw).
Qed.

Lemma charge_and_decode_stable response api_key chars operation :
  preserves P (charge_and_decode env response api_key chars operation).
Proof.
  unfold charge_and_decode. destruct api_key as [k|]; [|apply preserves_ret].
  apply preserves_bind.
  - intros w a w' Hw [= <- <-]. apply HP. exact Hw.
  - intros _. destruct (content response); apply preserves_ret.
Qed.

Lemma synthesize_stable text speaker :
  preserves P (synthesize env cfg text speaker).
Proof.
  unfold synthesize. destruct (PyStr.strip text); [apply preserves_ret|].
  apply preserves_bind; [apply make_api_call_stable|].
  intros [[[response|] key]|e]; try apply preserves_ret.
  destruct (response_ok response); [|apply preserves_ret].
  apply preserves_bind; [apply charge_and_decode_stable|].
  intros [audio|e]; apply preserves_ret.
Qed.

Lemma generate_sfx_stable effect duration :
  preserves P (generate_sfx env cfg effect duration).
Proof.
  intros w a w' Hw Hrun. unfold generate_sfx in Hrun.
  destruct (sfx_cache w !! _) as [clip|]; [injection Hrun as <- <-; exact Hw|].
  destruct (sfx_prompts cfg !! _) as [prompt|];
    [|injection Hrun as <- <-; exact Hw].
  revert Hrun. apply preserves_bind; [apply make_api_call_stable| |exact Hw].
  intros [[[response|] key]|e]; try apply preserves_ret.
  destruct (response_ok response); [|apply preserves_ret].
  apply preserves_bind; [apply charge_and_decode_stable|].
  intros [sfx|e]; [|apply preserves_ret].
  destruct (fit _ _) as [sfx'|e]; [|apply preserves_ret].
  apply preserves_bind; [|intros _; apply preserves_ret].
  intros w0 a0 w0' Hw0 [= <- <-]. apply HP. exact Hw0.
Qed.

Lemma process_chunk_stable podcast chunk :
  preserves P (process_chunk env cfg podcast chunk).
Proof.
  unfold process_chunk. apply preserves_bind; [|intros a; apply preserves_ret].
  destruct chunk; [apply synthesize_stable | apply generate_sfx_stable].
Qed.

Lemma process_chunks_stable chunks :
  forall podcast, preserves P (process_chunks env cfg podcast chunks).
Proof.
  induction chunks as [|chunk rest IH]; intros podcast; simpl.
  - apply preserves_ret.
  - apply preserves_bind; [apply process_chunk_stable | intros p; apply IH].
Qed.

Lemma generate_stable script output_file :
  preserves P (generate env cfg script output_file).
Proof.
  unfold generate. destruct (ScriptParser.parse script) as [|chunk rest];
    [apply preserves_ret|].
  apply preserves_bind; [apply process_chunks_stable|]. intros podcast.
  intros w a w' Hw. unfold export, lift.
  destruct (export_ok env output_file _); intros [= <- <-];
    [apply HP|]; exact Hw.
Qed.

End StableFacts.

Lemma cursor_valid_stable `{AudioLib} (env : Env) (cfg : Config) :
  stable env cfg (cursor_valid cfg).
Proof.
  repeat split; try (intros; assumption).
  intros w Hw. apply (get_next_api_key_cursor cfg w Hw).
Qed.

(** X4. The cursor stays inside the key list: from a state in which it
    points at a key, every [make_api_call], [synthesize], [generate_sfx]
    and whole [generate] ends in such a state, and there
    [get_next_api_key] returns the key under the cursor instead of raising
    [IndexError]. *)
Theorem cursor_stays_valid `{AudioLib} (env : Env) (cfg : Config) (w : World) :
  cursor_valid cfg w ->
  (exists key, api_keys cfg !! current_index w = Some key
               /\ fst (get_next_api_key cfg w) = Returns key)
  /\ (forall url text model headers res w',
        make_api_call env cfg url text model headers w = Some (res, w') ->
        cursor_valid cfg w')
  /\ (forall text speaker audio w',
        synthesize env cfg text speaker w = Some (audio, w') ->
        cursor_valid cfg w')
  /\ (forall effect duration audio w',
        generate_sfx env cfg effect duration w = Some (audio, w') ->
        cursor_valid cfg w')
  /\ (forall script output_file ok w',
        generate env cfg script output_file w = Some (ok, w') ->
        cursor_valid cfg w').
Proof.
  intros Hw. pose proof (cursor_valid_stable env cfg) as Hst.
  split; [apply (get_next_api_key_cursor cfg w Hw)|].
  split; [intros url text model headers res w' Hrun;
          exact (make_api_call_stable env cfg _ Hst _ _ _ _ _ _ _ Hw Hrun)|].
  split; [intros text speaker audio w' Hrun;
          exact (synthesize_stable env cfg _ Hst _ _ _ _ _ Hw Hrun)|].
  split; [intros effect duration audio w' Hrun;
          exact (generate_sfx_stable env cfg _ Hst _ _ _ _ _ Hw Hrun)|].
  intros script output_file ok w' Hrun.
  exact (generate_stable env cfg _ Hst _ _ _ _ _ Hw Hrun).
Qed.

Lemma cursor_stays_valid_witness :
  exists key, api_keys sample_config !! current_index empty_world = Some key
              /\ fst (get_next_api_key sample_config empty_world) = Returns key.
Proof.
  apply (cursor_stays_valid sample_env sample_config empty_world).
  unfold cursor_valid. simpl. lia.
Defined.

(** ** The course of a call *)

Section CallFacts.
Context `{AudioLib}.
Variable env : Env.
Variable cfg : Config.
Local Open Scope Z_scope.

Lemma loop_exhausted fuel url text model headers a (w : World) :
  max_retries cfg <= a ->
  make_api_call_loop env cfg (S fuel) url text model headers a w
  = Some (Returns (None, headers), w).
Proof.
  intros Ha. rewrite make_api_call_loop_unfold. cbv zeta.
  destruct (Z.ltb_spec a (max_retries cfg)); [lia | reflexivity].
Qed.

(** Choosing the key of an attempt. *)
Lemma choose_key headers (w : World) key c1 :
  key_and_cursor cfg headers w = Some (key, c1) ->
  exists w1,
    (match headers with
     | Some api_key => (Returns api_key, w)
     | None => get_next_api_key cfg w
     end) = (Returns key, w1)
    /\ requests w1 = requests w /\ sleeps w1 = sleeps w
    /\ current_index w1 = c1 /\ same_stores w w1.
Proof.
  unfold key_and_cursor. destruct headers as [k|].
  - intros [= <- <-]. exists w. repeat split.
  - unfold get_next_api_key.
    destruct (api_keys cfg !! current_index w) as [k|]; [|discriminate].
    intros [= <- <-]. eexists. repeat split.
Qed.

(** An attempt that the service answers with 429 or 401: the request is
    sent, the next key is taken, the loop sleeps and goes on with it. *)
Lemma key_failure_step fuel url text model headers a (w : World) key c1 :
  0 <= retry_delay cfg -> a < max_retries cfg ->
  key_and_cursor cfg headers w = Some (key, c1) ->
  (c1 < length (api_keys cfg))%nat ->
  key_failure (http env (length (requests w)) (mkRequest url key text model))
  = true ->
  exists key' w1,
    api_keys cfg !! c1 = Some key'
    /\ make_api_call_loop env cfg (S fuel) url text model headers a w
       = make_api_call_loop env cfg fuel url text model (Some key') (a + 1) w1
    /\ requests w1 = requests w ++ [mkRequest url key text model]
    /\ sleeps w1 = sleeps w ++ [retry_delay cfg]
    /\ current_index w1 = ((c1 + 1) mod length (api_keys cfg))%nat
    /\ same_stores w w1.
Proof.
  intros Hdelay Hlt Hkey Hc1 Hfail.
  rewrite make_api_call_loop_unfold. cbv zeta.
  destruct (Z.ltb_spec a (max_retries cfg)); [|lia].
  destruct (choose_key headers w key c1 Hkey) as (w1 & -> & Hr1 & Hs1 & Hi1 & Hst1).
  rewrite Hr1.
  destruct (http env (length (requests w)) (mkRequest url key text model))
    as [response|]; simpl in Hfail; [|discriminate].
  assert (H200 : (status_code response =? 200) = false).
  { apply orb_prop in Hfail. destruct Hfail as [E|E];
      apply Z.eqb_eq in E; rewrite E; reflexivity. }
  rewrite H200, Hfail.
  destruct (lookup_lt_is_Some_2 (api_keys cfg) c1 Hc1) as [key' Hk'].
  unfold get_next_api_key. simpl. rewrite Hi1, Hk'.
  unfold count_and_sleep. rewrite (sleep_returns cfg) by exact Hdelay.
  exists key'. eexists. split; [reflexivity|]. split; [reflexivity|]. simpl.
  rewrite ?Hr1, ?Hs1, ?Hi1. repeat split; apply Hst1.
Qed.

(** An attempt that fails otherwise, with retrying on: the request is sent,
    the loop sleeps and goes on with the same key. *)
Lemma plain_failure_step fuel url text model headers a (w : World) key c1 :
  retry_failed_calls cfg = true ->
  0 <= retry_delay cfg -> a < max_retries cfg ->
  key_and_cursor cfg headers w = Some (key, c1) ->
  plain_failure (http env (length (requests w)) (mkRequest url key text model))
  = true ->
  exists w1,
    make_api_call_loop env cfg (S fuel) url text model headers a w
    = make_api_call_loop env cfg fuel url text model (Some key) (a + 1) w1
    /\ requests w1 = requests w ++ [mkRequest url key text model]
    /\ sleeps w1 = sleeps w ++ [retry_delay cfg]
    /\ current_index w1 = c1
    /\ same_stores w w1.
Proof.
  intros Hretry Hdelay Hlt Hkey Hfail.
  rewrite make_api_call_loop_unfold. cbv zeta.
  destruct (Z.ltb_spec a (max_retries cfg)); [|lia].
  destruct (choose_key headers w key c1 Hkey) as (w1 & -> & Hr1 & Hs1 & Hi1 & Hst1).
  rewrite Hr1. unfold on_exception, count_and_sleep. rewrite Hretry.
  rewrite !(sleep_returns cfg) by exact Hdelay. simpl.
  destruct (http env (length (requests w)) (mkRequest url key text model))
    as [response|]; simpl in Hfail.
  - apply andb_prop in Hfail. destruct Hfail as [Hfail H401].
    apply andb_prop in Hfail. destruct Hfail as [H200 H429].
    apply negb_true_iff in H200, H429, H401. rewrite H200, H429, H401. simpl.
    eexists. split; [reflexivity|]. simpl. rewrite Hs1.
    repeat split; try assumption; apply Hst1.
  - eexists. split; [reflexivity|]. simpl. rewrite Hs1.
    repeat split; try assumption; apply Hst1.
Qed.

End CallFacts.

Section RotationOfACall.
Context `{AudioLib}.
Variable env : Env.
Variable cfg : Config.
Local Open Scope Z_scope.

Lemma rotation_snoc c k :
  rotation cfg c (S k)
  = rotation cfg c k
    ++ option_list (api_keys cfg !! ((c + k) mod length (api_keys cfg))%nat).
Proof.
  unfold rotation. rewrite seq_S, omap_app. simpl.
  destruct (api_keys cfg !! _); reflexivity.
Qed.

Lemma rotation_length c k :
  (0 < length (api_keys cfg))%nat -> length (rotation cfg c k) = k.
Proof.
  intros Hn. induction k as [|k IH]; [reflexivity|].
  rewrite rotation_snoc, length_app, IH.
  destruct (lookup_lt_is_Some_2 (api_keys cfg)
              ((c + k) mod length (api_keys cfg))%nat) as [key ->];
    [apply Nat.mod_upper_bound; lia | simpl; lia].
Qed.

Lemma rotation_take c k :
  (0 < length (api_keys cfg))%nat ->
  take k (rotation cfg c (S k)) = rotation cfg c k.
Proof.
  intros Hn. rewrite rotation_snoc.
  rewrite take_app_le by (rewrite rotation_length by exact Hn; lia).
  apply take_ge. rewrite rotation_length by exact Hn. lia.
Qed.

Lemma omap_seq_shift {A} (f g : nat -> option A) k : forall s,
  (forall i, f (S i) = g i) -> omap f (seq (S s) k) = omap g (seq s k).
Proof.
  induction k as [|k IH]; intros s Hfg; [reflexivity|].
  change (omap f (S s :: seq (S (S s)) k) = omap g (s :: seq (S s) k)).
  change (match f (S s) with
          | Some y => y :: omap f (seq (S (S s)) k)
          | None => omap f (seq (S (S s)) k)
          end
          = match g s with
            | Some y => y :: omap g (seq (S s) k)
            | None => omap g (seq (S s) k)
            end).
  rewrite Hfg, (IH (S s) Hfg). reflexivity.
Qed.

Lemma rotation_cons c k key :
  api_keys cfg !! c = Some key ->
  rotation cfg c (S k)
  = key :: rotation cfg ((c + 1) mod length (api_keys cfg))%nat k.
Proof.
  intros Hk. pose proof (lookup_lt_Some _ _ _ Hk) as Hc.
  unfold rotation. simpl.
  rewrite Nat.add_0_r, Nat.mod_small, Hk by exact Hc. f_equal.
  apply omap_seq_shift. intros i.
  rewrite Nat.Div0.add_mod_idemp_l. do 2 f_equal. lia.
Qed.

(** The loop when every answer is 429 or 401 and a key is in the headers. *)
Lemma loop_rotates fuel url text model :
  forall a key (w : World),
    0 <= retry_delay cfg ->
    (forall m req, key_failure (http env m req) = true) ->
    (Z.to_nat (max_retries cfg - a) < fuel)%nat ->
    cursor_valid cfg w ->
    exists w' new last,
      make_api_call_loop env cfg fuel url text model (Some key) a w
      = Some (Returns (None, Some last), w')
      /\ requests w' = requests w ++ new
      /\ map xi_api_key new
         = take (Z.to_nat (max_retries cfg - a))
                (key :: rotation cfg (current_index w)
                          (Z.to_nat (max_retries cfg - a)))
      /\ current_index w'
         = ((current_index w + Z.to_nat (max_retries cfg - a))
            mod length (api_keys cfg))%nat
      /\ sleeps w' = sleeps w ++ replicate (Z.to_nat (max_retries cfg - a))
                                           (retry_delay cfg)
      /\ same_stores w w'.
Proof.
  induction fuel as [|fuel IH]; intros a key w Hdelay Hfail Hfuel Hv; [lia|].
  destruct (Z.ltb_spec a (max_retries cfg)) as [Hlt|Hge].
  2:{ rewrite loop_exhausted by exact Hge.
      replace (Z.to_nat (max_retries cfg - a)) with 0%nat by lia.
      exists w, [], key. rewrite !app_nil_r, Nat.add_0_r, Nat.mod_small by exact Hv.
      repeat split. }
  destruct (key_failure_step env cfg fuel url text model (Some key) a w key
              (current_index w) Hdelay Hlt eq_refl Hv (Hfail _ _))
    as (key' & w1 & Hk' & -> & Hr1 & Hs1 & Hi1 & Hst1).
  assert (Hv1 : cursor_valid cfg w1).
  { unfold cursor_valid in *. rewrite Hi1. apply Nat.mod_upper_bound. lia. }
  destruct (IH (a + 1) key' w1 Hdelay Hfail ltac:(lia) Hv1)
    as (w' & new & last & Hrun & Hr & Hkeys & Hi & Hs & Hst).
  exists w', (mkRequest url key text model :: new), last.
  split; [exact Hrun|].
  split; [rewrite Hr, Hr1, <- app_assoc; reflexivity|].
  replace (Z.to_nat (max_retries cfg - a))
    with (S (Z.to_nat (max_retries cfg - (a + 1)))) by lia.
  set (left := Z.to_nat (max_retries cfg - (a + 1))) in *.
  split.
  { simpl. f_equal. rewrite Hkeys, Hi1.
    rewrite (rotation_cons (current_index w) left key' Hk'). reflexivity. }
  split.
  { rewrite Hi, Hi1, Nat.Div0.add_mod_idemp_l. f_equal. lia. }
  split.
  { rewrite Hs, Hs1, <- app_assoc. reflexivity. }
  eapply same_stores_trans; [exact Hst1 | exact Hst].
Qed.

(** The loop when every attempt fails otherwise, with retrying on and a key
    in the headers. *)
Lemma loop_pins fuel url text model :
  forall a key (w : World),
    retry_failed_calls cfg = true ->
    0 <= retry_delay cfg ->
    (forall m req, plain_failure (http env m req) = true) ->
    (Z.to_nat (max_retries cfg - a) < fuel)%nat ->
    exists w',
      make_api_call_loop env cfg fuel url text model (Some key) a w
      = Some (Returns (None, Some key), w')
      /\ requests w'
         = requests w ++ replicate (Z.to_nat (max_retries cfg - a))
                                   (mkRequest url key text model)
      /\ current_index w' = current_index w
      /\ sleeps w' = sleeps w ++ replicate (Z.to_nat (max_retries cfg - a))
                                           (retry_delay cfg)
      /\ same_stores w w'.
Proof.
  induction fuel as [|fuel IH]; intros a key w Hretry Hdelay Hfail Hfuel; [lia|].
  destruct (Z.ltb_spec a (max_retries cfg)) as [Hlt|Hge].
  2:{ rewrite loop_exhausted by exact Hge.
      replace (Z.to_nat (max_retries cfg - a)) with 0%nat by lia.
      exists w. simpl. rewrite !app_nil_r. repeat split. }
  destruct (plain_failure_step env cfg fuel url text model (Some key) a w key
              (current_index w) Hretry Hdelay Hlt eq_refl (Hfail _ _))
    as (w1 & -> & Hr1 & Hs1 & Hi1 & Hst1).
  destruct (IH (a + 1) key w1 Hretry Hdelay Hfail ltac:(lia))
    as (w' & Hrun & Hr & Hi & Hs & Hst).
  exists w'. split; [exact Hrun|].
  replace (Z.to_nat (max_retries cfg - a))
    with (S (Z.to_nat (max_retries cfg - (a + 1)))) by lia.
  split; [rewrite Hr, Hr1, <- app_assoc; reflexivity|].
  split; [congruence|].
  split; [rewrite Hs, Hs1, <- app_assoc; reflexivity|].
  eapply same_stores_trans; [exact Hst1 | exact Hst].
Qed.

End RotationOfACall.

Section OutcomeOfACall.
Context `{AudioLib}.
Variable env : Env.
Variable cfg : Config.
Local Open Scope Z_scope.

Lemma is_failure_cases (o : HttpOutcome) :
  is_failure o = true -> key_failure o = true \/ plain_failure o = true.
Proof.
  destruct o as [r|]; simpl; [|auto]. intros Hf. rewrite Hf. simpl.
  destruct (status_code r =? 429), (status_code r =? 401); simpl; auto.
Qed.

Lemma key_and_cursor_valid headers (w : World) :
  cursor_valid cfg w ->
  exists key c1, key_and_cursor cfg headers w = Some (key, c1)
                 /\ (c1 < length (api_keys cfg))%nat.
Proof.
  intros Hv. unfold key_and_cursor. destruct headers as [k|]; [eauto|].
  destruct (lookup_lt_is_Some_2 _ _ Hv) as [key ->].
  eexists _, _. split; [reflexivity|]. apply Nat.mod_upper_bound.
  unfold cursor_valid in Hv. lia.
Qed.

(** A failed attempt of any kind, with retrying on and a valid cursor. *)
Lemma failure_step fuel url text model headers a (w : World) :
  retry_failed_calls cfg = true ->
  0 <= retry_delay cfg -> a < max_retries cfg ->
  cursor_valid cfg w ->
  (forall req, is_failure (http env (length (requests w)) req) = true) ->
  exists key' w1 sent,
    make_api_call_loop env cfg (S fuel) url text model headers a w
    = make_api_call_loop env cfg fuel url text model (Some key') (a + 1) w1
    /\ requests w1 = requests w ++ [sent]
    /\ sleeps w1 = sleeps w ++ [retry_delay cfg]
    /\ cursor_valid cfg w1
    /\ same_stores w w1.
Proof.
  intros Hretry Hdelay Hlt Hv Hfail.
  destruct (key_and_cursor_valid headers w Hv) as (key & c1 & Hkey & Hc1).
  destruct (is_failure_cases _ (Hfail (mkRequest url key text model)))
    as [Hk|Hp].
  - destruct (key_failure_step env cfg fuel url text model headers a w key c1
                Hdelay Hlt Hkey Hc1 Hk)
      as (key' & w1 & _ & Hrun & Hr & Hs & Hi & Hst).
    exists key', w1, (mkRequest url key text model).
    repeat split; try assumption; try apply Hst.
    unfold cursor_valid. rewrite Hi. apply Nat.mod_upper_bound. lia.
  - destruct (plain_failure_step env cfg fuel url text model headers a w key c1
                Hretry Hdelay Hlt Hkey Hp)
      as (w1 & Hrun & Hr & Hs & Hi & Hst).
    exists key, w1, (mkRequest url key text model).
    repeat split; try assumption; try apply Hst.
    unfold cursor_valid. rewrite Hi. exact Hc1.
Qed.

Lemma loop_succeeds_after url text model r : forall j fuel a headers (w : World),
  retry_failed_calls cfg = true ->
  0 <= retry_delay cfg ->
  (j < fuel)%nat -> a + Z.of_nat j < max_retries cfg ->
  cursor_valid cfg w ->
  (forall i req, (i < j)%nat ->
     is_failure (http env (length (requests w) + i) req) = true) ->
  (forall req, http env (length (requests w) + j) req = Answered r) ->
  status_code r = 200 ->
  exists w' new key,
    make_api_call_loop env cfg fuel url text model headers a w
    = Some (Returns (Some r, Some key), w')
    /\ requests w' = requests w ++ new
    /\ length new = S j
    /\ last new = Some (mkRequest url key text model)
    /\ sleeps w' = sleeps w ++ replicate j (retry_delay cfg)
    /\ same_stores w w'.
Proof.
  induction j as [|j IH]; intros fuel a headers w Hretry Hdelay Hfuel Ha Hv
                                 Hfail Hok H200.
  - destruct fuel as [|fuel]; [lia|].
    rewrite make_api_call_loop_unfold. cbv zeta.
    destruct (Z.ltb_spec a (max_retries cfg)); [|lia].
    destruct (key_and_cursor_valid headers w Hv) as (key & c1 & Hkey & Hc1).
    destruct (choose_key cfg headers w key c1 Hkey)
      as (w1 & -> & Hr1 & Hs1 & Hi1 & Hst1).
    rewrite Hr1. rewrite <- (Nat.add_0_r (length (requests w))).
    rewrite Hok, H200. simpl.
    eexists _, [_], key. split; [reflexivity|].
    repeat split; simpl; rewrite ?Hr1, ?Hs1, ?app_nil_r; try reflexivity;
      apply Hst1.
  - destruct fuel as [|fuel]; [lia|].
    destruct (failure_step fuel url text model headers a w Hretry Hdelay
                ltac:(lia) Hv)
      as (key' & w1 & sent & -> & Hr1 & Hs1 & Hv1 & Hst1).
    { intros req. rewrite <- (Nat.add_0_r (length (requests w))).
      apply Hfail. lia. }
    destruct (IH fuel (a + 1) (Some key') w1 Hretry Hdelay ltac:(lia)
                ltac:(lia) Hv1)
      as (w' & new & key & Hrun & Hr & Hlen & Hlast & Hs & Hst); auto.
    { intros i req Hi. rewrite Hr1, length_app. simpl.
      replace (length (requests w) + 1 + i)%nat
        with (length (requests w) + S i)%nat by lia.
      apply Hfail. lia. }
    { intros req. rewrite Hr1, length_app. simpl.
      replace (length (requests w) + 1 + j)%nat
        with (length (requests w) + S j)%nat by lia.
      apply Hok. }
    exists w', (sent :: new), key. split; [exact Hrun|].
    split; [rewrite Hr, Hr1, <- app_assoc; reflexivity|].
    split; [simpl; lia|].
    split.
    { destruct new as [|x xs]; [discriminate|]. exact Hlast. }
    split; [rewrite Hs, Hs1, <- app_assoc; reflexivity|].
    eapply same_stores_trans; [exact Hst1 | exact Hst].
Qed.

Lemma rotation_lookup c k i :
  (i < k)%nat -> (0 < length (api_keys cfg))%nat ->
  rotation cfg c k !! i
  = api_keys cfg !! ((c + i) mod length (api_keys cfg))%nat.
Proof.
  intros Hi Hn. induction k as [|k IH]; [lia|].
  rewrite rotation_snoc.
  destruct (Nat.eq_dec i k) as [->|Hne].
  - rewrite lookup_app_r by (rewrite rotation_length by exact Hn; lia).
    rewrite rotation_length, Nat.sub_diag by exact Hn.
    destruct (api_keys cfg !! _); reflexivity.
  - rewrite lookup_app_l by (rewrite rotation_length by exact Hn; lia).
    apply IH. lia.
Qed.

(** The keys of the rotation are what [get_next_api_key] returns. *)
Lemma rotation_issue k (w : World) :
  cursor_valid cfg w ->
  Returns <$> rotation cfg (current_index w) k = fst (issue cfg k w).
Proof.
  intros Hv. destruct (issue_spec cfg k w Hv) as (_ & Hlen & Hord & _).
  assert (Hn : (0 < length (api_keys cfg))%nat)
    by (unfold cursor_valid in Hv; lia).
  apply list_eq. intros i. destruct (Nat.lt_ge_cases i k) as [Hi|Hi].
  - rewrite Hord by exact Hi. rewrite list_lookup_fmap.
    rewrite rotation_lookup by assumption. reflexivity.
  - rewrite !lookup_ge_None_2; [reflexivity | lia |].
    rewrite length_fmap, rotation_length by exact Hn. exact Hi.
Qed.

End OutcomeOfACall.

(** X5. A call whose first [j] attempts fail, in whatever way, and whose
    next attempt is answered with status 200 returns that response, with
    the key of the last request, after exactly [j + 1] requests and [j]
    sleeps, provided [j] is less than [max_retries], retrying is on, the
    delay is not negative and the cursor is valid.  The call itself leaves
    ledger, cache and exports alone. *)
Theorem call_succeeds_after_failures `{AudioLib} (env : Env) (cfg : Config)
    (url text model : string) (headers : option string) (w : World)
    (j : nat) (r : Response) :
  retry_failed_calls cfg = true ->
  (0 <= retry_delay cfg)%Z ->
  (Z.of_nat j < max_retries cfg)%Z ->
  cursor_valid cfg w ->
  (forall i req, (i < j)%nat ->
     is_failure (http env (length (requests w) + i) req) = true) ->
  (forall req, http env (length (requests w) + j) req = Answered r) ->
  status_code r = 200%Z ->
  exists w' new key,
    make_api_call env cfg url text model headers w
    = Some (Returns (Some r, Some key), w')
    /\ requests w' = requests w ++ new
    /\ length new = S j
    /\ last new = Some (mkRequest url key text model)
    /\ sleeps w' = sleeps w ++ replicate j (retry_delay cfg)
    /\ same_stores w w'.
Proof.
  intros Hretry Hdelay Hj Hv Hfail Hok H200. unfold make_api_call.
  apply (loop_succeeds_after env cfg url text model r j); auto; lia.
Qed.

Lemma call_succeeds_after_failures_witness :
  exists w' new key,
    make_api_call (flaky_env 2) sample_config "u" "Hello" "m" None empty_world
    = Some (Returns (Some (mkResponse 200 (Some (tone 2000))), Some key), w')
    /\ requests w' = requests empty_world ++ new
    /\ length new = 3%nat
    /\ last new = Some (mkRequest "u" key "Hello" "m")
    /\ sleeps w' = sleeps empty_world ++ replicate 2 (retry_delay sample_config)
    /\ same_stores empty_world w'.
Proof.
  apply (call_succeeds_after_failures (flaky_env 2) sample_config "u" "Hello"
           "m" None empty_world 2 (mkResponse 200 (Some (tone 2000))));
    try reflexivity; try (simpl; lia).
  - unfold cursor_valid. simpl. lia.
  - intros i req Hi. simpl.
    destruct i as [|[|i]]; [reflexivity | reflexivity | lia].
Defined.

(** X6. With retrying switched off, a first attempt that raises or is
    answered with a status other than 200, 429 and 401 ends the call at
    once: one request, no sleep, no response, and the key that was sent. *)
Theorem no_retry_stops_at_first_failure `{AudioLib} (env : Env) (cfg : Config)
    (url text model : string) (headers : option string) (w : World)
    (key : string) (c1 : nat) :
  retry_failed_calls cfg = false ->
  (0 < max_retries cfg)%Z ->
  key_and_cursor cfg headers w = Some (key, c1) ->
  plain_failure (http env (length (requests w)) (mkRequest url key text model))
  = true ->
  exists w',
    make_api_call env cfg url text model headers w
    = Some (Returns (None, Some key), w')
    /\ requests w' = requests w ++ [mkRequest url key text model]
    /\ sleeps w' = sleeps w
    /\ current_index w' = c1.
Proof.
  intros Hretry Hmax Hkey Hfail. unfold make_api_call.
  rewrite make_api_call_loop_unfold. cbv zeta.
  destruct (Z.ltb_spec 0 (max_retries cfg)); [|lia].
  destruct (choose_key cfg headers w key c1 Hkey)
    as (w1 & -> & Hr1 & Hs1 & Hi1 & Hst1).
  rewrite Hr1. unfold on_exception. rewrite Hretry. simpl.
  destruct (http env (length (requests w)) (mkRequest url key text model))
    as [response|]; simpl in Hfail.
  - apply andb_prop in Hfail. destruct Hfail as [Hfail H401].
    apply andb_prop in Hfail. destruct Hfail as [H200 H429].
    apply negb_true_iff in H200, H429, H401. rewrite H200, H429, H401. simpl.
    eexists. split; [reflexivity|]. simpl; rewrite ?Hr1.
    repeat split; assumption.
  - eexists. split; [reflexivity|]. simpl; rewrite ?Hr1.
    repeat split; assumption.
Qed.

Lemma no_retry_stops_at_first_failure_witness :
  exists w',
    make_api_call (refusing_env 500) no_retry_config "u" "Hello" "m" None
                  empty_world
    = Some (Returns (None, Some "sk-alpha-0001"), w')
    /\ requests w' = requests empty_world
                     ++ [mkRequest "u" "sk-alpha-0001" "Hello" "m"]
    /\ sleeps w' = sleeps empty_world
    /\ current_index w' = 1%nat.
Proof.
  apply (no_retry_stops_at_first_failure (refusing_env 500) no_retry_config
           "u" "Hello" "m" None empty_world "sk-alpha-0001" 1);
    reflexivity.
Defined.

(** X7. When the service answers every attempt with 429 or 401, a call
    sends [max_retries] requests whose keys are the next [max_retries] keys
    of the rotation, one after the other, takes one key more, and returns
    no response.  This does not depend on [retry_failed_calls]. *)
Theorem key_failures_rotate_keys `{AudioLib} (env : Env) (cfg : Config)
    (url text model : string) (w : World) :
  (0 <= retry_delay cfg)%Z ->
  (0 < max_retries cfg)%Z ->
  cursor_valid cfg w ->
  (forall m req, key_failure (http env m req) = true) ->
  exists w' new last,
    make_api_call env cfg url text model None w
    = Some (Returns (None, Some last), w')
    /\ requests w' = requests w ++ new
    /\ map xi_api_key new
       = rotation cfg (current_index w) (Z.to_nat (max_retries cfg))
    /\ Returns <$> map xi_api_key new
       = fst (issue cfg (Z.to_nat (max_retries cfg)) w)
    /\ current_index w'
       = ((current_index w + Z.to_nat (max_retries cfg) + 1)
          mod length (api_keys cfg))%nat
    /\ sleeps w' = sleeps w ++ replicate (Z.to_nat (max_retries cfg))
                                         (retry_delay cfg).
Proof.
  intros Hdelay Hmax Hv Hfail. unfold make_api_call.
  assert (Hn : (0 < length (api_keys cfg))%nat)
    by (unfold cursor_valid in Hv; lia).
  destruct (lookup_lt_is_Some_2 _ _ Hv) as [key Hkey].
  assert (Hkc : key_and_cursor cfg None w
                = Some (key, ((current_index w + 1) mod length (api_keys cfg))%nat)).
  { unfold key_and_cursor. rewrite Hkey. reflexivity. }
  destruct (key_failure_step env cfg (Z.to_nat (max_retries cfg)) url text model
              None 0%Z w key _ Hdelay Hmax Hkc
              ltac:(apply Nat.mod_upper_bound; lia) (Hfail _ _))
    as (key' & w1 & Hk' & -> & Hr1 & Hs1 & Hi1 & Hst1).
  assert (Hv1 : cursor_valid cfg w1).
  { unfold cursor_valid. rewrite Hi1. apply Nat.mod_upper_bound. lia. }
  destruct (loop_rotates env cfg (Z.to_nat (max_retries cfg)) url text model
              (0 + 1)%Z key' w1 Hdelay Hfail ltac:(lia) Hv1)
    as (w' & new & last & Hrun & Hr & Hkeys & Hi & Hs & Hst).
  exists w', (mkRequest url key text model :: new), last.
  split; [exact Hrun|].
  split; [rewrite Hr, Hr1, <- app_assoc; reflexivity|].
  replace (Z.to_nat (max_retries cfg))
    with (S (Z.to_nat (max_retries cfg - (0 + 1)))) by lia.
  set (left := Z.to_nat (max_retries cfg - (0 + 1))) in *.
  assert (Hsent : map xi_api_key (mkRequest url key text model :: new)
                  = rotation cfg (current_index w) (S left)).
  { simpl. rewrite Hkeys, Hi1.
    rewrite (rotation_cons cfg (current_index w) left key Hkey). f_equal.
    rewrite <- (rotation_cons cfg _ left key' Hk').
    apply rotation_take. exact Hn. }
  split; [exact Hsent|].
  split; [rewrite Hsent; apply rotation_issue; exact Hv|].
  split.
  { rewrite Hi, Hi1, Nat.Div0.add_mod_idemp_l, <- Nat.add_assoc,
      Nat.Div0.add_mod_idemp_l. f_equal. lia. }
  rewrite Hs, Hs1, <- app_assoc. reflexivity.
Qed.

Lemma key_failures_rotate_keys_witness :
  exists w' new last,
    make_api_call (refusing_env 429) no_retry_config "u" "Hello" "m" None
                  empty_world
    = Some (Returns (None, Some last), w')
    /\ requests w' = requests empty_world ++ new
    /\ map xi_api_key new = ["sk-alpha-0001"; "sk-bravo-0002"; "sk-charlie-0003"].
Proof.
  destruct (key_failures_rotate_keys (refusing_env 429) no_retry_config
              "u" "Hello" "m" empty_world
              ltac:(simpl; lia) ltac:(simpl; lia)
              ltac:(unfold cursor_valid; simpl; lia)
              ltac:(intros m req; reflexivity))
    as (w' & new & last & Hrun & Hr & Hkeys & _).
  exists w', new, last. split; [exact Hrun|]. split; [exact Hr|]. exact Hkeys.
Defined.

(** X8. When every attempt fails in another way (an exception, or a status
    that is none of 200, 429 and 401) and retrying is on, all
    [max_retries] requests of a call carry one and the same key, the one
    under the cursor when the call began; the cursor moves by one. *)
Theorem plain_failures_keep_the_key `{AudioLib} (env : Env) (cfg : Config)
    (url text model : string) (w : World) :
  retry_failed_calls cfg = true ->
  (0 <= retry_delay cfg)%Z ->
  (0 < max_retries cfg)%Z ->
  cursor_valid cfg w ->
  (forall m req, plain_failure (http env m req) = true) ->
  exists w' key,
    api_keys cfg !! current_index w = Some key
    /\ make_api_call env cfg url text model None w
       = Some (Returns (None, Some key), w')
    /\ requests w'
       = requests w ++ replicate (Z.to_nat (max_retries cfg))
                                 (mkRequest url key text model)
    /\ current_index w'
       = ((current_index w + 1) mod length (api_keys cfg))%nat
    /\ sleeps w' = sleeps w ++ replicate (Z.to_nat (max_retries cfg))
                                         (retry_delay cfg).
Proof.
  intros Hretry Hdelay Hmax Hv Hfail. unfold make_api_call.
  destruct (lookup_lt_is_Some_2 _ _ Hv) as [key Hkey].
  assert (Hkc : key_and_cursor cfg None w
                = Some (key, ((current_index w + 1) mod length (api_keys cfg))%nat)).
  { unfold key_and_cursor. rewrite Hkey. reflexivity. }
  destruct (plain_failure_step env cfg (Z.to_nat (max_retries cfg)) url text
              model None 0%Z w key _ Hretry Hdelay Hmax Hkc (Hfail _ _))
    as (w1 & -> & Hr1 & Hs1 & Hi1 & Hst1).
  destruct (loop_pins env cfg (Z.to_nat (max_retries cfg)) url text model
              (0 + 1)%Z key w1 Hretry Hdelay Hfail ltac:(lia))
    as (w' & Hrun & Hr & Hi & Hs & Hst).
  exists w', key. split; [exact Hkey|]. split; [exact Hrun|].
  replace (Z.to_nat (max_retries cfg))
    with (S (Z.to_nat (max_retries cfg - (0 + 1)))) by lia.
  split; [rewrite Hr, Hr1, <- app_assoc; reflexivity|].
  split; [congruence|].
  rewrite Hs, Hs1, <- app_assoc. reflexivity.
Qed.

Lemma plain_failures_keep_the_key_witness :
  exists w' key,
    api_keys sample_config !! current_index empty_world = Some key
    /\ make_api_call offline_env sample_config "u" "Hello" "m" None empty_world
       = Some (Returns (None, Some key), w')
    /\ requests w'
       = requests empty_world
         ++ replicate (Z.to_nat (max_retries sample_config))
                      (mkRequest "u" key "Hello" "m").
Proof.
  destruct (plain_failures_keep_the_key offline_env sample_config
              "u" "Hello" "m" empty_world eq_refl
              ltac:(simpl; lia) ltac:(simpl; lia)
              ltac:(unfold cursor_valid; simpl; lia)
              ltac:(intros m req; reflexivity))
    as (w' & key & Hkey & Hrun & Hr & _).
  exists w', key. split; [exact Hkey|]. split; [exact Hrun|]. exact Hr.
Defined.

(** ** What a successful call is charged *)

Lemma string_length_app s1 s2 :
  String.length (s1 +:+ s2) = (String.length s1 + String.length s2)%nat.
Proof. induction s1 as [|c s1 IH]; simpl; [reflexivity|]. rewrite IH. reflexivity. Qed.

Section Charges.
Context `{AudioLib}.
Variable env : Env.
Variable cfg : Config.
Local Open Scope Z_scope.

Lemma call_frame_response url text model headers (w : World) response k w1 :
  make_api_call env cfg url text model headers w
  = Some (Returns (Some response, k), w1) ->
  response_ok response = true /\ (exists key, k = Some key) /\ same_stores w w1.
Proof.
  intros Hcall.
  pose proof (make_api_call_loop_frame _ _ _ _ _ _ _ _ _ _ _ Hcall)
    as (Hst & Hresp & _).
  destruct (Hresp _ response eq_refl eq_refl) as (H200 & key & Hk).
  split; [unfold response_ok; rewrite H200; reflexivity|].
  split; [exists key; exact Hk | exact Hst].
Qed.

End Charges.

(** X9. A call that returns a response is charged at once and in full,
    before the audio is looked at: [synthesize] then records the length of
    the text as credits under the key that was sent and returns what the
    response decodes to, nothing when decoding fails; [generate_sfx]
    records the length of the prompt with its 32 characters of preamble,
    also when it returns no clip. *)
Theorem answered_calls_are_charged `{AudioLib} (env : Env) (cfg : Config)
    (w : World) (response : Response) (k : option string) (w1 : World) :
  (forall text speaker,
     PyStr.strip text <> EmptyString ->
     make_api_call env cfg (speech_url cfg speaker) text (voice_model cfg) None w
     = Some (Returns (Some response, k), w1) ->
     exists key,
       k = Some key
       /\ synthesize env cfg text speaker w
          = Some (content response,
                  log_credit_usage env key (py_len text) (py_len text)
                                   "speech_synthesis" w1))
  /\ (forall effect duration prompt,
        sfx_cache w !! cache_key_of cfg effect duration = None ->
        sfx_prompts cfg !! PyStr.lower effect = Some prompt ->
        make_api_call env cfg sfx_url (enhanced_prompt_of prompt) (sfx_model cfg)
                      None w
        = Some (Returns (Some response, k), w1) ->
        exists key clip w',
          k = Some key
          /\ generate_sfx env cfg effect duration w = Some (clip, w')
          /\ credits_log w'
             = credits_log
                 (log_credit_usage env key (32 + py_len prompt)
                    (32 + py_len prompt) "sfx_generation" w1)
          /\ credits_file w' = Some (credits_log w')
          /\ requests w' = requests w1).
Proof.
  split.
  - intros text speaker Hne Hcall.
    destruct (call_frame_response env cfg _ _ _ _ _ _ _ _ Hcall)
      as (Hok & (key & ->) & _).
    exists key. split; [reflexivity|]. unfold synthesize.
    destruct (PyStr.strip text) as [|c0 s0]; [congruence|]. cbv zeta.
    unfold bind. rewrite Hcall, Hok.
    unfold charge_and_decode, bind, lift, ret.
    destruct (content response); reflexivity.
  - intros effect duration prompt Hmiss Hprompt Hcall.
    destruct (call_frame_response env cfg _ _ _ _ _ _ _ _ Hcall)
      as (Hok & (key & ->) & _).
    assert (Hlen : py_len (enhanced_prompt_of prompt) = (32 + py_len prompt)%Z).
    { unfold py_len, enhanced_prompt_of. rewrite string_length_app.
      change (String.length "[SOUND EFFECT ONLY, NO SPEECH]: ") with 32%nat.
      lia. }
    exists key. unfold generate_sfx. unfold cache_key_of in Hmiss.
    rewrite Hmiss, Hprompt. cbv zeta. unfold bind. rewrite Hcall, Hok.
    unfold charge_and_decode, bind, lift, ret. rewrite Hlen.
    destruct (content response) as [sfx|].
    + destruct (fit _ _) as [sfx'|e]; eexists _, _;
        (split; [reflexivity|]); (split; [reflexivity|]); simpl; auto.
    + eexists _, _. split; [reflexivity|]. split; [reflexivity|]. simpl; auto.
Qed.

Lemma answered_calls_are_charged_witness :
  synthesize sample_env sample_config "Hello" "A" empty_world
  = Some (Some (tone 2000),
          log_credit_usage sample_env "sk-alpha-0001" 5 5 "speech_synthesis"
            (set_requests
               [mkRequest (speech_url sample_config "A") "sk-alpha-0001" "Hello"
                          "eleven_monolingual_v1"]
               (set_current_index 1 empty_world))).
Proof.
  destruct (proj1 (answered_calls_are_charged sample_env sample_config
                     empty_world (mkResponse 200 (Some (tone 2000)))
                     (Some "sk-alpha-0001")
                     (set_requests
                        [mkRequest (speech_url sample_config "A")
                                   "sk-alpha-0001" "Hello"
                                   "eleven_monolingual_v1"]
                        (set_current_index 1 empty_world)))
              "Hello" "A" ltac:(vm_compute; discriminate) eq_refl)
    as (key & Hkey & Hrun).
  injection Hkey as <-. exact Hrun.
Defined.

(** ** The effect cache *)

Section CacheFacts.
Context `{AudioLib}.
Variable env : Env.
Variable cfg : Config.
Local Open Scope Z_scope.

(** The three ways [generate_sfx] can end: a hit, which changes nothing; a
    miss without a clip, which leaves the cache alone; a miss with a clip,
    which is fitted and stored under the key of the effect. *)
Lemma generate_sfx_cache effect duration (w : World) a w' :
  generate_sfx env cfg effect duration w = Some (a, w') ->
  let key := cache_key_of cfg effect duration in
  (exists clip, sfx_cache w !! key = Some clip /\ a = Some clip /\ w' = w)
  \/ (sfx_cache w !! key = None /\ a = None /\ sfx_cache w' = sfx_cache w)
  \/ (exists clip,
        sfx_cache w !! key = None /\ a = Some clip
        /\ sfx_cache w' = <[key := clip]> (sfx_cache w)
        /\ (0 <= default (default_duration cfg) duration ->
            len clip <= default (default_duration cfg) duration)).
Proof.
  intros Hrun key. subst key. unfold generate_sfx, cache_key_of in *.
  set (key := effect +:+ "_" +:+ pretty (default (default_duration cfg) duration))
    in *.
  destruct (sfx_cache w !! key) as [clip|] eqn:Ecache.
  { injection Hrun as <- <-. left. eauto. }
  right.
  destruct (sfx_prompts cfg !! PyStr.lower effect) as [prompt|].
  2:{ injection Hrun as <- <-. left. auto. }
  cbv zeta in Hrun. unfold bind in Hrun.
  destruct (make_api_call env cfg sfx_url (enhanced_prompt_of prompt)
              (sfx_model cfg) None w) as [[res w1]|] eqn:Ecall; [|discriminate].
  pose proof (make_api_call_loop_frame _ _ _ _ _ _ _ _ _ _ _ Ecall)
    as ((Hc1 & _) & _).
  destruct res as [[[response|] sent]|e];
    try (injection Hrun as <- <-; left; auto).
  destruct (response_ok response); [|injection Hrun as <- <-; left; auto].
  destruct (charge_and_decode_total env response sent
              (py_len (enhanced_prompt_of prompt)) "sfx_generation" w1)
    as (d & w2 & Hcd & Hc2 & _).
  rewrite Hcd in Hrun.
  destruct d as [sfx|e]; [|injection Hrun as <- <-; left; split; [|split]; congruence].
  destruct (fit (AudioSegment.sub_gain sfx (volume_reduction cfg))
                (default (default_duration cfg) duration)) as [sfx'|e] eqn:Efit;
    [|injection Hrun as <- <-; left; split; [|split]; congruence].
  unfold lift, ret in Hrun. injection Hrun as <- <-. right.
  exists sfx'. split; [reflexivity|]. split; [reflexivity|].
  split; [simpl; congruence|].
  intros Ht. exact (fit_len_le _ _ _ Ht Efit).
Qed.

Lemma synthesize_keeps_cache text speaker (w : World) a w' :
  synthesize env cfg text speaker w = Some (a, w') ->
  sfx_cache w' = sfx_cache w.
Proof.
  intros Hrun.
  destruct (synthesize_cases env cfg text speaker w)
    as [[_ Hs]|(_ & res & w1 & a0 & w0 & Hcall & Hs & _ & _)].
  - rewrite Hs in Hrun. injection Hrun as <- <-. reflexivity.
  - clear Hs. unfold synthesize in Hrun.
    destruct (PyStr.strip text); [injection Hrun as <- <-; reflexivity|].
    cbv zeta in Hrun. unfold bind in Hrun. rewrite Hcall in Hrun.
    pose proof (make_api_call_loop_frame _ _ _ _ _ _ _ _ _ _ _ Hcall)
      as ((Hc1 & _) & _).
    destruct res as [[[response|] sent]|e];
      try (injection Hrun as <- <-; exact Hc1).
    destruct (response_ok response); [|injection Hrun as <- <-; exact Hc1].
    destruct (charge_and_decode_total env response sent (py_len text)
                "speech_synthesis" w1) as (d & w2 & Hcd & Hc2 & _).
    rewrite Hcd in Hrun.
    destruct d; injection Hrun as <- <-; congruence.
Qed.

Lemma cache_kept_refl (w : World) : cache_kept w w.
Proof. intros key clip Hk. exact Hk. Qed.

Lemma cache_kept_trans (w w1 w2 : World) :
  cache_kept w w1 -> cache_kept w1 w2 -> cache_kept w w2.
Proof. intros H1 H2 key clip Hk. apply H2, H1, Hk. Qed.

Lemma chunk_audio_cache chunk (w : World) a w' :
  chunk_audio env cfg chunk w = Some (a, w') ->
  cache_kept w w'
  /\ (0 <= default_duration cfg -> cache_fitted cfg w -> cache_fitted cfg w')
  /\ (forall effect clip, chunk = Sfx effect -> a = Some clip ->
        0 <= default_duration cfg -> cache_fitted cfg w ->
        len clip <= default_duration cfg).
Proof.
  destruct chunk as [speaker text|effect]; simpl; intros Hrun.
  - pose proof (synthesize_keeps_cache _ _ _ _ _ Hrun) as Hc.
    split; [intros key clip; rewrite Hc; auto|].
    split; [intros _ Hf key clip; rewrite Hc; apply Hf | discriminate].
  - destruct (generate_sfx_cache effect None w a w' Hrun)
      as [(clip & Hhit & -> & ->)|[(Hmiss & -> & Hc)|(clip & Hmiss & -> & Hc & Hlen)]].
    + split; [apply cache_kept_refl|]. split; [auto|].
      intros effect' clip' _ [= <-] _ Hf. exact (Hf _ _ Hhit).
    + split; [intros key clip; rewrite Hc; auto|].
      split; [intros _ Hf key clip; rewrite Hc; apply Hf | discriminate].
    + split.
      { intros key clip0 Hk. rewrite Hc.
        destruct (decide (cache_key_of cfg effect None = key)) as [<-|Hne];
          [congruence|].
        rewrite lookup_insert_ne by exact Hne. exact Hk. }
      split.
      { intros Ht Hf key clip0. rewrite Hc.
        destruct (decide (cache_key_of cfg effect None = key)) as [<-|Hne].
        - rewrite lookup_insert_eq. intros [= <-]. exact (Hlen Ht).
        - rewrite lookup_insert_ne by exact Hne. apply Hf. }
      intros effect' clip' _ [= <-] Ht _. exact (Hlen Ht).
Qed.

Lemma process_chunks_cache chunks : forall podcast (w : World) timeline w',
  process_chunks env cfg podcast chunks w = Some (timeline, w') ->
  cache_kept w w'
  /\ (0 <= default_duration cfg -> cache_fitted cfg w -> cache_fitted cfg w').
Proof.
  induction chunks as [|chunk rest IH]; intros podcast w timeline w' Hrun;
    simpl in Hrun.
  - injection Hrun as <- <-. split; [apply cache_kept_refl | auto].
  - unfold bind in Hrun.
    destruct (process_chunk env cfg podcast chunk w) as [[p1 w1]|] eqn:E1;
      [|discriminate].
    assert (Hstep : cache_kept w w1
                    /\ (0 <= default_duration cfg -> cache_fitted cfg w ->
                        cache_fitted cfg w1)).
    { unfold process_chunk, bind in E1.
      destruct (chunk_audio env cfg chunk w) as [[a w0]|] eqn:Ea; [|discriminate].
      injection E1 as _ <-.
      destruct (chunk_audio_cache chunk w a w0 Ea) as (Hk & Hf & _). auto. }
    destruct Hstep as [Hk1 Hf1].
    destruct (IH p1 w1 timeline w' Hrun) as [Hk2 Hf2].
    split; [exact (cache_kept_trans _ _ _ Hk1 Hk2) | auto].
Qed.

End CacheFacts.

(** X10. The effect cache gives back what was stored.  After
    [generate_sfx] has returned a clip, asking again for the same effect
    and duration returns the same clip without a request or any other
    change of state; a call that returns no clip stores nothing; and no
    entry is ever lost or overwritten, neither by [generate_sfx] nor by a
    whole chunk loop. *)
Theorem effect_cache_round_trip `{AudioLib} (env : Env) (cfg : Config)
    (effect : string) (duration : option Z) (w : World)
    (a : option AudioSegment.t) (w1 : World) :
  generate_sfx env cfg effect duration w = Some (a, w1) ->
  (forall clip, a = Some clip ->
     sfx_cache w1 !! cache_key_of cfg effect duration = Some clip
     /\ generate_sfx env cfg effect duration w1 = Some (Some clip, w1))
  /\ (a = None -> sfx_cache w1 = sfx_cache w)
  /\ cache_kept w w1
  /\ (forall podcast chunks timeline w2,
        process_chunks env cfg podcast chunks w1 = Some (timeline, w2) ->
        cache_kept w1 w2).
Proof.
  intros Hrun.
  assert (Hstored : forall clip, a = Some clip ->
            sfx_cache w1 !! cache_key_of cfg effect duration = Some clip).
  { intros clip ->.
    destruct (generate_sfx_cache env cfg effect duration w _ w1 Hrun)
      as [(clip0 & Hhit & [= <-] & ->)|[(_ & Hno & _)|(clip0 & _ & [= <-] & Hc & _)]].
    - exact Hhit.
    - discriminate.
    - rewrite Hc. apply lookup_insert_eq. }
  split.
  { intros clip Ha. split; [exact (Hstored clip Ha)|].
    unfold generate_sfx. pose proof (Hstored clip Ha) as Hk.
    unfold cache_key_of in Hk. rewrite Hk. reflexivity. }
  split.
  { intros ->.
    destruct (generate_sfx_cache env cfg effect duration w _ w1 Hrun)
      as [(clip0 & _ & Hno & _)|[(_ & _ & Hc)|(clip0 & _ & Hno & _)]];
      [discriminate | exact Hc | discriminate]. }
  split.
  { intros key clip Hk.
    destruct (generate_sfx_cache env cfg effect duration w _ w1 Hrun)
      as [(clip0 & _ & _ & ->)|[(_ & _ & Hc)|(clip0 & Hmiss & _ & Hc & _)]].
    - exact Hk.
    - rewrite Hc. exact Hk.
    - rewrite Hc.
      destruct (decide (cache_key_of cfg effect duration = key)) as [<-|Hne];
        [congruence|].
      rewrite lookup_insert_ne by exact Hne. exact Hk. }
  intros podcast chunks timeline w2 Hloop.
  apply (process_chunks_cache env cfg chunks podcast w1 timeline w2 Hloop).
Qed.

Lemma effect_cache_round_trip_witness :
  let clip :=
    AudioSegment.slice_to
      (AudioSegment.mul (AudioSegment.sub_gain (tone 2000) 10) 2) 3000 in
  let w1 :=
    set_sfx_cache {[ "door_3000" := clip ]}
      (log_credit_usage sample_env "sk-alpha-0001" 61 61 "sfx_generation"
         (set_requests
            [mkRequest sfx_url "sk-alpha-0001"
               "[SOUND EFFECT ONLY, NO SPEECH]: Old wooden door creaking open"
               "eleven_multilingual_v2"]
            (set_current_index 1 empty_world))) in
  generate_sfx sample_env sample_config "door" None empty_world
  = Some (Some clip, w1)
  /\ generate_sfx sample_env sample_config "door" None w1
     = Some (Some clip, w1).
Proof.
  intros clip w1.
  assert (Erun : generate_sfx sample_env sample_config "door" None empty_world
                 = Some (Some clip, w1)) by reflexivity.
  split; [exact Erun|].
  exact (proj2 (proj1 (effect_cache_round_trip sample_env sample_config "door"
                         None empty_world (Some clip) w1 Erun) clip eq_refl)).
Defined.

(** X11. Effects on the timeline last no longer than the configured
    duration.  When [default_duration] is not negative and no cached clip
    lasts longer, as in a cache that is still empty, then no clip that
    [generate_sfx] returns for [generate] lasts longer than
    [default_duration] milliseconds, and the chunk loop keeps the cache that
    way. *)
Theorem effect_clips_within_the_default `{AudioLib} (env : Env) (cfg : Config)
    (w : World) :
  (0 <= default_duration cfg)%Z ->
  cache_fitted cfg w ->
  (forall effect clip w1,
     generate_sfx env cfg effect None w = Some (Some clip, w1) ->
     (len clip <= default_duration cfg)%Z /\ cache_fitted cfg w1)
  /\ (forall podcast chunks timeline w1,
        process_chunks env cfg podcast chunks w = Some (timeline, w1) ->
        cache_fitted cfg w1).
Proof.
  intros Ht Hf. split.
  - intros effect clip w1 Hrun.
    destruct (chunk_audio_cache env cfg (Sfx effect) w (Some clip) w1 Hrun)
      as (_ & Hkeep & Hlen).
    split; [exact (Hlen effect clip eq_refl eq_refl Ht Hf) | exact (Hkeep Ht Hf)].
  - intros podcast chunks timeline w1 Hrun.
    apply (process_chunks_cache env cfg chunks podcast w timeline w1 Hrun);
      assumption.
Qed.

Lemma effect_clips_within_the_default_witness :
  exists clip w1,
    generate_sfx sample_env sample_config "door" None empty_world
    = Some (Some clip, w1)
    /\ (len clip <= 3000)%Z /\ cache_fitted sample_config w1.
Proof.
  assert (Erun : exists clip w1,
            generate_sfx sample_env sample_config "door" None empty_world
            = Some (Some clip, w1)).
  { exists (AudioSegment.slice_to
              (AudioSegment.mul (AudioSegment.sub_gain (tone 2000) 10) 2) 3000).
    exists (set_sfx_cache
              {[ "door_3000" :=
                   AudioSegment.slice_to
                     (AudioSegment.mul (AudioSegment.sub_gain (tone 2000) 10) 2)
                     3000 ]}
              (log_credit_usage sample_env "sk-alpha-0001" 61 61
                 "sfx_generation"
                 (set_requests
                    [mkRequest sfx_url "sk-alpha-0001"
                       "[SOUND EFFECT ONLY, NO SPEECH]: Old wooden door creaking open"
                       "eleven_multilingual_v2"]
                    (set_current_index 1 empty_world)))).
    reflexivity. }
  destruct Erun as (clip & w1 & Erun).
  exists clip, w1. split; [exact Erun|].
  refine (proj1 (effect_clips_within_the_default sample_env sample_config
                   empty_world _ _) "door" clip w1 Erun).
  - discriminate.
  - intros key clip0 Hk. discriminate Hk.
Defined.

(** ** The timeline of a run *)

Section TimelineRuns.
Context `{AudioLib}.
Variable env : Env.
Variable cfg : Config.
Local Open Scope Z_scope.

Lemma settled_inside (podcast : AudioSegment.t) :
  (Z.to_nat (frame_at (len podcast - 2000)) <= length podcast)%nat.
Proof.
  destruct (Z_le_gt_dec (len podcast) 2000) as [Hs|Hl].
  - assert (frame_at (len podcast - 2000) <= frame_at 0)
      by (apply frame_at_mono; lia).
    change (frame_at 0) with 0 in *. lia.
  - pose proof (tail_start podcast Hl) as Hin.
    unfold AudioSegment.frame_count in Hin. lia.
Qed.

Lemma settled_length (podcast : AudioSegment.t) :
  length (settled podcast) = Z.to_nat (frame_at (len podcast - 2000)).
Proof.
  unfold settled. rewrite length_take. pose proof (settled_inside podcast). lia.
Qed.

Lemma take_settled_app (podcast more : AudioSegment.t) :
  take (Z.to_nat (frame_at (len podcast - 2000))) (podcast ++ more)
  = settled podcast.
Proof. unfold settled. apply take_app_le, settled_inside. Qed.

(** What keeps the first [k] frames of [podcast] keeps them with more
    frames after it. *)
Lemma take_settled_more (podcast body more : AudioSegment.t) :
  take (Z.to_nat (frame_at (len podcast - 2000))) body = settled podcast ->
  take (Z.to_nat (frame_at (len podcast - 2000))) (body ++ more)
  = settled podcast.
Proof.
  intros Hold. rewrite take_app_le; [exact Hold|].
  pose proof (settled_length podcast) as Hk. rewrite <- Hold in Hk.
  rewrite length_take in Hk. lia.
Qed.

Lemma add_sfx_settled (podcast sfx : AudioSegment.t) :
  len podcast <= len (add_sfx cfg podcast sfx)
  /\ take (Z.to_nat (frame_at (len podcast - 2000))) (add_sfx cfg podcast sfx)
     = settled podcast.
Proof.
  destruct (sfx_overlap cfg) eqn:Eo.
  - destruct (Z_le_gt_dec (len podcast) 2000) as [Hs|Hl].
    + rewrite add_sfx_short by exact Hs.
      split; [apply len_app_l | apply take_settled_app].
    + split; [rewrite add_sfx_overlay_len by assumption; lia|].
      rewrite add_sfx_overlay by assumption. unfold settled.
      pose proof (settled_inside podcast) as Hin.
      rewrite take_app_le by (rewrite length_take; lia).
      rewrite take_take. f_equal. lia.
  - rewrite add_sfx_no_overlap by exact Eo.
    split; [apply len_app_l | apply take_settled_app].
Qed.

(** One chunk: the timeline does not get shorter and its settled part
    stays; a dialogue chunk, and any chunk when effects are not mixed in,
    only appends, and the trailing silence at least. *)
Lemma process_chunk_timeline podcast chunk (w : World) timeline w' :
  process_chunk env cfg podcast chunk w = Some (timeline, w') ->
  len podcast <= len timeline
  /\ take (Z.to_nat (frame_at (len podcast - 2000))) timeline = settled podcast
  /\ (sfx_overlap cfg = false \/ (exists speaker text, chunk = Dialogue speaker text) ->
      exists more,
        timeline = podcast ++ more
        /\ AudioSegment.frame_count (silent (silence_between_chunks cfg))
           <= AudioSegment.frame_count more).
Proof.
  intros Hrun.
  destruct (chunk_audio_total env cfg chunk w) as (a & w1 & Ha & _).
  rewrite (process_chunk_eq env cfg podcast chunk w a w1 Ha) in Hrun.
  injection Hrun as <- _.
  set (gap := silent (silence_between_chunks cfg)).
  assert (Hmore : forall more : AudioSegment.t,
            AudioSegment.frame_count gap
            <= AudioSegment.frame_count (more ++ gap)).
  { intros more. rewrite frame_count_app. unfold AudioSegment.frame_count. lia. }
  destruct chunk as [speaker text|effect]; destruct (usable a) as [clip|].
  - unfold add_dialogue. rewrite <- !app_assoc.
    split; [apply len_app_l|]. split; [apply take_settled_app|].
    intros _. eexists. split; [reflexivity|].
    rewrite !frame_count_app. unfold AudioSegment.frame_count. lia.
  - split; [apply len_app_l|]. split; [apply take_settled_app|].
    intros _. exists gap. split; [reflexivity | lia].
  - destruct (add_sfx_settled podcast clip) as [Hlen Hold].
    split; [pose proof (len_app_l (add_sfx cfg podcast clip) gap); lia|].
    split; [apply take_settled_more, Hold|].
    intros [Eo|(speaker & text & [=])].
    rewrite add_sfx_no_overlap by exact Eo. rewrite <- app_assoc.
    eexists. split; [reflexivity | apply Hmore].
  - split; [apply len_app_l|]. split; [apply take_settled_app|].
    intros _. exists gap. split; [reflexivity | lia].
Qed.

Lemma process_chunks_timeline chunks : forall podcast (w : World) timeline w',
  process_chunks env cfg podcast chunks w = Some (timeline, w') ->
  len podcast <= len timeline
  /\ take (Z.to_nat (frame_at (len podcast - 2000))) timeline = settled podcast
  /\ ((sfx_overlap cfg = false
       \/ Forall (fun chunk => exists speaker text, chunk = Dialogue speaker text)
                 chunks) ->
      exists more,
        timeline = podcast ++ more
        /\ Z.of_nat (length chunks)
           * AudioSegment.frame_count (silent (silence_between_chunks cfg))
           <= AudioSegment.frame_count more).
Proof.
  induction chunks as [|chunk rest IH]; intros podcast w timeline w' Hrun;
    simpl in Hrun.
  - injection Hrun as <- _. simpl length.
    split; [lia|]. split; [reflexivity|].
    intros _. exists []. split; [symmetry; apply app_nil_r|].
    unfold AudioSegment.frame_count. simpl. lia.
  - unfold bind in Hrun.
    destruct (process_chunk env cfg podcast chunk w) as [[p1 w1]|] eqn:E1;
      [|discriminate].
    destruct (process_chunk_timeline podcast chunk w p1 w1 E1)
      as (Hlen1 & Hold1 & Happ1).
    destruct (IH p1 w1 timeline w' Hrun) as (Hlen2 & Hold2 & Happ2).
    split; [lia|]. split.
    + assert (Hk : (Z.to_nat (frame_at (len podcast - 2000))
                    <= Z.to_nat (frame_at (len p1 - 2000)))%nat).
      { pose proof (frame_at_mono (len podcast - 2000) (len p1 - 2000)
                      ltac:(lia)). lia. }
      rewrite <- Hold1.
      replace (Z.to_nat (frame_at (len podcast - 2000)))
        with (Z.to_nat (frame_at (len podcast - 2000))
              `min` Z.to_nat (frame_at (len p1 - 2000)))%nat by lia.
      rewrite <- !take_take. unfold settled in Hold2. rewrite Hold2.
      reflexivity.
    + intros Hcase.
      destruct Happ1 as (more1 & -> & Hf1).
      { destruct Hcase as [Eo|Hall]; [left; exact Eo|].
        right. apply (Forall_inv Hall). }
      destruct Happ2 as (more2 & -> & Hf2).
      { destruct Hcase as [Eo|Hall]; [left; exact Eo|].
        right. exact (Forall_inv_tail Hall). }
      exists (more1 ++ more2). split; [symmetry; apply app_assoc|].
      rewrite frame_count_app. simpl length. lia.
Qed.

End TimelineRuns.

(** X12. What is on the timeline stays.  Over any run of the chunk loop of
    [generate], the timeline never gets shorter, and the audio older than
    the last two seconds before the run is still there unchanged, which is
    all an effect can be mixed into.  When [sfx_overlap] is off, or the
    chunks are all dialogue, the run only appends, and the frames of one
    trailing silence for every chunk at least. *)
Theorem timeline_only_grows `{AudioLib} (env : Env) (cfg : Config)
    (podcast : AudioSegment.t) (chunks : list Chunk) (w : World)
    (timeline : AudioSegment.t) (w' : World) :
  process_chunks env cfg podcast chunks w = Some (timeline, w') ->
  (len podcast <= len timeline)%Z
  /\ take (Z.to_nat (frame_at (len podcast - 2000))) timeline = settled podcast
  /\ ((sfx_overlap cfg = false
       \/ Forall (fun chunk => exists speaker text, chunk = Dialogue speaker text)
                 chunks) ->
      exists more,
        timeline = podcast ++ more
        /\ (Z.of_nat (length chunks)
            * AudioSegment.frame_count (silent (silence_between_chunks cfg))
            <= AudioSegment.frame_count more)%Z).
Proof. apply process_chunks_timeline. Qed.

Lemma timeline_only_grows_witness :
  exists timeline w',
    process_chunks sample_env sample_config (silent 500)
                   (ScriptParser.parse script_example) empty_world
    = Some (timeline, w')
    /\ (len (silent 500) <= len timeline)%Z.
Proof.
  destruct (process_chunks_total sample_env sample_config
              (ScriptParser.parse script_example) (silent 500) empty_world)
    as (timeline & w' & Hrun & _).
  exists timeline, w'. split; [exact Hrun|].
  exact (proj1 (timeline_only_grows sample_env sample_config (silent 500)
                  (ScriptParser.parse script_example) empty_world timeline w'
                  Hrun)).
Defined.

(** ** Requests and charges of a run *)

Section TrafficFacts.
Context `{AudioLib}.
Variable env : Env.
Variable cfg : Config.
Local Open Scope Z_scope.

Lemma sent_at_most_refl n (w : World) : sent_at_most n w w.
Proof. exists []. split; [symmetry; apply app_nil_r | simpl; lia]. Qed.

Lemma sent_at_most_trans n m (w w1 w2 : World) :
  sent_at_most n w w1 -> sent_at_most m w1 w2 -> sent_at_most (n + m) w w2.
Proof.
  intros (new1 & Hr1 & Hl1) (new2 & Hr2 & Hl2). exists (new1 ++ new2).
  split; [rewrite Hr2, Hr1; symmetry; apply app_assoc|].
  rewrite length_app. lia.
Qed.

Lemma make_api_call_sent url text model headers (w : World) res w' :
  make_api_call env cfg url text model headers w = Some (res, w') ->
  sent_at_most (Z.to_nat (max_retries cfg)) w w'.
Proof.
  intros Hrun.
  destruct (make_api_call_loop_spec env cfg (S (Z.to_nat (max_retries cfg)))
              url text model 0 headers w ltac:(lia))
    as (res0 & w0 & new & Hrun0 & Hreq & Hlen & _).
  unfold make_api_call in Hrun. rewrite Hrun0 in Hrun.
  injection Hrun as <- <-. exists new. split; [exact Hreq|].
  replace (max_retries cfg - 0) with (max_retries cfg) in Hlen by lia.
  exact Hlen.
Qed.

Lemma charge_and_decode_requests response api_key chars operation
    (w : World) a w' :
  charge_and_decode env response api_key chars operation w = Some (a, w') ->
  requests w' = requests w.
Proof.
  unfold charge_and_decode. destruct api_key as [api_key|];
    [|intros [= <- <-]; reflexivity].
  unfold bind, lift, ret. destruct (content response);
    intros [= <- <-]; reflexivity.
Qed.

Lemma chunk_audio_sent chunk (w : World) a w' :
  chunk_audio env cfg chunk w = Some (a, w') ->
  sent_at_most (Z.to_nat (max_retries cfg)) w w'.
Proof.
  destruct chunk as [speaker text|effect]; simpl; intros Hrun.
  - unfold synthesize in Hrun.
    destruct (PyStr.strip text);
      [injection Hrun as <- <-; apply sent_at_most_refl|].
    cbv zeta in Hrun. unfold bind in Hrun.
    destruct (make_api_call env cfg _ text _ None w) as [[res w1]|] eqn:Ecall;
      [|discriminate].
    pose proof (make_api_call_sent _ _ _ _ _ _ _ Ecall) as Hsent.
    destruct res as [[[response|] sent]|e];
      try (injection Hrun as <- <-; exact Hsent).
    destruct (response_ok response); [|injection Hrun as <- <-; exact Hsent].
    destruct (charge_and_decode env response sent (py_len text)
                "speech_synthesis" w1) as [[d w2]|] eqn:Ecd; [|discriminate].
    pose proof (charge_and_decode_requests _ _ _ _ _ _ _ Ecd) as Hr2.
    destruct Hsent as (new & Hr1 & Hl1).
    destruct d; injection Hrun as <- <-; exists new;
      (split; [congruence | lia]).
  - unfold generate_sfx in Hrun.
    destruct (sfx_cache w !! _);
      [injection Hrun as <- <-; apply sent_at_most_refl|].
    destruct (sfx_prompts cfg !! _) as [prompt|];
      [|injection Hrun as <- <-; apply sent_at_most_refl].
    cbv zeta in Hrun. unfold bind in Hrun.
    destruct (make_api_call env cfg sfx_url _ _ None w) as [[res w1]|] eqn:Ecall;
      [|discriminate].
    pose proof (make_api_call_sent _ _ _ _ _ _ _ Ecall) as Hsent.
    destruct res as [[[response|] sent]|e];
      try (injection Hrun as <- <-; exact Hsent).
    destruct (response_ok response); [|injection Hrun as <- <-; exact Hsent].
    destruct (charge_and_decode env response sent _ "sfx_generation" w1)
      as [[d w2]|] eqn:Ecd; [|discriminate].
    pose proof (charge_and_decode_requests _ _ _ _ _ _ _ Ecd) as Hr2.
    destruct Hsent as (new & Hr1 & Hl1).
    destruct d as [sfx|e];
      [|injection Hrun as <- <-; exists new; (split; [congruence | lia])].
    destruct (fit _ _);
      injection Hrun as <- <-; exists new; (split; [simpl; congruence | lia]).
Qed.

Lemma process_chunks_sent chunks : forall podcast (w : World) timeline w',
  process_chunks env cfg podcast chunks w = Some (timeline, w') ->
  sent_at_most (length chunks * Z.to_nat (max_retries cfg)) w w'.
Proof.
  induction chunks as [|chunk rest IH]; intros podcast w timeline w' Hrun;
    simpl in Hrun.
  - injection Hrun as _ <-. apply sent_at_most_refl.
  - unfold bind in Hrun.
    destruct (process_chunk env cfg podcast chunk w) as [[p1 w1]|] eqn:E1;
      [|discriminate].
    unfold process_chunk, bind in E1.
    destruct (chunk_audio env cfg chunk w) as [[a w0]|] eqn:Ea; [|discriminate].
    injection E1 as _ <-.
    exact (sent_at_most_trans _ _ _ _ _ (chunk_audio_sent _ _ _ _ Ea)
             (IH _ _ _ _ Hrun)).
Qed.

(** A chunk on a service where every attempt fails leaves the cache and the
    ledger as they are, whatever the cache holds. *)
Lemma chunk_audio_failing chunk (w : World) a w' :
  always_fails env ->
  chunk_audio env cfg chunk w = Some (a, w') ->
  same_stores w w'.
Proof.
  intros Hfail. destruct chunk as [speaker text|effect]; simpl; intros Hrun.
  - destruct (synthesize_always_fails env cfg text speaker w Hfail)
      as (w0 & Hs & Hsame).
    rewrite Hs in Hrun. injection Hrun as _ <-. exact Hsame.
  - destruct (generate_sfx_cases env cfg effect None w)
      as (a0 & w0 & Hs & _ & Hhit & Hnone & Hcall).
    rewrite Hs in Hrun. injection Hrun as <- <-.
    destruct (sfx_cache w !! cache_key_of cfg effect None) as [clip|] eqn:Ec.
    { destruct (Hhit clip eq_refl) as [_ ->]. apply same_stores_refl. }
    destruct (sfx_prompts cfg !! PyStr.lower effect) as [prompt|] eqn:Ep.
    2:{ destruct (Hnone eq_refl eq_refl) as [_ ->]. apply same_stores_refl. }
    destruct (Hcall eq_refl prompt eq_refl) as (res & w1 & Ecall & Hres).
    destruct (make_api_call_loop_frame _ _ _ _ _ _ _ _ _ _ _ Ecall)
      as (Hsame & _ & Hnever).
    destruct (Hres (Hnever Hfail)) as [_ ->]. exact Hsame.
Qed.

Lemma process_chunks_failing chunks : forall podcast (w : World) timeline w',
  always_fails env ->
  process_chunks env cfg podcast chunks w = Some (timeline, w') ->
  same_stores w w'.
Proof.
  induction chunks as [|chunk rest IH]; intros podcast w timeline w' Hfail Hrun;
    simpl in Hrun.
  - injection Hrun as _ <-. apply same_stores_refl.
  - unfold bind in Hrun.
    destruct (process_chunk env cfg podcast chunk w) as [[p1 w1]|] eqn:E1;
      [|discriminate].
    unfold process_chunk, bind in E1.
    destruct (chunk_audio env cfg chunk w) as [[a w0]|] eqn:Ea; [|discriminate].
    injection E1 as _ <-.
    exact (same_stores_trans _ _ _ (chunk_audio_failing _ _ _ _ Hfail Ea)
             (IH _ _ _ _ Hfail Hrun)).
Qed.

End TrafficFacts.

(** X13. A run costs at most [max_retries] requests per chunk.  Over the
    chunk loop of [generate] the request log is only appended to, and by at
    most [max_retries] requests for every chunk of the script. *)
Theorem requests_per_run `{AudioLib} (env : Env) (cfg : Config)
    (podcast : AudioSegment.t) (chunks : list Chunk) (w : World)
    (timeline : AudioSegment.t) (w' : World) :
  process_chunks env cfg podcast chunks w = Some (timeline, w') ->
  exists new,
    requests w' = requests w ++ new
    /\ (length new <= length chunks * Z.to_nat (max_retries cfg))%nat.
Proof. apply process_chunks_sent. Qed.

Lemma requests_per_run_witness :
  exists timeline w' new,
    process_chunks sample_env sample_config (silent 500)
                   (ScriptParser.parse script_example) empty_world
    = Some (timeline, w')
    /\ requests w' = new /\ (length new <= 3 * 3)%nat.
Proof.
  destruct (process_chunks_total sample_env sample_config
              (ScriptParser.parse script_example) (silent 500) empty_world)
    as (timeline & w' & Hrun & _).
  destruct (requests_per_run sample_env sample_config (silent 500)
              (ScriptParser.parse script_example) empty_world timeline w' Hrun)
    as (new & Hreq & Hlen).
  exists timeline, w', new. split; [exact Hrun|]. split; [exact Hreq|].
  exact Hlen.
Defined.

(** X14. Failed calls cost nothing.  On a service where no request is
    answered with status 200, a whole run of [generate] leaves the credits
    log, its file and the effect cache exactly as they were, whatever they
    held before and whether or not the export succeeds. *)
Theorem failed_calls_cost_nothing `{AudioLib} (env : Env) (cfg : Config)
    (script output_file : string) (w : World) (ok : bool) (w' : World) :
  always_fails env ->
  generate env cfg script output_file w = Some (ok, w') ->
  credits_log w' = credits_log w
  /\ credits_file w' = credits_file w
  /\ sfx_cache w' = sfx_cache w.
Proof.
  intros Hfail Hrun. unfold generate in Hrun.
  destruct (ScriptParser.parse script) as [|chunk rest];
    [injection Hrun as _ <-; auto|].
  unfold bind in Hrun.
  destruct (process_chunks env cfg _ (chunk :: rest) w) as [[timeline w1]|]
    eqn:Eloop; [|discriminate].
  destruct (process_chunks_failing env cfg _ _ _ _ _ Hfail Eloop)
    as (Hc & Hl & Hf & _).
  unfold export, lift in Hrun.
  destruct (export_ok env output_file _); injection Hrun as _ <-; simpl; auto.
Qed.

Lemma failed_calls_cost_nothing_witness :
  exists ok w',
    generate offline_env sample_config failing_script "out.mp3" empty_world
    = Some (ok, w')
    /\ credits_log w' = ∅ /\ credits_file w' = None /\ sfx_cache w' = ∅.
Proof.
  destruct (generate_exports offline_env sample_config failing_script
              "out.mp3" empty_world ltac:(vm_compute; discriminate))
    as (timeline & w1 & _ & _ & Hgen).
  pose (w' := set_exported
                (exported w1
                 ++ [("out.mp3", final_timeline sample_config timeline)]) w1).
  assert (Erun : generate offline_env sample_config failing_script "out.mp3"
                          empty_world = Some (true, w')) by exact Hgen.
  exists true, w'. split; [exact Erun|].
  apply (failed_calls_cost_nothing offline_env sample_config failing_script
           "out.mp3" empty_world true w'); [|exact Erun].
  intros n req. reflexivity.
Defined.

(** ** Growth of the credits log *)

Lemma records_kept_stable `{AudioLib} (env : Env) (cfg : Config)
    (log0 : gmap string LedgerEntry) :
  stable env cfg (records_kept log0).
Proof.
  unfold stable, records_kept.
  split.
  { intros w Hw key_id entry0 Hk.
    rewrite (proj1 (proj2 (proj2 (get_next_api_key_frame cfg w)))).
    exact (Hw key_id entry0 Hk). }
  split; [intros w r Hw; exact Hw|].
  split; [intros w s Hw; exact Hw|].
  split; [|split; intros w c Hw; exact Hw].
  intros w key chars credits operation Hw key_id entry0 Hk.
  destruct (Hw key_id entry0 Hk) as (entry & later & Hlook & Hcalls).
  unfold log_credit_usage. simpl.
  destruct (decide (key_id = key_id_of key)) as [->|Hne].
  - rewrite ledger_add_lookup. unfold entry_of. rewrite Hlook.
    eexists _, (later ++ [_]). split; [reflexivity|]. simpl.
    rewrite Hcalls. symmetry. apply app_assoc.
  - rewrite ledger_add_lookup_ne by exact Hne. eauto.
Qed.

(** X15. Usage records are never lost.  Whatever a call or a whole run of
    [generate] does to the credits log, every key id that had an entry
    before still has one after, and the calls recorded before are still
    there, in order, in front of the ones the run added. *)
Theorem usage_records_are_kept `{AudioLib} (env : Env) (cfg : Config)
    (w : World) (key_id : string) (entry0 : LedgerEntry) :
  credits_log w !! key_id = Some entry0 ->
  (forall text speaker audio w',
     synthesize env cfg text speaker w = Some (audio, w') ->
     exists entry later,
       credits_log w' !! key_id = Some entry
       /\ calls entry = calls entry0 ++ later)
  /\ (forall effect duration audio w',
        generate_sfx env cfg effect duration w = Some (audio, w') ->
        exists entry later,
          credits_log w' !! key_id = Some entry
          /\ calls entry = calls entry0 ++ later)
  /\ (forall script output_file ok w',
        generate env cfg script output_file w = Some (ok, w') ->
        exists entry later,
          credits_log w' !! key_id = Some entry
          /\ calls entry = calls entry0 ++ later).
Proof.
  intros Hk.
  pose proof (records_kept_stable env cfg (credits_log w)) as Hst.
  assert (Hw : records_kept (credits_log w) w).
  { intros k e He. exists e, []. split; [exact He|].
    symmetry. apply app_nil_r. }
  split; [intros text speaker audio w' Hrun;
          exact (synthesize_stable env cfg _ Hst _ _ _ _ _ Hw Hrun _ _ Hk)|].
  split; [intros effect duration audio w' Hrun;
          exact (generate_sfx_stable env cfg _ Hst _ _ _ _ _ Hw Hrun _ _ Hk)|].
  intros script output_file ok w' Hrun.
  exact (generate_stable env cfg _ Hst _ _ _ _ _ Hw Hrun _ _ Hk).
Qed.

Lemma usage_records_are_kept_witness :
  exists entry0,
    credits_log charged_world !! key_id_of "sk-alpha-0001" = Some entry0
    /\ forall script output_file ok w',
         generate sample_env sample_config script output_file charged_world
         = Some (ok, w') ->
         exists entry later,
           credits_log w' !! key_id_of "sk-alpha-0001" = Some entry
           /\ calls entry = calls entry0 ++ later.
Proof.
  eexists. split; [apply ledger_add_lookup|].
  apply (proj2 (proj2 (usage_records_are_kept sample_env sample_config
                         charged_world (key_id_of "sk-alpha-0001") _
                         (ledger_add_lookup _ _ _)))).
Defined.

(** ** Key ids of the credits log *)

Lemma append_cancel_r (tail : string) : forall a b : string,
  a +:+ tail = b +:+ tail -> a = b.
Proof.
  assert (Hlen : forall c s, tail <> String c (s +:+ tail)).
  { intros c s Heq. apply (f_equal String.length) in Heq.
    simpl in Heq. rewrite string_length_app in Heq. lia. }
  induction a as [|c a IH]; intros [|d b] Heq; simpl in Heq.
  - reflexivity.
  - exfalso. exact (Hlen _ _ Heq).
  - exfalso. symmetry in Heq. exact (Hlen _ _ Heq).
  - injection Heq as -> Heq. f_equal. exact (IH b Heq).
Qed.

(** X19. The credits log knows a key by its first eight characters only.
    Two keys have the same key id exactly when their first eight characters
    agree; charges to two such keys land in one and the same entry, whose
    total is the sum of both, while a charge to a key with another prefix
    leaves the entry alone. *)
Theorem ledger_entries_by_prefix `{AudioLib} (env : Env) (w : World)
    (k1 k2 : string) (n1 c1 n2 c2 : Z) (op1 op2 : string) :
  let w1 := log_credit_usage env k1 n1 c1 op1 w in
  let w2 := log_credit_usage env k2 n2 c2 op2 w1 in
  let before := entry_of (credits_log w) (key_id_of k1) in
  (key_id_of k1 = key_id_of k2 <-> PyStr.take 8 k1 = PyStr.take 8 k2)
  /\ (PyStr.take 8 k1 = PyStr.take 8 k2 ->
      exists r1 r2,
        credits_used r1 = c1 /\ credits_used r2 = c2
        /\ credits_log w2 !! key_id_of k1
           = Some (mkLedgerEntry (total_credits_used before + c1 + c2)%Z
                                 (calls before ++ [r1; r2])))
  /\ (PyStr.take 8 k1 <> PyStr.take 8 k2 ->
      credits_log w2 !! key_id_of k1 = credits_log w1 !! key_id_of k1).
Proof.
  intros w1 w2 before.
  assert (Hid : key_id_of k1 = key_id_of k2 <-> PyStr.take 8 k1 = PyStr.take 8 k2).
  { unfold key_id_of. split; [apply append_cancel_r | intros ->; reflexivity]. }
  split; [exact Hid|]. split.
  - intros Hpre. apply Hid in Hpre. subst w2 w1 before.
    unfold log_credit_usage. simpl. rewrite <- Hpre.
    rewrite ledger_add_lookup. unfold entry_of at 1 2.
    rewrite ledger_add_lookup. simpl.
    eexists _, _. split; [|split; [|rewrite <- app_assoc; reflexivity]];
      reflexivity.
  - intros Hpre. subst w2. unfold log_credit_usage at 1. simpl.
    apply ledger_add_lookup_ne. intros Heq. apply Hpre, Hid, Heq.
Qed.

Lemma ledger_entries_by_prefix_witness :
  exists r1 r2,
    credits_used r1 = 5%Z /\ credits_used r2 = 7%Z
    /\ credits_log
         (log_credit_usage sample_env "sk-alpha-0002" 7 7 "sfx_generation"
            (log_credit_usage sample_env "sk-alpha-0001" 5 5 "speech_synthesis"
               empty_world))
       !! key_id_of "sk-alpha-0001"
       = Some (mkLedgerEntry 12 [r1; r2]).
Proof.
  exact (proj1 (proj2 (ledger_entries_by_prefix sample_env empty_world
                         "sk-alpha-0001" "sk-alpha-0002" 5 5 7 7
                         "speech_synthesis" "sfx_generation")) eq_refl).
Defined.

(** ** What the parser keeps *)

Lemma parse_line_classify st raw :
  ScriptParser.parse_line st raw
  = match classify raw with
    | Blank => st
    | SpeakerTag name =>
        ScriptParser.mkParseState
          (ScriptParser.chunks (ScriptParser.flush st)) name
          (ScriptParser.buffer (ScriptParser.flush st))
    | EffectTag name =>
        ScriptParser.mkParseState
          (ScriptParser.chunks (ScriptParser.flush st) ++ [Sfx name])
          (ScriptParser.current_speaker (ScriptParser.flush st))
          (ScriptParser.buffer (ScriptParser.flush st))
    | TextLine line =>
        ScriptParser.mkParseState (ScriptParser.chunks st)
          (ScriptParser.current_speaker st) (ScriptParser.buffer st ++ [line])
    end.
Proof.
  unfold ScriptParser.parse_line, classify.
  destruct (PyStr.strip raw) as [|c0 s0]; [reflexivity|].
  destruct (ScriptParser.speaker_match (String c0 s0)); [reflexivity|].
  destruct (ScriptParser.sfx_match (String c0 s0)); reflexivity.
Qed.

Lemma effects_of_app a b : effects_of (a ++ b) = effects_of a ++ effects_of b.
Proof. apply omap_app. Qed.

Lemma texts_of_app a b : texts_of (a ++ b) = texts_of a ++ texts_of b.
Proof. apply omap_app. Qed.

Lemma flush_effects st :
  effects_of (ScriptParser.chunks (ScriptParser.flush st))
  = effects_of (ScriptParser.chunks st).
Proof.
  rewrite flush_chunks, effects_of_app.
  destruct (ScriptParser.buffer st); simpl; apply app_nil_r.
Qed.

Lemma fold_effects lines : forall st,
  effects_of (ScriptParser.chunks (fold_left ScriptParser.parse_line lines st))
  = effects_of (ScriptParser.chunks st) ++ effect_lines lines.
Proof.
  induction lines as [|raw rest IH]; intros st; simpl.
  - symmetry. apply app_nil_r.
  - rewrite IH, parse_line_classify. unfold effect_lines. simpl.
    destruct (classify raw) as [|name|name|line]; simpl.
    + reflexivity.
    + rewrite flush_effects. reflexivity.
    + rewrite effects_of_app, flush_effects. simpl.
      rewrite <- app_assoc. reflexivity.
    + reflexivity.
Qed.

Lemma flush_holds st all : holds_lines st all -> holds_lines (ScriptParser.flush st) all.
Proof.
  intros (blocks & Hne & Htexts & Hall).
  destruct (ScriptParser.buffer st) as [|line more] eqn:Eb.
  { rewrite flush_empty by exact Eb. exists blocks. rewrite Eb. auto. }
  exists (blocks ++ [line :: more]).
  split; [apply Forall_app; split; [exact Hne | repeat constructor; discriminate]|].
  rewrite flush_chunks, flush_buffer, Eb, texts_of_app, map_app, Htexts.
  split; [reflexivity|].
  rewrite concat_app, app_nil_r. simpl. rewrite app_nil_r. exact Hall.
Qed.

Lemma parse_line_holds st raw all :
  holds_lines st all ->
  holds_lines (ScriptParser.parse_line st raw) (all ++ spoken_lines [raw]).
Proof.
  intros Hst. rewrite parse_line_classify. unfold spoken_lines. simpl.
  destruct (classify raw) as [|name|name|line]; simpl; rewrite ?app_nil_r.
  - exact Hst.
  - destruct (flush_holds st all Hst) as (blocks & Hne & Htexts & Hall).
    exists blocks. auto.
  - destruct (flush_holds st all Hst) as (blocks & Hne & Htexts & Hall).
    exists blocks. split; [exact Hne|]. split; [|exact Hall]. simpl.
    rewrite texts_of_app, Htexts. simpl. apply app_nil_r.
  - destruct Hst as (blocks & Hne & Htexts & Hall).
    exists blocks. split; [exact Hne|]. split; [exact Htexts|]. simpl.
    rewrite app_assoc, Hall. reflexivity.
Qed.

Lemma spoken_lines_cons raw rest :
  spoken_lines (raw :: rest) = spoken_lines [raw] ++ spoken_lines rest.
Proof. unfold spoken_lines. simpl. destruct (classify raw); reflexivity. Qed.

Lemma speaker_names_cons raw rest :
  speaker_names (raw :: rest) = speaker_names [raw] ++ speaker_names rest.
Proof. unfold speaker_names. simpl. destruct (classify raw); reflexivity. Qed.

Lemma fold_holds lines : forall st all,
  holds_lines st all ->
  holds_lines (fold_left ScriptParser.parse_line lines st)
              (all ++ spoken_lines lines).
Proof.
  induction lines as [|raw rest IH]; intros st all Hst.
  - unfold spoken_lines. simpl. rewrite app_nil_r. exact Hst.
  - rewrite spoken_lines_cons, app_assoc.
    apply (IH (ScriptParser.parse_line st raw)), parse_line_holds, Hst.
Qed.

Lemma speakers_among_more st names more :
  speakers_among st names -> speakers_among st (names ++ more).
Proof.
  intros [Hcur Hchunks]. split.
  - destruct Hcur as [Hd|Hin]; [left; exact Hd|].
    right. apply in_or_app. left. exact Hin.
  - intros speaker text Hin. destruct (Hchunks speaker text Hin) as [Hd|Hn];
      [left; exact Hd|]. right. apply in_or_app. left. exact Hn.
Qed.

Lemma flush_speakers st names :
  speakers_among st names -> speakers_among (ScriptParser.flush st) names.
Proof.
  intros [Hcur Hchunks]. split; [rewrite flush_speaker; exact Hcur|].
  intros speaker text. rewrite flush_chunks. intros Hin.
  apply in_app_or in Hin. destruct Hin as [Hin|Hin]; [eauto|].
  destruct (ScriptParser.buffer st); [destruct Hin|].
  destruct Hin as [[= <- _]|[]]. exact Hcur.
Qed.

Lemma parse_line_speakers st raw names :
  speakers_among st names ->
  speakers_among (ScriptParser.parse_line st raw)
                 (names ++ speaker_names [raw]).
Proof.
  intros Hst. rewrite parse_line_classify. unfold speaker_names. simpl.
  destruct (classify raw) as [|name|name|line] eqn:Ek; simpl;
    rewrite ?app_nil_r.
  - exact Hst.
  - destruct (flush_speakers st names Hst) as [_ Hchunks]. split; simpl.
    + right. apply in_or_app. right. left. reflexivity.
    + intros speaker text Hin. destruct (Hchunks speaker text Hin) as [Hd|Hn];
        [left; exact Hd|]. right. apply in_or_app. left. exact Hn.
  - destruct (flush_speakers st names Hst) as [Hcur Hchunks].
    split; simpl; [exact Hcur|].
    intros speaker text Hin. apply in_app_or in Hin.
    destruct Hin as [Hin|[[=]|[]]]. eauto.
  - exact Hst.
Qed.

Lemma fold_speakers lines : forall st names,
  speakers_among st names ->
  speakers_among (fold_left ScriptParser.parse_line lines st)
                 (names ++ speaker_names lines).
Proof.
  induction lines as [|raw rest IH]; intros st names Hst.
  - unfold speaker_names. simpl. rewrite app_nil_r. exact Hst.
  - rewrite speaker_names_cons, app_assoc.
    apply (IH (ScriptParser.parse_line st raw)), parse_line_speakers, Hst.
Qed.

(** X16. The parser loses nothing and invents nothing.  The effect chunks
    of a parsed script are exactly the names of its effect tags, in script
    order; the dialogue texts are consecutive blocks of its text lines, each
    block joined by single spaces, which together hold every text line once
    and in order; and every dialogue is spoken by "Default" or by a name
    from a speaker tag of the script. *)
Theorem parse_keeps_the_script (script : string) :
  let lines := PyStr.readlines script in
  let chunks := ScriptParser.parse script in
  effects_of chunks = effect_lines lines
  /\ (exists blocks : list (list string),
        Forall (fun block => block <> []) blocks
        /\ texts_of chunks = map (PyStr.join " ") blocks
        /\ concat blocks = spoken_lines lines)
  /\ (forall speaker text,
        In (Dialogue speaker text) chunks ->
        speaker = "Default" \/ In speaker (speaker_names lines)).
Proof.
  intros lines chunks. subst chunks.
  unfold ScriptParser.parse, ScriptParser.parse_lines. fold lines.
  split; [rewrite flush_effects, fold_effects; reflexivity|]. split.
  - assert (H0 : holds_lines ScriptParser.initial []).
    { exists []. split; [constructor|]. split; reflexivity. }
    destruct (flush_holds _ _ (fold_holds lines _ _ H0))
      as (blocks & Hne & Htexts & Hall).
    exists blocks. split; [exact Hne|]. split; [exact Htexts|].
    rewrite flush_buffer, app_nil_r in Hall. exact Hall.
  - assert (H0 : speakers_among ScriptParser.initial []).
    { split; [left; reflexivity | intros speaker text []]. }
    destruct (flush_speakers _ _ (fold_speakers lines _ _ H0)) as [_ Hchunks].
    exact Hchunks.
Qed.

Lemma parse_keeps_the_script_witness :
  effects_of (ScriptParser.parse tagged_script) = ["rain"; "door"]
  /\ texts_of (ScriptParser.parse tagged_script)
     = ["intro"; "Hello there"; "Bye"]
  /\ spoken_lines (PyStr.readlines tagged_script)
     = ["intro"; "Hello"; "there"; "Bye"]
  /\ forall speaker text,
       In (Dialogue speaker text) (ScriptParser.parse tagged_script) ->
       speaker = "Default" \/ In speaker ["Ann"].
Proof.
  destruct (parse_keeps_the_script tagged_script) as (Heffects & _ & Hspeakers).
  split; [exact Heffects|].
  split; [vm_compute; reflexivity|].
  split; [vm_compute; reflexivity|].
  exact Hspeakers.
Defined.

(** ** The first program *)

Section V1Facts.
Context `{AudioLib}.
Variable env : V1.Env.
Variable api_keys : list string.
Variable voice_mapping : gmap string string.
Local Open Scope Z_scope.

Lemma keys_in_turn_cons c k key :
  api_keys !! c = Some key ->
  keys_in_turn api_keys c (S k)
  = key :: keys_in_turn api_keys ((c + 1) mod length api_keys)%nat k.
Proof.
  intros Hk. pose proof (lookup_lt_Some _ _ _ Hk) as Hc.
  unfold keys_in_turn. simpl.
  rewrite Nat.add_0_r, Nat.mod_small, Hk by exact Hc. f_equal.
  apply omap_seq_shift. intros i.
  rewrite Nat.Div0.add_mod_idemp_l. do 2 f_equal. lia.
Qed.

(** A dialogue that is not blank and does not raise sends one request,
    with the key under the cursor, and moves the cursor on. *)
Lemma v1_synthesize_sends words speaker (w : V1.World) audio w' :
  PyStr.strip words <> EmptyString ->
  V1.synthesize env api_keys voice_mapping words speaker w
  = (Returns audio, w') ->
  exists req,
    V1.requests w' = V1.requests w ++ [req]
    /\ api_keys !! V1.current_index w = Some (xi_api_key req)
    /\ text req = words
    /\ V1.current_index w'
       = ((V1.current_index w + 1) mod length api_keys)%nat.
Proof.
  intros Hne. unfold V1.synthesize.
  destruct (PyStr.strip words) as [|c0 s0]; [contradiction|].
  unfold V1.get_next_api_key.
  destruct (api_keys !! V1.current_index w) as [key|] eqn:Ek; [|discriminate].
  destruct (voice_mapping !! "Default") as [fallback|]; [|discriminate].
  cbv zeta.
  match goal with
  | |- context [V1.http env ?n ?r] => destruct (V1.http env n r) as [response|]
  end.
  - destruct (status_code response =? 200).
    + destruct (content response); intros [= _ <-];
        eexists; (split; [reflexivity|]); simpl; auto.
    + intros [= _ <-]. eexists. split; [reflexivity|]. simpl. auto.
  - intros [= _ <-]. eexists. split; [reflexivity|]. simpl. auto.
Qed.

(** An effect chunk sends no request and leaves the cursor alone. *)
Lemma v1_get_sfx_clip_quiet effect duration (w : V1.World) res w' :
  V1.get_sfx_clip env effect duration w = (res, w') ->
  V1.requests w' = V1.requests w /\ V1.current_index w' = V1.current_index w.
Proof.
  unfold V1.get_sfx_clip.
  destruct (V1.sfx_cache w !! effect) as [clip|].
  - destruct (get_sfx_clip_adjust clip duration); intros [= _ <-]; auto.
  - destruct (V1.effect_files env effect) as [|file more];
      [intros [= _ <-]; auto|].
    destruct (V1.load_file env file) as [clip|]; [|intros [= _ <-]; auto].
    destruct (get_sfx_clip_adjust clip duration); intros [= _ <-]; auto.
Qed.

Lemma v1_process_chunks_rotate chunks : forall podcast (w : V1.World) timeline w',
  (V1.current_index w < length api_keys)%nat ->
  (forall speaker words,
     In (Dialogue speaker words) chunks -> PyStr.strip words <> EmptyString) ->
  V1.process_chunks env api_keys voice_mapping podcast chunks w
  = (Returns timeline, w') ->
  exists new,
    V1.requests w' = V1.requests w ++ new
    /\ map xi_api_key new
       = keys_in_turn api_keys (V1.current_index w) (length (texts_of chunks))
    /\ map text new = texts_of chunks
    /\ V1.current_index w'
       = ((V1.current_index w + length (texts_of chunks)) mod length api_keys)%nat.
Proof.
  induction chunks as [|chunk rest IH]; intros podcast w timeline w' Hcur Hne;
    simpl.
  - intros [= _ <-]. exists []. rewrite app_nil_r, Nat.add_0_r.
    rewrite Nat.mod_small by exact Hcur. auto.
  - unfold V1.process_chunk.
    destruct (V1.chunk_audio env api_keys voice_mapping chunk w)
      as [[audio|e] w1] eqn:Ea; [|discriminate].
    match goal with
    | |- V1.process_chunks _ _ _ ?p rest w1 = _ -> _ =>
        intros Hrest; specialize (IH p w1 timeline w')
    end.
    assert (Hne' : forall speaker words,
               In (Dialogue speaker words) rest ->
               PyStr.strip words <> EmptyString)
      by (intros speaker words Hin; apply (Hne speaker words); right; exact Hin).
    destruct chunk as [speaker words|effect]; simpl in Ea.
    + destruct (v1_synthesize_sends words speaker w audio w1
                  (Hne speaker words (or_introl eq_refl)) Ea)
        as (req & Hreq & Hkey & Htext & Hidx).
      assert (Hcur1 : (V1.current_index w1 < length api_keys)%nat)
        by (rewrite Hidx; apply Nat.mod_upper_bound; lia).
      destruct (IH Hcur1 Hne' Hrest) as (new & Hreq' & Hkeys & Htexts & Hidx').
      exists (req :: new).
      split; [rewrite Hreq', Hreq, <- app_assoc; reflexivity|].
      change (texts_of (Dialogue speaker words :: rest))
        with (words :: texts_of rest).
      simpl length. simpl map.
      split; [rewrite (keys_in_turn_cons _ _ _ Hkey), Hkeys, Hidx; reflexivity|].
      split; [rewrite Htext, Htexts; reflexivity|].
      rewrite Hidx', Hidx, Nat.Div0.add_mod_idemp_l. f_equal. lia.
    + destruct (v1_get_sfx_clip_quiet effect 3000 w _ w1 Ea) as [Hreq Hidx].
      change (texts_of (Sfx effect :: rest)) with (texts_of rest).
      rewrite <- Hreq, <- Hidx.
      apply IH; [rewrite Hidx; exact Hcur | exact Hne' | exact Hrest].
Qed.

(** For a duration other than 0 the first program fits a clip as the
    second one does, after its fixed reduction of 10 dB; a duration of 0
    leaves the length alone. *)
Lemma get_sfx_clip_adjust_fit (clip : AudioSegment.t) duration :
  get_sfx_clip_adjust clip duration
  = if duration =? 0 then Returns (AudioSegment.sub_gain clip 10)
    else fit (AudioSegment.sub_gain clip 10) duration.
Proof.
  unfold get_sfx_clip_adjust, fit. cbv zeta.
  set (quiet := AudioSegment.sub_gain clip 10).
  destruct (Z.eqb_spec duration 0) as [Hz|Hnz]; [reflexivity|]. simpl.
  destruct (Z.gtb_spec (len quiet) duration) as [Hg|Hg]; [|reflexivity].
  destruct (Z.ltb_spec (len (AudioSegment.slice_to quiet duration)) duration)
    as [Hl|Hl]; [|reflexivity].
  exfalso.
  destruct (Z.lt_ge_cases duration 0) as [Hneg|Hpos].
  - pose proof (len_nonneg (AudioSegment.slice_to quiet duration)). lia.
  - rewrite len_slice_to in Hl by lia. lia.
Qed.

End V1Facts.

(** X17. The first program gives every dialogue the next key.  Over a
    run of its chunk loop that does not raise, from a cursor inside the key
    list and with no blank dialogue (as [parse] guarantees), exactly one
    request is sent per dialogue chunk, in order and with the dialogue's
    text; request number i carries key number (cursor + i) modulo the
    number of keys, whether or not earlier requests succeeded; effect
    chunks send nothing; and the cursor ends that many places further. *)
Theorem v1_one_key_per_dialogue `{AudioLib} (env : V1.Env)
    (api_keys : list string) (voice_mapping : gmap string string)
    (podcast : AudioSegment.t) (chunks : list Chunk) (w : V1.World)
    (timeline : AudioSegment.t) (w' : V1.World) :
  (V1.current_index w < length api_keys)%nat ->
  (forall speaker words,
     In (Dialogue speaker words) chunks -> PyStr.strip words <> EmptyString) ->
  V1.process_chunks env api_keys voice_mapping podcast chunks w
  = (Returns timeline, w') ->
  exists new,
    V1.requests w' = V1.requests w ++ new
    /\ map xi_api_key new
       = keys_in_turn api_keys (V1.current_index w) (length (texts_of chunks))
    /\ map text new = texts_of chunks
    /\ V1.current_index w'
       = ((V1.current_index w + length (texts_of chunks)) mod length api_keys)%nat.
Proof. apply v1_process_chunks_rotate. Qed.

Lemma v1_one_key_per_dialogue_witness :
  exists timeline w' new,
    V1.process_chunks v1_door_env v1_keys v1_voices (silent 500) v1_chunks
                      v1_empty_world = (Returns timeline, w')
    /\ V1.requests w' = new
    /\ map xi_api_key new = ["sk-alpha-0001"; "sk-bravo-0002"; "sk-alpha-0001"]
    /\ V1.current_index w' = 1%nat.
Proof.
  assert (Erun : exists timeline w',
            V1.process_chunks v1_door_env v1_keys v1_voices (silent 500)
                              v1_chunks v1_empty_world = (Returns timeline, w'))
    by (eexists _, _; reflexivity).
  destruct Erun as (timeline & w' & Erun).
  destruct (v1_one_key_per_dialogue v1_door_env v1_keys v1_voices (silent 500)
              v1_chunks v1_empty_world timeline w')
    as (new & Hreq & Hkeys & _ & Hidx).
  - simpl. lia.
  - intros speaker words [[= _ <-]|[[=]|[[= _ <-]|[[= _ <-]|[]]]]];
      vm_compute; discriminate.
  - exact Erun.
  - exists timeline, w', new. split; [exact Erun|]. split; [exact Hreq|].
    split; [exact Hkeys | exact Hidx].
Defined.

(** X18. Effect files of the first program.  A clip that [get_sfx_clip]
    returns for a positive duration lasts no longer than that, and exactly
    that long when the file it was loaded from is at least as long; the
    cache then holds the clip as it was loaded, from which the returned one
    is fitted as the second program fits after a reduction of 10 dB, so
    asking again returns the same clip without reading the directory and
    without changing the state; and no call sends a request or moves the
    cursor. *)
Theorem v1_effect_clips `{AudioLib} (env : V1.Env) (effect : string)
    (duration : Z) (w : V1.World) (clip : AudioSegment.t) (w1 : V1.World) :
  (0 < duration)%Z ->
  V1.get_sfx_clip env effect duration w = (Returns (Some clip), w1) ->
  (len clip <= duration)%Z
  /\ (exists loaded,
        V1.sfx_cache w1 !! effect = Some loaded
        /\ fit (AudioSegment.sub_gain loaded 10) duration = Returns clip
        /\ ((duration <= len loaded)%Z -> len clip = duration))
  /\ V1.get_sfx_clip env effect duration w1 = (Returns (Some clip), w1)
  /\ V1.requests w1 = V1.requests w
  /\ V1.current_index w1 = V1.current_index w.
Proof.
  intros Hpos Hrun.
  destruct (v1_get_sfx_clip_quiet env effect duration w _ w1 Hrun)
    as [Hreq Hidx].
  assert (Hloaded : exists loaded,
             V1.sfx_cache w1 !! effect = Some loaded
             /\ get_sfx_clip_adjust loaded duration = Returns clip).
  { unfold V1.get_sfx_clip in Hrun.
    destruct (V1.sfx_cache w !! effect) as [loaded|] eqn:Ec.
    - destruct (get_sfx_clip_adjust loaded duration) as [out|e] eqn:Ea;
        [|discriminate].
      injection Hrun as <- <-. eauto.
    - destruct (V1.effect_files env effect) as [|file more]; [discriminate|].
      destruct (V1.load_file env file) as [loaded|]; [|discriminate].
      destruct (get_sfx_clip_adjust loaded duration) as [out|e] eqn:Ea;
        [|discriminate].
      injection Hrun as <- <-. exists loaded. simpl.
      rewrite lookup_insert_eq. auto. }
  destruct Hloaded as (loaded & Hcache & Hadjust).
  pose proof Hadjust as Hfit. rewrite get_sfx_clip_adjust_fit in Hfit.
  destruct (Z.eqb_spec duration 0) as [Hz|_]; [lia|].
  split; [apply (fit_len_le (AudioSegment.sub_gain loaded 10) clip duration);
          [lia | exact Hfit]|].
  split.
  { exists loaded. split; [exact Hcache|]. split; [exact Hfit|].
    intros Hlong.
    apply (fit_len_reached (AudioSegment.sub_gain loaded 10) clip duration);
      [lia | rewrite sub_gain_len; exact Hlong | exact Hfit]. }
  split; [|auto].
  unfold V1.get_sfx_clip. rewrite Hcache, Hadjust. reflexivity.
Qed.

Lemma v1_effect_clips_witness :
  exists clip w1,
    V1.get_sfx_clip v1_door_env "door" 3000 v1_empty_world
    = (Returns (Some clip), w1)
    /\ (len clip <= 3000)%Z.
Proof.
  assert (Erun : exists clip w1,
            V1.get_sfx_clip v1_door_env "door" 3000 v1_empty_world
            = (Returns (Some clip), w1))
    by (eexists _, _; reflexivity).
  destruct Erun as (clip & w1 & Erun).
  exists clip, w1. split; [exact Erun|].
  apply (v1_effect_clips v1_door_env "door" 3000 v1_empty_world clip w1);
    [lia | exact Erun].
Defined.
